(** * Outlook LLM mail sorter: the folder taxonomy resolution engine

    A shallow embedding of [Mail sorting.py]: the path normalizer
    ([normalize_name]), the path validator ([clean_folder_path] with
    [FORBIDDEN_PATTERNS]), the folder cache ([known_folders],
    [build_folder_cache]), the folder resolver ([get_or_create_folder]) and
    the oracle call ([classify_email]).

    Python strings are sequences of Unicode code points; the Unicode
    character database the script reaches through [unicodedata], [str.lower],
    [str.strip] and [re] is not part of the repository and is taken as a
    parameter ([UnicodeData]).  The Outlook folder tree is a rose tree whose
    nodes are addressed by their position; [known_folders] is a finite map. *)

From Stdlib Require Import String Ascii NArith ZArith Lia.
From stdpp Require Import base option list gmap sorting.

Open Scope N_scope.
Open Scope list_scope.

(** ** Python strings *)

Module PyStr.

(** A [str] is a list of code points. *)
Definition str : Type := list N.

(** A literal of the script, code point by code point. *)
Fixpoint py (s : string) : str :=
  match s with
  | EmptyString => []
  | String a s' => N_of_ascii a :: py s'
  end.
#[global] Arguments py : simpl never.

(** [s.startswith(p)] *)
Fixpoint startswith (s p : str) {struct p} : bool :=
  match p with
  | [] => true
  | a :: p' =>
      match s with
      | [] => false
      | b :: s' => (a =? b) && startswith s' p'
      end
  end.

(** [s.split(sep)] for a one-character separator: never the empty list. *)
Fixpoint split (sep : N) (s : str) : list str :=
  match s with
  | [] => [[]]
  | c :: s' =>
      if c =? sep then [] :: split sep s'
      else match split sep s' with
           | h :: t => (c :: h) :: t
           | [] => [[c]]
           end
  end.

(** [p in s]: [p] occurs in [s] as a contiguous substring. *)
Fixpoint contains (s p : str) : bool :=
  startswith s p || match s with [] => false | _ :: s' => contains s' p end.

(** Joining the parts of a split with the separator gives the string back:
    the way [get_or_create_folder] rebuilds [real_path]. *)
Fixpoint join_after (sep : N) (acc : str) (parts : list str) : str :=
  match parts with
  | [] => acc
  | p :: rest => join_after sep (acc ++ sep :: p) rest
  end.

End PyStr.
Import PyStr.

(** ** The Unicode character database

    What the Python runtime looks up for the script: the NFKD form of a
    string, the canonical combining class, the white-space property and the
    case tables behind [str.lower].  None of it is code of the repository. *)

Record UnicodeData : Type := {
  normalize_NFKD : str -> str;      (* unicodedata.normalize("NFKD", s) *)
  combining : N -> N;               (* unicodedata.combining(c) *)
  isspace : N -> bool;              (* str.isspace, the class \s of re *)
  tolower_full : N -> str;          (* full lower-case mapping of one code point *)
  is_cased : N -> bool;
  is_case_ignorable : N -> bool
}.

Definition ascii_lower (c : N) : N :=
  if (65 <=? c) && (c <=? 90) then c + 32 else c.

Definition ascii_isspace (c : N) : bool :=
  ((9 <=? c) && (c <=? 13)) || ((28 <=? c) && (c <=? 32)).

(** What every version of the database says about Basic Latin. *)
Record AsciiCompatible (U : UnicodeData) : Prop := {
  nfkd_ascii : forall s, Forall (fun c => c < 128) s -> normalize_NFKD U s = s;
  combining_ascii : forall c, c < 128 -> combining U c = 0;
  isspace_ascii : forall c, c < 128 -> isspace U c = ascii_isspace c;
  tolower_ascii : forall c, c < 128 -> tolower_full U c = [ascii_lower c]
}.

Section StringOps.

Variable U : UnicodeData.

(** [s.strip()] *)
Fixpoint lstrip (s : str) : str :=
  match s with
  | [] => []
  | c :: s' => if isspace U c then lstrip s' else s
  end.

Definition rstrip (s : str) : str := rev (lstrip (rev s)).

Definition strip (s : str) : str := rstrip (lstrip s).

(** [s.lower()]: every code point is replaced by its full lower-case
    mapping, except GREEK CAPITAL LETTER SIGMA, which becomes a final or a
    medial small sigma according to its neighbours. *)
Definition SIGMA : N := 931.
Definition FINAL_SMALL_SIGMA : N := 962.
Definition SMALL_SIGMA : N := 963.

Fixpoint first_not_ignorable (s : str) : option N :=
  match s with
  | [] => None
  | c :: s' => if is_case_ignorable U c then first_not_ignorable s' else Some c
  end.

Definition final_sigma (before_rev after : str) : bool :=
  match first_not_ignorable before_rev with
  | None => false
  | Some c =>
      is_cased U c &&
      match first_not_ignorable after with
      | None => true
      | Some d => negb (is_cased U d)
      end
  end.

Definition lower_at (before_rev : str) (c : N) (after : str) : str :=
  if c =? SIGMA
  then [if final_sigma before_rev after then FINAL_SMALL_SIGMA else SMALL_SIGMA]
  else tolower_full U c.

Fixpoint do_lower (before_rev s : str) : str :=
  match s with
  | [] => []
  | c :: s' => lower_at before_rev c s' ++ do_lower (c :: before_rev) s'
  end.

Definition lower (s : str) : str := do_lower [] s.

(** [re.sub(r"\s+", " ", s)]: every maximal run of white space becomes one
    space.  [in_run] tells that the previous code point was white space. *)
Fixpoint sub_spaces_from (in_run : bool) (s : str) : str :=
  match s with
  | [] => []
  | c :: s' =>
      if isspace U c
      then (if in_run then sub_spaces_from true s' else 32 :: sub_spaces_from true s')
      else c :: sub_spaces_from false s'
  end.

Definition sub_spaces (s : str) : str := sub_spaces_from false s.

(** *** Path normalizer *)

Definition normalize_name (name : str) : str :=
  let nfkd := normalize_NFKD U name in
  lower (strip (List.filter (fun c => combining U c =? 0) nfkd)).

End StringOps.

(** A fragment of the database, exact on Basic Latin and on the few other
    code points the examples below use: U+00A0 NO-BREAK SPACE, U+00C9 and
    U+00E9 (E WITH ACUTE), U+0301 COMBINING ACUTE ACCENT, U+212A KELVIN SIGN
    and U+FF0F FULLWIDTH SOLIDUS.  Every other code point is treated as
    caseless, not white space, not combining and without decomposition. *)
Module Fragment.

Definition decompose (c : N) : str :=
  if c =? 160 then [32]
  else if c =? 201 then [69; 769]
  else if c =? 233 then [101; 769]
  else if c =? 8490 then [75]
  else if c =? 65295 then [47]
  else [c].

Definition ccc (c : N) : N := if c =? 769 then 230 else 0.

Definition space (c : N) : bool := ascii_isspace c || (c =? 160).

Definition to_lower (c : N) : str :=
  if c <? 128 then [ascii_lower c]
  else if c =? 201 then [233]
  else if c =? 8490 then [107]
  else [c].

Definition cased (c : N) : bool :=
  ((65 <=? c) && (c <=? 90)) || ((97 <=? c) && (c <=? 122))
  || (c =? 201) || (c =? 233) || (c =? 8490).

Definition case_ignorable (c : N) : bool :=
  (c =? 39) || (c =? 46) || (c =? 58) || (c =? 94) || (c =? 96) || (c =? 769).

Definition ucd : UnicodeData := {|
  normalize_NFKD := fun s => flat_map decompose s;
  combining := ccc;
  isspace := space;
  tolower_full := to_lower;
  is_cased := cased;
  is_case_ignorable := case_ignorable
|}.

End Fragment.

(** ** Regular expressions

    The part of [re] the script uses: [re.search(p, s)] as a truth value,
    for patterns built from literals, character classes, concatenation and
    the star.  The matcher works by derivatives; [matches] is the usual
    inductive meaning of a pattern and [search_spec] relates the two. *)

Module Re.

Inductive regex : Type :=
| Void
| Eps
| Class (p : N -> bool)
| Cat (r1 r2 : regex)
| Alt (r1 r2 : regex)
| Star (r : regex).

(** The pattern of a literal string. *)
Definition lit (s : str) : regex :=
  fold_right (fun c r => Cat (Class (N.eqb c)) r) Eps s.

Inductive matches : regex -> str -> Prop :=
| MEps : matches Eps []
| MClass p c : p c = true -> matches (Class p) [c]
| MCat r1 r2 s1 s2 :
    matches r1 s1 -> matches r2 s2 -> matches (Cat r1 r2) (s1 ++ s2)
| MAltL r1 r2 s : matches r1 s -> matches (Alt r1 r2) s
| MAltR r1 r2 s : matches r2 s -> matches (Alt r1 r2) s
| MStar0 r : matches (Star r) []
| MStarApp r s1 s2 :
    matches r s1 -> matches (Star r) s2 -> matches (Star r) (s1 ++ s2).

Fixpoint nullable (r : regex) : bool :=
  match r with
  | Void => false
  | Eps => true
  | Class _ => false
  | Cat r1 r2 => nullable r1 && nullable r2
  | Alt r1 r2 => nullable r1 || nullable r2
  | Star _ => true
  end.

Fixpoint deriv (c : N) (r : regex) : regex :=
  match r with
  | Void => Void
  | Eps => Void
  | Class p => if p c then Eps else Void
  | Cat r1 r2 =>
      if nullable r1 then Alt (Cat (deriv c r1) r2) (deriv c r2)
      else Cat (deriv c r1) r2
  | Alt r1 r2 => Alt (deriv c r1) (deriv c r2)
  | Star r1 => Cat (deriv c r1) (Star r1)
  end.

(** Some prefix of [s] matches [r]: [re.match(r, s)] as a truth value. *)
Fixpoint match_prefix (r : regex) (s : str) : bool :=
  nullable r ||
  match s with
  | [] => false
  | c :: s' => match_prefix (deriv c r) s'
  end.

(** Some substring of [s] matches [r]: [re.search(r, s)] as a truth value. *)
Fixpoint search (r : regex) (s : str) : bool :=
  match_prefix r s ||
  match s with
  | [] => false
  | _ :: s' => search r s'
  end.

End Re.
(** ** Path validator *)

Import Re.

Definition SLASH : N := 47.

(** The class [[a-zA-Z0-9/ \-]] of the third pattern. *)
Definition allowed (c : N) : bool :=
  ((97 <=? c) && (c <=? 122)) || ((65 <=? c) && (c <=? 90))
  || ((48 <=? c) && (c <=? 57)) || (c =? 47) || (c =? 32) || (c =? 45).

Definition not_slash (c : N) : bool := negb (c =? SLASH).

Definition root_like : regex :=          (* postvak in[^/]*[^/] *)
  Cat (lit (py "postvak in")) (Cat (Star (Class not_slash)) (Class not_slash)).
Definition ellipsis : regex :=           (* \.\.\. *)
  lit (py "...").
Definition strange_symbol : regex :=     (* [^a-zA-Z0-9/ \-] *)
  Class (fun c => negb (allowed c)).
Definition bad_root_variant : regex :=   (* postvak in opr *)
  lit (py "postvak in opr").

Definition FORBIDDEN_PATTERNS : list regex :=
  [root_like; ellipsis; strange_symbol; bad_root_variant].

Definition ROOT_PREFIX : str := py "Postvak In/".
Definition FALLBACK_PATH : str := py "Postvak In/Unsorted".

Section Validator.

Variable U : UnicodeData.

Definition prepend_root (clean_path : str) : str :=
  if negb (startswith (lower U clean_path) (py "postvak in/"))
  then ROOT_PREFIX ++ clean_path
  else clean_path.

Definition clean_folder_path (folder_path : str) : str :=
  let clean_path := strip U folder_path in
  let clean_path := sub_spaces U clean_path in
  let clean_path := prepend_root clean_path in
  if existsb (fun p => search p (lower U clean_path)) FORBIDDEN_PATTERNS
  then FALLBACK_PATH
  else clean_path.

(** The path the patterns are tried on, before it is lower-cased. *)
Definition cleaned_path (folder_path : str) : str :=
  prepend_root (sub_spaces U (strip U folder_path)).

(** A code point that is still outside the class of the third pattern once
    it is lower-cased. *)
Definition stays_strange (c : N) : bool :=
  (c =? SIGMA) || existsb (fun d => negb (allowed d)) (tolower_full U c).

End Validator.

(** ** The folder tree

    An Outlook folder has a name and a collection of sub-folders, which
    the script enumerates in a fixed order.  The script holds folders by
    reference and the tree only ever grows at the end of a collection, so a
    folder is identified by its position: the child indices on the way down
    from the folder the script starts at. *)

#[local] Unset Elimination Schemes.
Inductive Folder : Type :=
  MkFolder (name : str) (subfolders : list Folder).
#[local] Set Elimination Schemes.

Definition Name (f : Folder) : str :=
  match f with MkFolder name _ => name end.

Definition Folders (f : Folder) : list Folder :=
  match f with MkFolder _ subfolders => subfolders end.

Definition handle : Type := list nat.

(** The folder a handle points at. *)
Fixpoint subfolder (tree : Folder) (h : handle) : option Folder :=
  match h with
  | [] => Some tree
  | i :: h' =>
      match Folders tree !! i with
      | Some child => subfolder child h'
      | None => None
      end
  end.

(** [next((f for f in fs if f.Name == part), None)], as an index. *)
Fixpoint first_named (part : str) (fs : list Folder) : option nat :=
  match fs with
  | [] => None
  | f :: rest =>
      if bool_decide (Name f = part) then Some 0%nat
      else S <$> first_named part rest
  end.

Definition find_child (tree : Folder) (folder : handle) (part : str) : option nat :=
  match subfolder tree folder with
  | Some f => first_named part (Folders f)
  | None => None
  end.

(** [folder.Folders.Add(part)]: a new, empty folder of that name at the
    end of the collection; the handle of the new folder is returned with
    the tree.  Outlook is taken to accept every name.  A handle that points
    at nothing leaves the tree as it is: the resolver never holds one. *)
Fixpoint alter_at (g : Folder -> Folder) (h : handle) (tree : Folder) : Folder :=
  match h with
  | [] => g tree
  | i :: h' => MkFolder (Name tree) (alter (alter_at g h') i (Folders tree))
  end.

Definition append_child (part : str) (f : Folder) : Folder :=
  MkFolder (Name f) (Folders f ++ [MkFolder part []]).

Definition Folders_Add (tree : Folder) (folder : handle) (part : str) : Folder * handle :=
  match subfolder tree folder with
  | Some f => (alter_at (append_child part) folder tree, folder ++ [length (Folders f)])
  | None => (tree, folder)
  end.

(** *** What a walk can see of the tree: the names of the children *)

Definition children_names (tree : Folder) (h : handle) : list str :=
  match subfolder tree h with
  | Some f => Name <$> Folders f
  | None => []
  end.

Fixpoint index_of (part : str) (names : list str) : option nat :=
  match names with
  | [] => None
  | n :: rest =>
      if bool_decide (n = part) then Some 0%nat else S <$> index_of part rest
  end.

(** [extends t t']: [t'] has every folder of [t], under the same handle and
    with the same name, and the children of [t] come first in every
    collection. *)
Definition extends (t t' : Folder) : Prop :=
  forall h, children_names t h `prefix_of` children_names t' h.


(** ** Folder cache and folder resolver *)

(** [known_folders]: canonical key -> real path. *)
Abbreviation cache := (gmap str str).

Section Resolver.

Variable U : UnicodeData.

(** The configuration switch imported from [Secrets]. *)
Variable CREATE_NEW_FOLDERS : bool.

(** [build_folder_cache(root, base)]: the loop over [root.Folders], with
    the recursive call on every child. *)
Fixpoint build_folder_cache (root : Folder) (base : str) (known_folders : cache)
  : cache :=
  match root with
  | MkFolder _ fs =>
      (fix each (fs : list Folder) (known_folders : cache) : cache :=
         match fs with
         | [] => known_folders
         | f :: rest =>
             let path := base ++ SLASH :: Name f in
             let known_folders := <[normalize_name U path := path]> known_folders in
             let known_folders := build_folder_cache f path known_folders in
             each rest known_folders
         end) fs known_folders
  end.

(** One turn of the loop over [parts[1:]] up to [folder = subfolder]: the
    child found, or the child created, or nothing when the child is missing
    and must not be created. *)
Definition enter (tree : Folder) (folder : handle) (part : str)
  : option (Folder * handle) :=
  match find_child tree folder part with
  | Some i => Some (tree, folder ++ [i])
  | None =>
      if CREATE_NEW_FOLDERS then Some (Folders_Add tree folder part)
      else None
  end.

Inductive walk_result : Type :=
| Finished (tree : Folder) (known_folders : cache) (folder : handle) (real_path : str)
| Abandoned (tree : Folder) (known_folders : cache).

(** The loop [for part in parts[1:]] of [get_or_create_folder]. *)
Fixpoint walk (parts : list str) (tree : Folder) (known_folders : cache)
  (folder : handle) (real_path : str) : walk_result :=
  match parts with
  | [] => Finished tree known_folders folder real_path
  | part :: rest =>
      match enter tree folder part with
      | None => Abandoned tree known_folders
      | Some (tree, subfolder) =>
          let real_path := real_path ++ SLASH :: part in
          let known_folders := <[normalize_name U real_path := real_path]> known_folders in
          walk rest tree known_folders subfolder real_path
      end
  end.

(** [next((f for f in root_folder.Folders if f.Name == "Unsorted"), root_folder)] *)
Definition unsorted_or_root (tree : Folder) : handle :=
  match find_child tree [] (py "Unsorted") with
  | Some i => [i]
  | None => []
  end.

(** The path the resolver walks: the cached real path of the key when there
    is one, the path given otherwise. *)
Definition effective_path (known_folders : cache) (folder_path : str) : str :=
  match known_folders !! normalize_name U folder_path with
  | Some real => real
  | None => folder_path
  end.

(** [get_or_create_folder(root_folder, folder_path)] on the tree [tree] and
    the cache [known_folders]: the tree and the cache afterwards and the
    folder returned. *)
Definition get_or_create_folder (tree : Folder) (known_folders : cache)
  (folder_path : str) : Folder * cache * handle :=
  let folder_path := effective_path known_folders folder_path in
  let parts := split SLASH folder_path in
  let real_path := match parts with p0 :: _ => p0 | [] => py "Postvak In" end in
  match walk (tail parts) tree known_folders [] real_path with
  | Finished tree known_folders folder _ => (tree, known_folders, folder)
  | Abandoned tree known_folders => (tree, known_folders, unsorted_or_root tree)
  end.

End Resolver.

(** ** The states of a run

    [known_folders] starts empty; [build_folder_cache] and
    [get_or_create_folder] are the only code that writes to it, and
    [get_or_create_folder] is the only code that changes the tree.  What
    Outlook or its user do to the tree meanwhile is not part of a run. *)

Section Runs.

Variable U : UnicodeData.
Variable CREATE_NEW_FOLDERS : bool.

Inductive Step : Folder * cache -> Folder * cache -> Prop :=
| step_build tree known_folders root base :
    Step (tree, known_folders)
         (tree, build_folder_cache U root base known_folders)
| step_resolve tree known_folders folder_path :
    Step (tree, known_folders)
         (get_or_create_folder U CREATE_NEW_FOLDERS tree known_folders folder_path).1.

Inductive Reachable : Folder * cache -> Prop :=
| reach_start tree : Reachable (tree, ∅)
| reach_step st st' : Reachable st -> Step st st' -> Reachable st'.

(** Every entry of the cache is a real path under its own canonical key. *)
Definition cache_consistent (known_folders : cache) : Prop :=
  forall key real, known_folders !! key = Some real -> key = normalize_name U real.

End Runs.

(** The cache a walk leaves behind. *)
Definition walk_cache (r : walk_result) : cache :=
  match r with
  | Finished _ known_folders _ _ => known_folders
  | Abandoned _ known_folders => known_folders
  end.

(** ** Reading the tree without touching it *)

(** The walk of [parts] by exact name, first match, from [folder]: the
    folder reached, or nothing when some part has no child of that name. *)
Fixpoint descend (tree : Folder) (folder : handle) (parts : list str)
  : option handle :=
  match parts with
  | [] => Some folder
  | part :: rest =>
      match find_child tree folder part with
      | Some i => descend tree (folder ++ [i]) rest
      | None => None
      end
  end.

(** The real path of a folder: the names on the way down from the root,
    after [base], which stands for the root itself. *)
Fixpoint real_path_of (tree : Folder) (base : str) (h : handle) : option str :=
  match h with
  | [] => Some base
  | i :: h' =>
      match Folders tree !! i with
      | Some child => real_path_of child (base ++ SLASH :: Name child) h'
      | None => None
      end
  end.

(** The real paths of all folders below the root, in the order
    [build_folder_cache] meets them. *)
Fixpoint folder_paths (root : Folder) (base : str) : list str :=
  match root with
  | MkFolder _ fs =>
      (fix each (fs : list Folder) : list str :=
         match fs with
         | [] => []
         | f :: rest =>
             let path := base ++ SLASH :: Name f in
             path :: folder_paths f path ++ each rest
         end) fs
  end.

(** Recording a list of real paths, one after the other. *)
Definition record_all (U : UnicodeData) (paths : list str) (kf : cache) : cache :=
  fold_left (fun kf path => <[normalize_name U path := path]> kf) paths kf.


(** ** The classification oracle *)

(** What [response.json()] gives back. *)
#[local] Unset Elimination Schemes.
Inductive JSON : Type :=
| JNull
| JBool (b : bool)
| JNumber (z : Z)          (* a number: its value plays no part here *)
| JString (s : str)
| JArray (items : list JSON)
| JObject (members : list (str * JSON)).
#[local] Set Elimination Schemes.

Record Response : Type := {
  status_code : Z;
  text : str;
  json : option JSON        (* nothing when the body is not JSON *)
}.

Inductive exception : Type :=
| RuntimeError (status : Z) (body : str)   (* "LLM API error {status}: {body}" *)
| ConnectionError
| JSONDecodeError
| KeyError
| IndexError
| TypeError
| AttributeError.

(** The exceptions that reading the body of a response can raise. *)
Definition lookup_error (e : exception) : Prop :=
  In e [JSONDecodeError; KeyError; IndexError; TypeError; AttributeError].

(** What one [requests.post] meets: no answer at all, or a response. *)
Inductive post_outcome : Type :=
| NoAnswer
| Answer (response : Response).

(** The service at [LMSTUDIO_URL]: what it does with the n-th request it
    is sent, and how many requests it has been sent so far. *)
Record Network : Type := {
  service : nat -> str -> post_outcome;
  posts : nat
}.

(** A value, or the exception raised instead. *)
Definition raising (A : Type) : Type := exception + A.

Definition bind {A B : Type} (x : raising A) (k : A -> raising B) : raising B :=
  match x with
  | inl e => inl e
  | inr a => k a
  end.

Notation "'let*' x := e 'in' k" := (bind e (fun x => k))
  (at level 10, x name, e at level 100, k at level 200).

(** [requests.post(LMSTUDIO_URL, json={..., "prompt": prompt, ...})] *)
Definition requests_post (prompt : str) (net : Network) : raising Response * Network :=
  let net' := {| service := service net; posts := S (posts net) |} in
  match service net (posts net) prompt with
  | NoAnswer => (inl ConnectionError, net')
  | Answer response => (inr response, net')
  end.

(** The last binding of a key, as [json] keeps it. *)
Fixpoint member (key : str) (members : list (str * JSON)) : option JSON :=
  match members with
  | [] => None
  | (k, v) :: rest =>
      match member key rest with
      | Some v' => Some v'
      | None => if bool_decide (k = key) then Some v else None
      end
  end.

(** [response.json()] *)
Definition response_json (response : Response) : raising JSON :=
  match json response with
  | Some v => inr v
  | None => inl JSONDecodeError
  end.

(** [v[key]] for a string [key] *)
Definition getitem (v : JSON) (key : str) : raising JSON :=
  match v with
  | JObject members =>
      match member key members with
      | Some x => inr x
      | None => inl KeyError
      end
  | _ => inl TypeError
  end.

(** [v[0]] *)
Definition getitem0 (v : JSON) : raising JSON :=
  match v with
  | JArray (x :: _) => inr x
  | JArray [] => inl IndexError
  | JString (c :: _) => inr (JString [c])
  | JString [] => inl IndexError
  | JObject _ => inl KeyError
  | _ => inl TypeError
  end.

(** The text of the first choice of a response,
    [result["choices"][0]["text"]], when there is one and it is a string. *)
Definition suggestion (response : Response) : option str :=
  match (let* result := response_json response in
         let* choices := getitem result (py "choices") in
         let* first := getitem0 choices in
         getitem first (py "text")) with
  | inr (JString s) => Some s
  | _ => None
  end.

Section Oracle.

Variable U : UnicodeData.

(** The mail fields [classify_email] is given. *)
Record Mail : Type := {
  subject : str;
  body : str;
  sender_name : str;
  sender_email : str;
  to : str;
  cc : str;
  attachments : list str;
  received_date : option str
}.

(** The prompt: an f-string over the mail fields, the cached real paths and
    the constants [PERSONAL_DETAILS] and [EXAMPLE_PROMPT] of [Secrets], which
    are not in the repository; building it is taken to succeed. *)
Variable make_prompt : Mail -> cache -> str.

(** [v.strip()] *)
Definition strip_method (v : JSON) : raising str :=
  match v with
  | JString s => inr (strip U s)
  | _ => inl AttributeError
  end.

Definition classify_email (mail : Mail) (known_folders : cache) (net : Network)
  : raising str * Network :=
  let prompt := make_prompt mail known_folders in
  let (posted, net) := requests_post prompt net in
  match posted with
  | inl e => (inl e, net)
  | inr response =>
      if (status_code response =? 200)%Z then
        (let* result := response_json response in
         let* choices := getitem result (py "choices") in
         let* first := getitem0 choices in
         let* text := getitem first (py "text") in
         let* folder := strip_method text in
         inr (match folder with [] => FALLBACK_PATH | _ => folder end),
         net)
      else (inl (RuntimeError (status_code response) (text response)), net)
  end.

End Oracle.

(** ** Sample data *)

Module Examples.

Definition ucd : UnicodeData := Fragment.ucd.

(** An inbox with an [Unsorted] folder and some orders. *)
Definition inbox : Folder :=
  MkFolder (py "Postvak In")
    [MkFolder (py "Unsorted") [];
     MkFolder (py "Orders") [MkFolder (py "Invoices") []]].

Definition empty_inbox : Folder := MkFolder (py "Postvak In") [].

(** Two folders whose names differ in case only. *)
Definition twin_inbox : Folder :=
  MkFolder (py "Postvak In") [MkFolder (py "a") []; MkFolder (py "A") []].

(** ["Postvak In"], U+FF0F FULLWIDTH SOLIDUS, ["A"]. *)
Definition fullwidth_path : str := py "Postvak In" ++ [65295] ++ py "A".


(** ["Orders\tInvoices"] *)
Definition tab_path : str := py "Orders" ++ [9] ++ py "Invoices".

(** A mail, a prompt and three services: one that answers 200 with an
    empty list of choices, one that answers 200 with a blank text, and one
    that answers 200 with a folder. *)
Definition mail : Mail := {|
  subject := py "Factuur"; body := py "Zie bijlage"; sender_name := py "Bol";
  sender_email := py "noreply at bol"; to := py "me"; cc := [];
  attachments := [py "factuur pdf"]; received_date := None
|}.

Definition make_prompt (mail : Mail) (known_folders : cache) : str :=
  py "Onderwerp: " ++ subject mail.

Definition answering (body : JSON) : Network := {|
  service := fun _ _ =>
    Answer {| status_code := 200; text := []; json := Some body |};
  posts := 0
|}.

Definition choice (text : str) : JSON :=
  JObject [(py "choices", JArray [JObject [(py "text", JString text)]])].

Definition no_choices : JSON := JObject [(py "choices", JArray [])].

End Examples.

(** * More of the script

    The rest of [Mail sorting.py] and what is said about it below: more
    about the resolver and the cache, the way [main] finds its source
    folder, the loading and the processing of the messages. *)

(** ** Notions about the tree and the cache *)

(** The tree a walk leaves behind. *)
Definition walk_tree (r : walk_result) : Folder :=
  match r with
  | Finished tree _ _ _ => tree
  | Abandoned tree _ => tree
  end.

(** No folder of the tree has two children of the same name. *)
Definition no_twins (tree : Folder) : Prop :=
  forall h, NoDup (children_names tree h).

(** The paths a walk builds up in [real_path], one per part. *)
Fixpoint cumulative_paths (real_path : str) (parts : list str) : list str :=
  match parts with
  | [] => []
  | part :: rest =>
      (real_path ++ SLASH :: part) :: cumulative_paths (real_path ++ SLASH :: part) rest
  end.

(** The last path of a list that has a given canonical key. *)
Fixpoint last_with_key (U : UnicodeData) (key : str) (paths : list str) : option str :=
  match paths with
  | [] => None
  | p :: rest =>
      match last_with_key U key rest with
      | Some q => Some q
      | None => if bool_decide (normalize_name U p = key) then Some p else None
      end
  end.

(** [no_twins], computed. *)
Fixpoint no_twins_b (tree : Folder) : bool :=
  match tree with
  | MkFolder _ fs =>
      bool_decide (NoDup (Name <$> fs))
      && (fix all (fs : list Folder) : bool :=
            match fs with
            | [] => true
            | f :: rest => no_twins_b f && all rest
            end) fs
  end.

(** No folder below the root has a slash in its name. *)
Definition slash_free (tree : Folder) : Prop :=
  forall h, Forall (fun name => ~ In SLASH name) (children_names tree h).

Fixpoint slash_free_b (tree : Folder) : bool :=
  match tree with
  | MkFolder _ fs =>
      (fix all (fs : list Folder) : bool :=
         match fs with
         | [] => true
         | f :: rest =>
             negb (existsb (N.eqb SLASH) (Name f)) && slash_free_b f && all rest
         end) fs
  end.

(** The names on the way down to a folder. *)
Fixpoint names_along (tree : Folder) (h : handle) : option (list str) :=
  match h with
  | [] => Some []
  | i :: h' =>
      match Folders tree !! i with
      | Some child => cons (Name child) <$> names_along child h'
      | None => None
      end
  end.

(** ** Finding the source folder *)

(** The loop of [get_folder_by_path]: every part of the path is looked
    for among the children of the folder reached so far; a part that names
    none of them is passed over. *)
Fixpoint stroll (tree : Folder) (folder : handle) (parts : list str) : handle :=
  match parts with
  | [] => folder
  | part :: rest =>
      stroll tree
        (match find_child tree folder part with
         | Some i => folder ++ [i]
         | None => folder
         end) rest
  end.

(** [get_folder_by_path(root, path)] of [main] *)
Definition get_folder_by_path (root : Folder) (path : str) : handle :=
  stroll root [] (split SLASH path).

(** ** Messages *)

(** An item of [source_folder.Items], as far as the script looks at it. *)
Record Item : Type := {
  ItemClass : Z;                  (* msg.Class *)
  ReceivedTime : option Z;        (* nothing: reading it raises *)
  Subject : option str;           (* nothing: the item has no such attribute *)
  Body : option str;              (* nothing: None *)
  SenderName : option str;
  SenderEmailAddress : option str;
  To : option str;
  CC : option str;
  Attachments : list str          (* att.FileName for att in mail.Attachments *)
}.

Definition MAIL_ITEM_CLASS : Z := 43.

(** What stops the processing of a message: an exception of the oracle
    call, or an error of Outlook. *)
Inductive failure : Type :=
| Raised (e : exception)
| com_error.

(** One call of [log_file.write]: the kind of line and what is put in it. *)
Inductive log_line : Type :=
| SUMMARY (found skipped : nat)
| SKIPPED_no_received_time (subject : str)
| SKIPPED_no_subject
| SORTED (subject folder_path : str)
| SKIPPED_not_a_mail_folder (subject folder_path : str)
| SKIPPED_error (subject : str) (e : failure).

(** [getattr(msg, 'Subject', 'No Subject')] *)
Definition subject_or_default (msg : Item) : str :=
  match Subject msg with
  | Some s => s
  | None => py "No Subject"
  end.

(** [x or ""] *)
Definition or_empty (x : option str) : str :=
  match x with
  | Some s => s
  | None => []
  end.

(** The item is a mail; its time can be read. *)
Definition is_mail (msg : Item) : bool := (ItemClass msg =? MAIL_ITEM_CLASS)%Z.

Definition has_time (msg : Item) : bool :=
  match ReceivedTime msg with Some _ => true | None => false end.

(** The loop of [load_messages] over [raw_messages]. *)
Fixpoint load_loop (raw_messages : list Item) (messages : list Item)
  (skipped : nat) (log : list log_line) : list Item * nat * list log_line :=
  match raw_messages with
  | [] => (messages, skipped, log)
  | msg :: rest =>
      match ReceivedTime msg with
      | Some _ => load_loop rest (messages ++ [msg]) skipped log
      | None =>
          load_loop rest messages (S skipped)
            (log ++ [SKIPPED_no_received_time (subject_or_default msg)])
      end
  end.

(** [load_messages(source_folder, log_file)], from the items of the folder
    and the log so far. *)
Definition load_messages (items : list Item) (log : list log_line)
  : list Item * nat * list log_line :=
  let raw_messages :=
    List.filter (fun msg => (ItemClass msg =? MAIL_ITEM_CLASS)%Z) items in
  load_loop raw_messages [] 0%nat log.

(** [messages.sort(key=lambda x: x.ReceivedTime, reverse=True)]: the latest
    first, messages of the same time in the order they had.  A loaded
    message has a time that can be read. *)
Definition received (msg : Item) : Z :=
  match ReceivedTime msg with
  | Some t => t
  | None => 0
  end.

Fixpoint insert_latest_first (msg : Item) (sorted : list Item) : list Item :=
  match sorted with
  | [] => [msg]
  | m :: rest =>
      if (received m <? received msg)%Z then msg :: m :: rest
      else m :: insert_latest_first msg rest
  end.

Definition sort_latest_first (messages : list Item) : list Item :=
  fold_left (fun sorted msg => insert_latest_first msg sorted) messages [].

(** [messages[:n]] *)
Definition slice_to (n : Z) (messages : list Item) : list Item :=
  if (0 <=? n)%Z then take (Z.to_nat n) messages
  else take (length messages - Z.to_nat (- n)) messages.

(** ** A run *)

(** What a run works on: the tree below the source folder, the cache, the
    service, the log file and the messages moved so far, with the folder
    each was moved to. *)
Record World : Type := {
  tree : Folder;
  known_folders : cache;
  net : Network;
  log : list log_line;
  moved : list (Item * handle)
}.

Section Run.

Variable U : UnicodeData.

(** The constants of [Secrets]. *)
Variable CREATE_NEW_FOLDERS : bool.
Variable SOURCE_FOLDER_PATH : str.
Variable NUM_EMAILS : Z.
Variable make_prompt : Mail -> cache -> str.

(** What Outlook answers: the text of a time, the type marker of a folder
    (nothing: the folder has no such attribute), and whether a move goes
    through. *)
Variable str_of_time : Z -> str.
Variable DefaultItemType : Folder -> handle -> option Z.
Variable Move_succeeds : Item -> Folder -> handle -> bool.

(** [process_message(mail, source_folder, log_file)].  The time of the mail
    is read when the arguments of [classify_email] are put together. *)
Definition process_message (mail : Item) (w : World) : (failure + unit) * World :=
  match ReceivedTime mail with
  | None => (inl com_error, w)
  | Some time =>
      let fields := {|
        subject := or_empty (Subject mail);
        body := or_empty (Body mail);
        sender_name := or_empty (SenderName mail);
        sender_email := or_empty (SenderEmailAddress mail);
        to := or_empty (To mail);
        cc := or_empty (CC mail);
        attachments := Attachments mail;
        received_date := Some (str_of_time time) |} in
      let (answer, net) := classify_email U make_prompt fields (known_folders w) (net w) in
      match answer with
      | inl e =>
          (inl (Raised e),
           {| tree := tree w; known_folders := known_folders w; net := net;
              log := log w; moved := moved w |})
      | inr folder_path =>
          let folder_path := clean_folder_path U folder_path in
          let folder_path :=
            if negb CREATE_NEW_FOLDERS then SOURCE_FOLDER_PATH ++ py "/Unsorted"
            else folder_path in
          let '(tree, known_folders, target_folder) :=
            get_or_create_folder U CREATE_NEW_FOLDERS (tree w) (known_folders w)
              folder_path in
          match DefaultItemType tree target_folder with
          | Some 0%Z =>
              if Move_succeeds mail tree target_folder then
                (inr tt,
                 {| tree := tree; known_folders := known_folders; net := net;
                    log := log w ++ [SORTED (subject fields) folder_path];
                    moved := moved w ++ [(mail, target_folder)] |})
              else
                (inl com_error,
                 {| tree := tree; known_folders := known_folders; net := net;
                    log := log w; moved := moved w |})
          | _ =>
              (inr tt,
               {| tree := tree; known_folders := known_folders; net := net;
                  log := log w
                         ++ [SKIPPED_not_a_mail_folder (subject fields) folder_path];
                  moved := moved w |})
          end
      end
  end.

Definition write (line : log_line) (w : World) : World :=
  {| tree := tree w; known_folders := known_folders w; net := net w;
     log := log w ++ [line]; moved := moved w |}.

(** One turn of the loop of [main] over the messages. *)
Definition sort_one (mail : Item) (w : World) : World :=
  match Subject mail with
  | None => write SKIPPED_no_subject w
  | Some _ =>
      match process_message mail w with
      | (inr _, w) => w
      | (inl e, w) => write (SKIPPED_error (subject_or_default mail) e) w
      end
  end.

Definition sort_emails (messages : list Item) (w : World) : World :=
  fold_left (fun w mail => sort_one mail w) messages w.

(** [main], once the source folder is found: its sub-folders are [source],
    its items [items]; the cache is empty and nothing is logged or moved
    yet.  The progress bar is left out. *)
Definition main (source : Folder) (items : list Item) (service0 : Network) : World :=
  let known_folders := build_folder_cache U source (py "Postvak In") ∅ in
  let '(messages, skipped, log) := load_messages items [] in
  let log := log ++ [SUMMARY (length messages) skipped] in
  let messages := sort_latest_first messages in
  let messages := slice_to NUM_EMAILS messages in
  sort_emails messages
    {| tree := source; known_folders := known_folders; net := service0;
       log := log; moved := [] |}.

End Run.

(** The same world with another service. *)
Definition with_net (w : World) (n : Network) : World :=
  {| tree := tree w; known_folders := known_folders w; net := n;
     log := log w; moved := moved w |}.

(** [t'] has every folder of [t] where it was, under its name. *)
Definition grows (t t' : Folder) : Prop :=
  extends t t' /\ Name t' = Name t.

(** The time order of the sorted messages: the later one first. *)
Definition not_later (a b : Item) : Prop := (received b <= received a)%Z.

(** The item has a [Subject] attribute. *)
Definition has_subject (msg : Item) : bool :=
  match Subject msg with Some _ => true | None => false end.

(** The messages [main] processes: those loaded, the latest first, cut to
    [NUM_EMAILS]. *)
Definition chosen_messages (NUM_EMAILS : Z) (items : list Item) : list Item :=
  slice_to NUM_EMAILS (sort_latest_first (load_messages items []).1.1).

(** What holds from one turn of the loop of [main] to the next: one line
    more in the log, [requests] requests more sent, the tree and the cache
    as they were or one call of the resolver further. *)
Record turn (U : UnicodeData) (create : bool) (requests : nat) (w w' : World)
  : Prop := {
  turn_log : exists lines, log w' = log w ++ lines /\ length lines = 1%nat;
  turn_posts : posts (net w') = (posts (net w) + requests)%nat;
  turn_state :
    (tree w', known_folders w') = (tree w, known_folders w)
    \/ Step U create (tree w, known_folders w) (tree w', known_folders w');
  turn_grows : grows (tree w) (tree w');
  turn_twins : no_twins (tree w) -> no_twins (tree w');
  turn_same : create = false -> tree w' = tree w
}.

(** ** Text the script builds *)

Definition NL : str := [10].

(** [sep.join(parts)] *)
Fixpoint join (sep : str) (parts : list str) : str :=
  match parts with
  | [] => []
  | [p] => p
  | p :: rest => p ++ sep ++ join sep rest
  end.

(** [str(n)] for a count. *)
Fixpoint digits (d : Decimal.uint) : str :=
  match d with
  | Decimal.Nil => []
  | Decimal.D0 d => 48 :: digits d
  | Decimal.D1 d => 49 :: digits d
  | Decimal.D2 d => 50 :: digits d
  | Decimal.D3 d => 51 :: digits d
  | Decimal.D4 d => 52 :: digits d
  | Decimal.D5 d => 53 :: digits d
  | Decimal.D6 d => 54 :: digits d
  | Decimal.D7 d => 55 :: digits d
  | Decimal.D8 d => 56 :: digits d
  | Decimal.D9 d => 57 :: digits d
  end.

Definition str_of_nat (n : nat) : str := digits (Nat.to_uint n).

(** The order of Python on strings: code point by code point. *)
Fixpoint str_le (a b : str) : bool :=
  match a with
  | [] => true
  | x :: a' =>
      match b with
      | [] => false
      | y :: b' =>
          if x <? y then true
          else if y <? x then false
          else str_le a' b'
      end
  end.

(** [sorted(set(values))] *)
Fixpoint insert_sorted (x : str) (sorted : list str) : list str :=
  match sorted with
  | [] => [x]
  | y :: rest =>
      if bool_decide (x = y) then sorted
      else if str_le x y then x :: sorted
      else y :: insert_sorted x rest
  end.

Definition sorted_set (values : list str) : list str :=
  fold_left (fun sorted x => insert_sorted x sorted) values [].

(** ** The prompt of [classify_email] *)

(** [extract_useful_metadata(raw_metadata)], for the only kind of argument
    the script gives it: a list of strings.  [x in raw_metadata] then asks
    whether the list has that very string, and [raw_metadata[x]], with a
    string for an index, raises [TypeError]. *)
Definition extract_useful_metadata (raw_metadata : list str) : raising str :=
  let* useful1 :=
    if bool_decide (py "attachment_names" ∈ raw_metadata)
    then inl TypeError else inr [] in
  let* useful2 :=
    if bool_decide (py "from_domain" ∈ raw_metadata)
    then inl TypeError else inr useful1 in
  let* useful3 :=
    if bool_decide (py "labels" ∈ raw_metadata)
    then inl TypeError else inr useful2 in
  inr (join NL useful3).

(** [attachments_info] *)
Definition attachments_info (attachments : list str) : str :=
  match attachments with
  | [] => py "None"
  | _ => join (py ", ") attachments
  end.

(** The list [metadata] that [classify_email] puts together. *)
Definition metadata_of (received_date : option str) (attachments : list str)
  : list str :=
  (match received_date with
   | Some (c :: d) => [py "Ontvangen datum: " ++ c :: d]
   | _ => []
   end)
  ++ [py "Aantal bijlagen: " ++ str_of_nat (length attachments)]
  ++ (match attachments with
      | [] => []
      | _ => [py "Bijlagen namen/types: " ++ attachments_info attachments]
      end).

Section Prompt.

(** The constants of [Secrets]; [EXAMPLE_PROMPT.format] is taken to
    succeed. *)
Variable PERSONAL_DETAILS : str.
Variable EXAMPLE_PROMPT_format : str -> str.

(** The prompt of [classify_email], or the exception raised while it is
    put together. *)
Definition build_prompt (mail : Mail) (known_folders : cache) : raising str :=
  let existing_folders_list :=
    join NL (sorted_set (snd <$> map_to_list known_folders)) in
  let metadata := metadata_of (received_date mail) (attachments mail) in
  let* useful := extract_useful_metadata metadata in
  inr (py "Je bent een e-mail sorteerassistent. " ++ PERSONAL_DETAILS ++ NL
       ++ EXAMPLE_PROMPT_format existing_folders_list
       ++ NL ++ py "E-mail details:" ++ NL
       ++ py "Onderwerp: " ++ subject mail ++ NL
       ++ py "Afzender: " ++ sender_name mail ++ py " <" ++ sender_email mail
       ++ py ">" ++ NL
       ++ py "Aan: " ++ to mail ++ NL
       ++ py "CC: " ++ cc mail ++ NL
       ++ useful ++ NL
       ++ py "Inhoud: " ++ take 1000 (body mail) ++ NL
       ++ NL ++ py "Folder:" ++ NL
       ++ py "Geef alleen het folderpad terug, zonder extra uitleg." ++ NL).

End Prompt.

(** ** The validation of the earlier revisions

    The two earlier copies of the script validate the suggestion in the
    loop of [main].  They differ from [clean_folder_path] in two places:
    the pattern of [re.sub] is written [r"\\s+"], a backslash followed by
    letters s, and the test of the root prefix is part of the rejection. *)

(** [re.sub(r"\\s+", " ", s)]: a backslash with the letters s after it
    becomes one space.  [in_run] tells that such letters are being passed
    over. *)
Fixpoint sub_backslash_s_from (in_run : bool) (s : str) : str :=
  match s with
  | [] => []
  | c :: s' =>
      if in_run && (c =? 115) then sub_backslash_s_from true s'
      else if (c =? 92) && match s' with 115 :: _ => true | _ => false end
           then 32 :: sub_backslash_s_from true s'
           else c :: sub_backslash_s_from false s'
  end.

Definition sub_backslash_s (s : str) : str := sub_backslash_s_from false s.

Definition clean_path_inline (U : UnicodeData) (folder_path : str) : str :=
  let clean_path := strip U folder_path in
  let clean_path := sub_backslash_s clean_path in
  let clean_path := prepend_root U clean_path in
  if negb (startswith (lower U clean_path) (py "postvak in/"))
     || existsb (fun p => Re.search p (lower U clean_path)) FORBIDDEN_PATTERNS
  then FALLBACK_PATH
  else clean_path.

(** ** [ask_pdf] *)

(** What one page adds to [pdf_text]: nothing when no text comes out of
    it. *)
Definition page_block (page_number : nat) (page_text : option str) : str :=
  match page_text with
  | Some (c :: t) =>
      py "--- Page " ++ str_of_nat page_number ++ py " ---" ++ NL ++ (c :: t) ++ NL
  | _ => []
  end.

(** The loop over [enumerate(pdf.pages, start=...)]. *)
Fixpoint pdf_text_from (page_number : nat) (pages : list (option str))
  (pdf_text : str) : str :=
  match pages with
  | [] => pdf_text
  | page_text :: rest =>
      pdf_text_from (S page_number) rest (pdf_text ++ page_block page_number page_text)
  end.

Definition TEXT_LIMIT : N := 15000.

Definition truncated (pdf_text : str) : str :=
  if TEXT_LIMIT <? N.of_nat (length pdf_text)
  then take (N.to_nat TEXT_LIMIT) pdf_text ++ NL ++ py "...[truncated]..." ++ NL
  else pdf_text.

Definition pdf_prompt (question : str) (pages : list (option str)) : str :=
  let pdf_text := truncated (pdf_text_from 1 pages []) in
  py "Document content:" ++ NL ++ pdf_text ++ NL ++ NL
  ++ py "Question: " ++ question ++ NL ++ py "Answer:".

(** [ask_pdf(question, pdf_path)], from the texts of the pages of the
    file.  The error of a status other than 200 is a [RuntimeError] here
    too, with another wording. *)
Definition ask_pdf (question : str) (pages : list (option str)) (net : Network)
  : raising JSON * Network :=
  let prompt := pdf_prompt question pages in
  let (posted, net) := requests_post prompt net in
  match posted with
  | inl e => (inl e, net)
  | inr response =>
      if (status_code response =? 200)%Z then
        (let* result := response_json response in
         let* choices := getitem result (py "choices") in
         let* first := getitem0 choices in
         getitem first (py "text"),
         net)
      else (inl (RuntimeError (status_code response) (text response)), net)
  end.

(** ** Notions about validated paths *)

(** Every white-space code point of a string is a space, and no two of
    them are neighbours.  [after_space] tells that a white-space code point
    comes just before the string. *)
Fixpoint single_spaced (U : UnicodeData) (after_space : bool) (s : str) : bool :=
  match s with
  | [] => true
  | c :: s' =>
      if isspace U c
      then (c =? 32) && negb after_space && single_spaced U true s'
      else single_spaced U false s'
  end.

(** A space is neither first nor last nor follows a space.  [prev_space]
    tells that a space, or the start of the string, comes just before. *)
Fixpoint spaces_inside (prev_space : bool) (w : str) : bool :=
  match w with
  | [] => negb prev_space
  | c :: w' =>
      if c =? 32 then negb prev_space && spaces_inside true w'
      else spaces_inside false w'
  end.

Definition spaces_ok (w : str) : bool :=
  match w with
  | [] => true
  | _ => spaces_inside true w
  end.

(** ** Notions about patterns *)

(** No string matches the pattern, as far as its shape tells. *)
Fixpoint dead (r : Re.regex) : bool :=
  match r with
  | Re.Void => true
  | Re.Eps => false
  | Re.Class _ => false
  | Re.Cat r1 r2 => dead r1 || dead r2
  | Re.Alt r1 r2 => dead r1 && dead r2
  | Re.Star _ => false
  end.

Definition derivs (cs : str) (r : Re.regex) : Re.regex :=
  fold_left (fun r c => Re.deriv c r) cs r.

(** No match of [r] begins inside [cs] when [cs] is followed by whatever
    string. *)
Fixpoint dead_on (r : Re.regex) (cs : str) : bool :=
  match cs with
  | [] => true
  | _ :: cs' => negb (Re.match_prefix r cs) && dead (derivs cs r) && dead_on r cs'
  end.

(** ** The paths the resolver is given *)

(** The path [process_message] hands to [get_or_create_folder] for an
    answer of the oracle: the validated answer, or the [Unsorted] folder of
    the source when folders are not to be created. *)
Definition path_of_answer (U : UnicodeData) (CREATE_NEW_FOLDERS : bool)
  (SOURCE_FOLDER_PATH : str) (answer : str) :=
  let folder_path := clean_folder_path U answer in
  let folder_path :=
    if negb CREATE_NEW_FOLDERS then SOURCE_FOLDER_PATH ++ py "/Unsorted"
    else folder_path in
  folder_path.

(** Calls of the resolver one after the other, each on the tree and the
    cache the one before has left. *)
Definition resolve_all (U : UnicodeData) (CREATE_NEW_FOLDERS : bool)
  (paths : list str) (state : Folder * cache) : Folder * cache :=
  fold_left
    (fun st folder_path =>
       (get_or_create_folder U CREATE_NEW_FOLDERS st.1 st.2 folder_path).1)
    paths state.

(** * Facts about the embedding *)

(** ** Strings *)

Lemma startswith_app (s p : str) :
  startswith s p = true <-> exists t, s = p ++ t.
Proof.
  revert s; induction p as [|a p IH]; intros s; simpl.
  - split; [intros _; exists s; reflexivity | reflexivity].
  - destruct s as [|b s].
    + split; [discriminate | intros [t Ht]; discriminate].
    + rewrite andb_true_iff, N.eqb_eq, IH. split.
      * intros [-> [t ->]]. exists t; reflexivity.
      * intros [t Ht]. injection Ht as -> ->. split; [reflexivity | exists t; reflexivity].
Qed.

Lemma split_nonempty (sep : N) (s : str) : split sep s <> [].
Proof.
  induction s as [|c s IH]; simpl; [discriminate|].
  destruct (c =? sep); [discriminate|].
  destruct (split sep s); discriminate.
Qed.

Lemma join_after_app (sep : N) (acc : str) (parts : list str) :
  join_after sep acc parts = acc ++ join_after sep [] parts.
Proof.
  revert acc; induction parts as [|p rest IH]; intros acc; simpl.
  - rewrite app_nil_r; reflexivity.
  - rewrite (IH (acc ++ sep :: p)), (IH (sep :: p)).
    rewrite <- app_assoc. reflexivity.
Qed.

Lemma split_join (sep : N) (s : str) :
  match split sep s with
  | [] => False
  | p0 :: rest => join_after sep p0 rest = s
  end.
Proof.
  induction s as [|c s IH]; simpl; [reflexivity|].
  destruct (c =? sep) eqn:E.
  - apply N.eqb_eq in E; subst c.
    destruct (split sep s) as [|p0 rest]; [contradiction|].
    simpl. rewrite join_after_app. simpl.
    rewrite join_after_app in IH. rewrite <- IH. reflexivity.
  - destruct (split sep s) as [|p0 rest]; [contradiction|].
    rewrite join_after_app. rewrite join_after_app in IH.
    simpl. rewrite IH. reflexivity.
Qed.

(** A part of a split never holds the separator, and a string without the
    separator is its own single part. *)
Lemma split_no_sep (sep : N) (s : str) :
  ~ In sep s -> split sep s = [s].
Proof.
  induction s as [|c s IH]; simpl; intros H; [reflexivity|].
  destruct (c =? sep) eqn:E.
  - apply N.eqb_eq in E. exfalso; apply H; left; exact E.
  - rewrite IH; [reflexivity | intros Hin; apply H; right; exact Hin].
Qed.

Lemma split_single (sep : N) (s p : str) :
  split sep s = [p] -> ~ In sep s.
Proof.
  revert p; induction s as [|c s IH]; simpl; intros p Hs; [intros []|].
  destruct (c =? sep) eqn:E.
  - pose proof (split_nonempty sep s). destruct (split sep s); [contradiction | discriminate].
  - destruct (split sep s) as [|h t] eqn:Es; [exfalso; eapply split_nonempty; eassumption|].
    injection Hs as _ ->. intros [Hc | Hin].
    + subst c. rewrite N.eqb_refl in E. discriminate.
    + exact (IH h eq_refl Hin).
Qed.


(** ** The database fragment *)

Lemma ucd_ascii : AsciiCompatible Fragment.ucd.
Proof.
  split; simpl.
  - intros s Hs. induction Hs as [|c s Hc _ IH]; simpl; [reflexivity|].
    rewrite IH. unfold Fragment.decompose.
    repeat match goal with
           | |- context [c =? ?k] => destruct (N.eqb_spec c k); [lia|]
           end.
    reflexivity.
  - intros c Hc. unfold Fragment.ccc. destruct (N.eqb_spec c 769); [lia | reflexivity].
  - intros c Hc. unfold Fragment.space. destruct (N.eqb_spec c 160); [lia|].
    apply orb_false_r.
  - intros c Hc. unfold Fragment.to_lower. destruct (N.ltb_spec c 128); [reflexivity | lia].
Qed.


(** ** The matcher agrees with the meaning of patterns *)

Lemma nullable_spec (r : regex) : nullable r = true <-> matches r [].
Proof.
  induction r as [| |p|r1 IH1 r2 IH2|r1 IH1 r2 IH2|r IH]; simpl.
  - split; [discriminate | intros H; inversion H].
  - split; [intros _; constructor | reflexivity].
  - split; [discriminate | intros H; inversion H].
  - rewrite andb_true_iff, IH1, IH2. split.
    + intros [H1 H2]. exact (MCat _ _ [] [] H1 H2).
    + intros H. inversion H as [| |r1' r2' s1 s2 H1 H2 Hr Hs| | | |]; subst.
      apply app_eq_nil in Hs as [-> ->]. split; assumption.
  - rewrite orb_true_iff, IH1, IH2. split.
    + intros [H|H]; [apply MAltL | apply MAltR]; exact H.
    + intros H; inversion H; subst; [left | right]; assumption.
  - split; [intros _; constructor | reflexivity].
Qed.

Lemma star_cons (r : regex) (c : N) (s : str) :
  matches (Star r) (c :: s) ->
  exists s1 s2, s = s1 ++ s2 /\ matches r (c :: s1) /\ matches (Star r) s2.
Proof.
  intros H. remember (Star r) as r' eqn:Er. remember (c :: s) as w eqn:Ew.
  revert s Ew.
  induction H as [| | | | | |r0 s1 s2 H1 _ H2 IH2]; intros t Ew; try discriminate.
  injection Er as ->.
  destruct s1 as [|c1 s1]; simpl in Ew.
  - exact (IH2 eq_refl t Ew).
  - injection Ew as -> <-. exists s1, s2. repeat split; assumption.
Qed.

Lemma deriv_spec (c : N) (r : regex) (s : str) :
  matches (deriv c r) s <-> matches r (c :: s).
Proof.
  revert s; induction r as [| |p|r1 IH1 r2 IH2|r1 IH1 r2 IH2|r IH]; intros s; simpl.
  - split; intros H; inversion H.
  - split; intros H; inversion H.
  - destruct (p c) eqn:Ep; split; intros H; inversion H; subst.
    + constructor; exact Ep.
    + constructor.
    + congruence.
  - assert (Hcat : matches (Cat (deriv c r1) r2) s <->
                   exists s1 s2, s = s1 ++ s2 /\ matches r1 (c :: s1) /\ matches r2 s2).
    { split.
      - intros H; inversion H as [| |? ? s1 s2 H1 H2| | | |]; subst.
        apply IH1 in H1. eauto.
      - intros (s1 & s2 & -> & H1 & H2). constructor; [apply IH1|]; assumption. }
    assert (Hsplit : matches (Cat r1 r2) (c :: s) <->
                     (exists s1 s2, s = s1 ++ s2 /\ matches r1 (c :: s1) /\ matches r2 s2)
                     \/ (matches r1 [] /\ matches r2 (c :: s))).
    { split.
      - intros H. inversion H as [| |r1' r2' s1 s2 H1 H2 Hr Hs| | | |]; subst.
        destruct s1 as [|c1 s1]; simpl in Hs.
        + right. subst s2. split; assumption.
        + injection Hs as -> <-. left. eauto.
      - intros [(s1 & s2 & -> & H1 & H2) | [H1 H2]].
        + exact (MCat _ _ (c :: s1) s2 H1 H2).
        + exact (MCat _ _ [] (c :: s) H1 H2). }
    rewrite Hsplit. destruct (nullable r1) eqn:En.
    + apply nullable_spec in En. split.
      * intros H; inversion H; subst; [left; apply Hcat | right; split; [|apply IH2]]; assumption.
      * intros [H | [_ H]]; [apply MAltL, Hcat | apply MAltR, IH2]; assumption.
    + rewrite Hcat. split; [intros H; left; exact H|].
      intros [H | [H _]]; [exact H|].
      apply nullable_spec in H. congruence.
  - split; intros H; inversion H; subst.
    + apply MAltL, IH1; assumption.
    + apply MAltR, IH2; assumption.
    + apply MAltL, IH1; assumption.
    + apply MAltR, IH2; assumption.
  - split.
    + intros H; inversion H as [| |? ? s1 s2 H1 H2| | | |]; subst. apply IH in H1.
      exact (MStarApp _ (c :: s1) s2 H1 H2).
    + intros H. apply star_cons in H as (s1 & s2 & -> & H1 & H2).
      constructor; [apply IH|]; assumption.
Qed.

Lemma match_prefix_spec (r : regex) (s : str) :
  match_prefix r s = true <-> exists s1 s2, s = s1 ++ s2 /\ matches r s1.
Proof.
  revert r; induction s as [|c s IH]; intros r; simpl.
  - rewrite orb_false_r, nullable_spec. split.
    + intros H. exists [], []. split; [reflexivity | exact H].
    + intros (s1 & s2 & Hs & H). symmetry in Hs.
      apply app_eq_nil in Hs as [-> _]. exact H.
  - rewrite orb_true_iff, nullable_spec, IH. split.
    + intros [H | (s1 & s2 & -> & H)].
      * exists [], (c :: s). split; [reflexivity | exact H].
      * exists (c :: s1), s2. split; [reflexivity | apply deriv_spec; exact H].
    + intros (s1 & s2 & Hs & H). destruct s1 as [|c1 s1]; simpl in Hs.
      * left; exact H.
      * injection Hs as -> ->. right. exists s1, s2.
        split; [reflexivity | apply deriv_spec; exact H].
Qed.

Lemma search_spec (r : regex) (s : str) :
  search r s = true <->
  exists pre mid post, s = pre ++ mid ++ post /\ matches r mid.
Proof.
  induction s as [|c s IH]; simpl.
  - rewrite !orb_false_r, nullable_spec. split.
    + intros H. exists [], [], []. split; [reflexivity | exact H].
    + intros (pre & mid & post & Hs & H). symmetry in Hs.
      apply app_eq_nil in Hs as [_ Hs]. apply app_eq_nil in Hs as [-> _]. exact H.
  - rewrite orb_true_iff, IH.
    change (nullable r || match_prefix (deriv c r) s) with (match_prefix r (c :: s)).
    rewrite match_prefix_spec. split.
    + intros [(s1 & s2 & Hs & H) | (pre & mid & post & -> & H)].
      * exists [], s1, s2. split; [exact Hs | exact H].
      * exists (c :: pre), mid, post. split; [reflexivity | exact H].
    + intros (pre & mid & post & Hs & H). destruct pre as [|c1 pre]; simpl in Hs.
      * left. exists mid, post. split; assumption.
      * injection Hs as -> ->. right. exists pre, mid, post.
        split; [reflexivity | exact H].
Qed.

(** Searching for one character class is looking for one such character. *)
Lemma match_prefix_Void (s : str) : match_prefix Void s = false.
Proof. induction s as [|c s IH]; simpl; [reflexivity | exact IH]. Qed.

Lemma search_Class (p : N -> bool) (s : str) :
  search (Class p) s = existsb p s.
Proof.
  induction s as [|c s IH]; simpl; [reflexivity|].
  rewrite IH. destruct (p c); simpl.
  - destruct s; reflexivity.
  - rewrite match_prefix_Void. reflexivity.
Qed.


(** ** The folder tree *)

(** Induction over the tree with the hypothesis for every sub-folder. *)
Lemma Folder_rect' (P : Folder -> Prop) :
  (forall name fs, Forall P fs -> P (MkFolder name fs)) ->
  forall f, P f.
Proof.
  intros step. fix self 1. intros [name fs]. apply step.
  induction fs as [|f fs IH]; constructor; [apply self | exact IH].
Qed.

Lemma first_named_index_of (part : str) (fs : list Folder) :
  first_named part fs = index_of part (Name <$> fs).
Proof.
  induction fs as [|f fs IH]; simpl; [reflexivity|].
  rewrite IH. reflexivity.
Qed.

Lemma find_child_names (tree : Folder) (h : handle) (part : str) :
  find_child tree h part = index_of part (children_names tree h).
Proof.
  unfold find_child, children_names.
  destruct (subfolder tree h); [apply first_named_index_of | reflexivity].
Qed.

Lemma index_of_lt (part : str) (names : list str) (i : nat) :
  index_of part names = Some i -> (i < length names)%nat.
Proof.
  revert i; induction names as [|n names IH]; simpl; intros i; [discriminate|].
  case_bool_decide.
  - intros [= <-]. lia.
  - destruct (index_of part names) as [j|]; simpl; [|discriminate].
    intros [= <-]. specialize (IH j eq_refl). lia.
Qed.

Lemma index_of_app_l (part : str) (names more : list str) (i : nat) :
  index_of part names = Some i -> index_of part (names ++ more) = Some i.
Proof.
  revert i; induction names as [|n names IH]; simpl; intros i; [discriminate|].
  case_bool_decide; [trivial|].
  destruct (index_of part names) as [j|]; simpl; [|discriminate].
  intros [= <-]. rewrite (IH j eq_refl). reflexivity.
Qed.

Lemma index_of_snoc_new (part : str) (names : list str) :
  index_of part names = None ->
  index_of part (names ++ [part]) = Some (length names).
Proof.
  induction names as [|n names IH]; simpl.
  - intros _. rewrite bool_decide_eq_true_2; reflexivity.
  - case_bool_decide; [discriminate|].
    destruct (index_of part names); simpl; [discriminate|].
    intros _. rewrite IH; reflexivity.
Qed.

Lemma index_of_prefix (part : str) (names names' : list str) (i : nat) :
  names `prefix_of` names' ->
  index_of part names = Some i -> index_of part names' = Some i.
Proof. intros [more ->]. apply index_of_app_l. Qed.

Lemma extends_refl (t : Folder) : extends t t.
Proof. intros h. reflexivity. Qed.

Lemma extends_trans (t1 t2 t3 : Folder) :
  extends t1 t2 -> extends t2 t3 -> extends t1 t3.
Proof. intros H12 H23 h. etransitivity; [apply H12 | apply H23]. Qed.

Lemma Name_alter_at (g : Folder -> Folder) (h : handle) (t : Folder) :
  (forall f, Name (g f) = Name f) -> Name (alter_at g h t) = Name t.
Proof. intros Hg. destruct h; simpl; [apply Hg | reflexivity]. Qed.

Lemma names_alter (g : Folder -> Folder) (i : nat) (fs : list Folder) :
  (forall f, Name (g f) = Name f) -> Name <$> alter g i fs = Name <$> fs.
Proof.
  intros Hg. revert i; induction fs as [|f fs IH]; intros [|i]; simpl;
    try reflexivity.
  - rewrite Hg. reflexivity.
  - f_equal. apply IH.
Qed.

Lemma children_names_cons (t : Folder) (i : nat) (h : handle) :
  children_names t (i :: h) =
  match Folders t !! i with
  | Some child => children_names child h
  | None => []
  end.
Proof. unfold children_names; simpl. destruct (Folders t !! i); reflexivity. Qed.

Lemma append_child_extends (part : str) (pos : handle) (t : Folder) :
  extends t (alter_at (append_child part) pos t).
Proof.
  revert t; induction pos as [|i pos IH]; intros t h; simpl.
  - destruct h as [|j h].
    + unfold children_names; simpl. rewrite fmap_app. apply prefix_app_r. reflexivity.
    + rewrite !children_names_cons; simpl.
      destruct (Folders t !! j) as [child|] eqn:E.
      * rewrite (lookup_app_l_Some _ _ _ _ E). reflexivity.
      * apply prefix_nil.
  - destruct h as [|j h].
    + unfold children_names; simpl.
      rewrite names_alter; [reflexivity|].
      intros f. apply Name_alter_at. reflexivity.
    + rewrite !children_names_cons; simpl.
      destruct (decide (i = j)) as [<-|Hne].
      * rewrite list_lookup_alter_eq.
        destruct (Folders t !! i) as [child|]; simpl; [apply IH | reflexivity].
      * rewrite list_lookup_alter_ne by exact Hne. reflexivity.
Qed.

Lemma append_child_names (part : str) (pos : handle) (t : Folder) :
  is_Some (subfolder t pos) ->
  children_names (alter_at (append_child part) pos t) pos
  = children_names t pos ++ [part].
Proof.
  revert t; induction pos as [|i pos IH]; intros t Hv; simpl.
  - unfold children_names; simpl. rewrite fmap_app. reflexivity.
  - rewrite !children_names_cons; simpl. rewrite list_lookup_alter_eq.
    simpl in Hv. destruct (Folders t !! i) as [child|]; simpl.
    + apply IH, Hv.
    + destruct Hv as [? [=]].
Qed.

(** A handle is valid when it points at a folder. *)
Lemma subfolder_snoc (t : Folder) (h : handle) (i : nat) :
  is_Some (subfolder t (h ++ [i])) <->
  is_Some (subfolder t h) /\ (i < length (children_names t h))%nat.
Proof.
  revert t; induction h as [|j h IH]; intros t; simpl.
  - unfold children_names; simpl. rewrite length_fmap, <- lookup_lt_is_Some.
    destruct (Folders t !! i); simpl; split.
    + intros _; split; eauto.
    + intros _; eauto.
    + intros [? [=]].
    + intros [_ [? [=]]].
  - rewrite children_names_cons.
    destruct (Folders t !! j) as [child|]; [apply IH|].
    simpl. split; [intros [? [=]] | intros [[? [=]] _]].
Qed.

Lemma extends_valid (t t' : Folder) (h : handle) :
  extends t t' -> is_Some (subfolder t h) -> is_Some (subfolder t' h).
Proof.
  intros Hext. induction h as [|i h IH] using rev_ind; [simpl; eauto|].
  rewrite !subfolder_snoc. intros [Hv Hi]. split; [apply IH, Hv|].
  pose proof (prefix_length _ _ (Hext h)). lia.
Qed.


(** ** The walk of the resolver *)

Section WalkFacts.

Variable U : UnicodeData.
Variable CREATE_NEW_FOLDERS : bool.

#[local] Abbreviation walk := (walk U CREATE_NEW_FOLDERS).
#[local] Abbreviation normalize := (normalize_name U).

Lemma consistent_empty : cache_consistent U ∅.
Proof. intros key real H. rewrite lookup_empty in H. discriminate. Qed.

Lemma consistent_insert (kf : cache) (real : str) :
  cache_consistent U kf -> cache_consistent U (<[normalize real := real]> kf).
Proof.
  intros Hc key real' H. destruct (decide (normalize real = key)) as [<-|Hne].
  - rewrite lookup_insert_eq in H. injection H as <-. reflexivity.
  - rewrite lookup_insert_ne in H by exact Hne. exact (Hc _ _ H).
Qed.

Lemma insert_keeps_keys (kf : cache) (k key real : str) :
  is_Some (kf !! k) -> is_Some (<[key := real]> kf !! k).
Proof. intros H. rewrite lookup_insert_is_Some. destruct (decide (key = k)); auto. Qed.

(** The cache only gains entries in a walk, each under its own key. *)
Lemma walk_cache_grows (parts : list str) (tree : Folder) (kf : cache)
    (folder : handle) (rp : str) :
  cache_consistent U kf ->
  cache_consistent U (walk_cache (walk parts tree kf folder rp))
  /\ forall k, is_Some (kf !! k) ->
               is_Some (walk_cache (walk parts tree kf folder rp) !! k).
Proof.
  revert tree kf folder rp; induction parts as [|part rest IH];
    intros tree kf folder rp Hc; simpl.
  - split; [exact Hc | auto].
  - destruct (enter CREATE_NEW_FOLDERS tree folder part) as [[tree' sub]|]; simpl.
    + destruct (IH tree' (<[normalize (rp ++ SLASH :: part) := rp ++ SLASH :: part]> kf)
                  sub (rp ++ SLASH :: part)) as [H1 H2].
      { apply consistent_insert, Hc. }
      split; [exact H1|]. intros k Hk. apply H2, insert_keeps_keys, Hk.
    + split; [exact Hc | auto].
Qed.

(** A walk that finishes has rebuilt the path it walked, and the last thing
    it did was to record that path. *)
Lemma walk_finished_path (parts : list str) (tree : Folder) (kf : cache)
    (folder : handle) (rp : str) (tree' : Folder) (kf' : cache)
    (node : handle) (rp' : str) :
  walk parts tree kf folder rp = Finished tree' kf' node rp' ->
  rp' = join_after SLASH rp parts
  /\ (parts <> [] -> kf' !! normalize rp' = Some rp').
Proof.
  revert tree kf folder rp; induction parts as [|part rest IH];
    intros tree kf folder rp; simpl.
  - intros [= <- <- <- <-]. split; [reflexivity | congruence].
  - destruct (enter CREATE_NEW_FOLDERS tree folder part) as [[tree1 sub]|]; [|discriminate].
    intros Hw. destruct rest as [|part2 rest].
    + simpl in Hw. injection Hw as <- <- <- <-. split; [reflexivity|].
      intros _. apply lookup_insert_eq.
    + destruct (IH _ _ _ _ Hw) as [-> Hrec]. split; [reflexivity|].
      intros _. apply Hrec. discriminate.
Qed.

(** *** Creation allowed: a walk finishes, and walking again changes nothing *)

Lemma enter_found (tree : Folder) (folder : handle) (part : str) (i : nat) :
  find_child tree folder part = Some i ->
  enter CREATE_NEW_FOLDERS tree folder part = Some (tree, folder ++ [i]).
Proof. unfold enter. intros ->. reflexivity. Qed.

Lemma find_child_extends (t t' : Folder) (folder : handle) (part : str) (i : nat) :
  extends t t' ->
  find_child t folder part = Some i -> find_child t' folder part = Some i.
Proof.
  rewrite !find_child_names. intros Hext. apply index_of_prefix, Hext.
Qed.

Lemma find_child_valid (t : Folder) (folder : handle) (part : str) (i : nat) :
  is_Some (subfolder t folder) ->
  find_child t folder part = Some i -> is_Some (subfolder t (folder ++ [i])).
Proof.
  intros Hv Hf. apply subfolder_snoc. split; [exact Hv|].
  rewrite find_child_names in Hf. exact (index_of_lt _ _ _ Hf).
Qed.

Lemma Folders_Add_spec (tree : Folder) (folder : handle) (part : str) :
  is_Some (subfolder tree folder) ->
  find_child tree folder part = None ->
  exists tree' sub i,
    Folders_Add tree folder part = (tree', sub) /\ sub = folder ++ [i]
    /\ extends tree tree' /\ find_child tree' folder part = Some i.
Proof.
  intros [f Hf] Hnone. unfold Folders_Add. rewrite Hf.
  eexists _, _, _. split; [reflexivity|]. split; [reflexivity|]. split.
  - apply append_child_extends.
  - rewrite find_child_names, append_child_names by (rewrite Hf; eauto).
    rewrite find_child_names in Hnone.
    rewrite (index_of_snoc_new _ _ Hnone).
    unfold children_names. rewrite Hf, length_fmap. reflexivity.
Qed.

Lemma walk_replay (parts : list str) (tree : Folder) (kf : cache)
    (folder : handle) (rp : str) :
  CREATE_NEW_FOLDERS = true ->
  is_Some (subfolder tree folder) ->
  exists tree' kf' node rp',
    walk parts tree kf folder rp = Finished tree' kf' node rp'
    /\ extends tree tree'
    /\ is_Some (subfolder tree' node)
    /\ forall tree'' kf'' rp'',
         extends tree' tree'' ->
         exists kf3 rp3,
           walk parts tree'' kf'' folder rp'' = Finished tree'' kf3 node rp3.
Proof.
  intros Hcreate.
  revert tree kf folder rp; induction parts as [|part rest IH];
    intros tree kf folder rp Hv; simpl.
  - exists tree, kf, folder, rp. split; [reflexivity|].
    split; [apply extends_refl|]. split; [exact Hv|].
    intros tree'' kf'' rp'' Hext. eauto.
  - assert (Hstep : exists tree1 i,
               enter CREATE_NEW_FOLDERS tree folder part = Some (tree1, folder ++ [i])
               /\ extends tree tree1
               /\ find_child tree1 folder part = Some i).
    { destruct (find_child tree folder part) as [i|] eqn:Hf.
      - exists tree, i. rewrite (enter_found _ _ _ _ Hf).
        split; [reflexivity|]. split; [apply extends_refl | exact Hf].
      - destruct (Folders_Add_spec tree folder part Hv Hf)
          as (tree1 & sub & i & Hadd & -> & Hext & Hf1).
        exists tree1, i. unfold enter. rewrite Hf, Hcreate, Hadd.
        split; [reflexivity|]. split; assumption. }
    destruct Hstep as (tree1 & i & -> & Hext1 & Hf1).
    assert (Hv1 : is_Some (subfolder tree1 (folder ++ [i]))).
    { apply (find_child_valid _ _ part); [|exact Hf1].
      exact (extends_valid _ _ _ Hext1 Hv). }
    destruct (IH tree1 (<[normalize (rp ++ SLASH :: part) := rp ++ SLASH :: part]> kf)
                (folder ++ [i]) (rp ++ SLASH :: part) Hv1)
      as (tree' & kf' & node & rp' & Hw & Hext & Hnode & Hagain).
    exists tree', kf', node, rp'. split; [exact Hw|].
    split; [exact (extends_trans _ _ _ Hext1 Hext)|]. split; [exact Hnode|].
    intros tree'' kf'' rp'' Hext''.
    assert (Hf'' : find_child tree'' folder part = Some i).
    { apply (find_child_extends tree1); [|exact Hf1].
      exact (extends_trans _ _ _ Hext Hext''). }
    rewrite (enter_found _ _ _ _ Hf''). apply Hagain, Hext''.
Qed.

(** *** Creation not allowed: the walk only reads the tree *)

Lemma walk_read_only (parts : list str) (tree : Folder) (kf : cache)
    (folder : handle) (rp : str) :
  CREATE_NEW_FOLDERS = false ->
  match descend tree folder parts with
  | Some node => exists kf' rp', walk parts tree kf folder rp = Finished tree kf' node rp'
  | None => exists kf', walk parts tree kf folder rp = Abandoned tree kf'
  end.
Proof.
  intros Hcreate.
  revert kf folder rp; induction parts as [|part rest IH]; intros kf folder rp; simpl.
  - eauto.
  - unfold enter.
    destruct (find_child tree folder part) as [i|]; [apply IH|].
    rewrite Hcreate. eauto.
Qed.

End WalkFacts.

(** ** The resolver *)

Section ResolveFacts.

Variable U : UnicodeData.

#[local] Abbreviation normalize := (normalize_name U).

(** A path without a slash has no part after the first: the resolver
    returns the folder it was given and touches nothing. *)
Lemma resolve_single (create : bool) (tree : Folder) (kf : cache) (path : str) :
  ~ In SLASH (effective_path U kf path) ->
  get_or_create_folder U create tree kf path = (tree, kf, []).
Proof.
  intros Hno. unfold get_or_create_folder.
  rewrite (split_no_sep _ _ Hno). reflexivity.
Qed.

(** With creation allowed the resolver returns a folder of the tree it
    leaves behind, the tree has only grown, the path walked is recorded
    under its key, and walking the same path again, on that tree or on a
    later one, returns the same folder and creates nothing. *)
Lemma resolve_create (tree : Folder) (kf : cache) (path : str) :
  exists tree1 kf1 node,
    get_or_create_folder U true tree kf path = (tree1, kf1, node)
    /\ extends tree tree1
    /\ is_Some (subfolder tree1 node)
    /\ (In SLASH (effective_path U kf path) ->
        kf1 !! normalize (effective_path U kf path)
        = Some (effective_path U kf path))
    /\ forall tree2 kf2 path2,
         extends tree1 tree2 ->
         effective_path U kf2 path2 = effective_path U kf path ->
         exists kf3,
           get_or_create_folder U true tree2 kf2 path2 = (tree2, kf3, node).
Proof.
  unfold get_or_create_folder.
  pose proof (split_join SLASH (effective_path U kf path)) as Hj.
  destruct (split SLASH (effective_path U kf path)) as [|p0 rest] eqn:Es;
    [contradiction|]. simpl tail.
  destruct (walk_replay U true rest tree kf [] p0 eq_refl)
    as (tree1 & kf1 & node & rp' & Hw & Hext & Hnode & Hagain).
  { simpl. eauto. }
  exists tree1, kf1, node. rewrite Hw. split; [reflexivity|].
  split; [exact Hext|]. split; [exact Hnode|]. split.
  - intros Hin. destruct (walk_finished_path _ _ _ _ _ _ _ _ _ _ _ Hw) as [-> Hrec].
    rewrite Hj in Hrec. apply Hrec. intros ->.
    exact (split_single _ _ _ Es Hin).
  - intros tree2 kf2 path2 Hext2 ->. rewrite Es. simpl tail.
    destruct (Hagain tree2 kf2 p0 Hext2) as (kf3 & rp3 & ->).
    exists kf3. reflexivity.
Qed.

(** The cache after the resolver: consistent if it was, and no key lost. *)
Lemma resolve_cache (create : bool) (tree : Folder) (kf : cache) (path : str) :
  cache_consistent U kf ->
  cache_consistent U (get_or_create_folder U create tree kf path).1.2
  /\ forall k, is_Some (kf !! k) ->
               is_Some ((get_or_create_folder U create tree kf path).1.2 !! k).
Proof.
  intros Hc. unfold get_or_create_folder.
  match goal with
  | |- context [walk U create ?parts tree kf ?folder ?rp] =>
      pose proof (walk_cache_grows U create parts tree kf folder rp Hc) as Hw;
      destruct (walk U create parts tree kf folder rp)
  end; exact Hw.
Qed.

End ResolveFacts.

(** ** The cache builder *)

Section BuildFacts.

Variable U : UnicodeData.

#[local] Abbreviation normalize := (normalize_name U).

Lemma record_all_app (ps qs : list str) (kf : cache) :
  record_all U (ps ++ qs) kf = record_all U qs (record_all U ps kf).
Proof. apply fold_left_app. Qed.

(** [build_folder_cache] records the real paths of the folders below the
    root, in the order of [folder_paths]. *)
Lemma build_folder_cache_paths (root : Folder) (base : str) (kf : cache) :
  build_folder_cache U root base kf = record_all U (folder_paths root base) kf.
Proof.
  revert base kf. induction root as [name fs IH] using Folder_rect'.
  intros base kf. simpl. revert kf.
  induction IH as [|f fs Hf _ IHfs]; intros kf; [reflexivity|].
  change (record_all U ?l kf) with (record_all U ([] ++ l) kf).
  rewrite Hf, IHfs. simpl app.
  change (record_all U (?p :: ?l) kf) with (record_all U l (<[normalize p := p]> kf)).
  rewrite record_all_app. reflexivity.
Qed.

Lemma record_all_cache (paths : list str) (kf : cache) :
  cache_consistent U kf ->
  cache_consistent U (record_all U paths kf)
  /\ forall k, is_Some (kf !! k) -> is_Some (record_all U paths kf !! k).
Proof.
  revert kf; induction paths as [|p paths IH]; intros kf Hc; simpl.
  - split; [exact Hc | auto].
  - destruct (IH (<[normalize p := p]> kf)) as [H1 H2];
      [apply consistent_insert, Hc|].
    split; [exact H1|]. intros k Hk. apply H2, insert_keeps_keys, Hk.
Qed.

(** Looking a recorded path up finds a recorded path of the same key: the
    last one recorded. *)
Lemma record_all_lookup (paths : list str) (kf : cache) (p : str) :
  In p paths ->
  exists q, record_all U paths kf !! normalize p = Some q
            /\ In q paths /\ normalize q = normalize p.
Proof.
  revert kf; induction paths as [|a paths IH] using rev_ind; intros kf Hin;
    [destruct Hin|].
  rewrite record_all_app. simpl.
  destruct (decide (normalize a = normalize p)) as [Heq|Hne].
  - exists a. split; [rewrite <- Heq; apply lookup_insert_eq|].
    split; [apply in_or_app; right; left; reflexivity | exact Heq].
  - rewrite lookup_insert_ne by exact Hne.
    apply in_app_or in Hin as [Hin|[->|[]]]; [|congruence].
    destruct (IH kf Hin) as (q & Hq & Hinq & Hk).
    exists q. split; [exact Hq|]. split; [apply in_or_app; left; exact Hinq | exact Hk].
Qed.

(** The paths recorded are the real paths of the folders below the root. *)
Lemma folder_paths_real (root : Folder) (base p : str) :
  In p (folder_paths root base) <->
  exists h, h <> [] /\ real_path_of root base h = Some p.
Proof.
  revert base p. induction root as [name fs IH] using Folder_rect'.
  intros base p. simpl.
  induction IH as [|f fs Hf _ IHfs].
  - split; [intros [] | intros ([|i h] & Hne & Hp); [congruence | discriminate]].
  - simpl. rewrite in_app_iff, Hf, IHfs. split.
    + intros [<- | [(h & _ & Hp) | (h & Hne & Hp)]].
      * exists [0%nat]. split; [discriminate | reflexivity].
      * exists (0%nat :: h). split; [discriminate | exact Hp].
      * destruct h as [|i h]; [congruence|].
        exists (S i :: h). split; [discriminate | exact Hp].
    + intros ([|[|i] h] & Hne & Hp); [congruence | |].
      * simpl in Hp. destruct h as [|j h].
        -- left. simpl in Hp. congruence.
        -- right; left. exists (j :: h). split; [discriminate | exact Hp].
      * right; right. exists (i :: h). split; [discriminate | exact Hp].
Qed.

End BuildFacts.

(** ** The states of a run *)

Lemma step_consistent (U : UnicodeData) (create : bool) (st st' : Folder * cache) :
  Step U create st st' ->
  cache_consistent U st.2 ->
  cache_consistent U st'.2 /\ forall k, is_Some (st.2 !! k) -> is_Some (st'.2 !! k).
Proof.
  intros [tree kf root base | tree kf path] Hc; simpl in *.
  - rewrite build_folder_cache_paths. apply record_all_cache, Hc.
  - apply resolve_cache, Hc.
Qed.

Lemma reachable_consistent (U : UnicodeData) (create : bool) (st : Folder * cache) :
  Reachable U create st -> cache_consistent U st.2.
Proof.
  induction 1 as [tree | st st' _ IH Hstep]; simpl.
  - apply consistent_empty.
  - exact (proj1 (step_consistent _ _ _ _ Hstep IH)).
Qed.

(** ** Strings under the database *)

Section StringFacts.

Variable U : UnicodeData.

Lemma lstrip_keeps (s : str) (c : N) :
  In c s -> isspace U c = false -> In c (lstrip U s).
Proof.
  induction s as [|a s IH]; simpl; [intros []|].
  intros Hin Hc. destruct (isspace U a) eqn:Ea.
  - destruct Hin as [-> | Hin]; [congruence | exact (IH Hin Hc)].
  - exact Hin.
Qed.

Lemma strip_keeps (s : str) (c : N) :
  In c s -> isspace U c = false -> In c (strip U s).
Proof.
  intros Hin Hc. unfold strip, rstrip.
  rewrite <- in_rev. apply lstrip_keeps; [|exact Hc].
  rewrite <- in_rev. apply lstrip_keeps; assumption.
Qed.

Lemma sub_spaces_keeps (in_run : bool) (s : str) (c : N) :
  In c s -> isspace U c = false -> In c (sub_spaces_from U in_run s).
Proof.
  revert in_run; induction s as [|a s IH]; intros in_run; simpl; [intros []|].
  intros Hin Hc. destruct (isspace U a) eqn:Ea.
  - destruct Hin as [-> | Hin]; [congruence|].
    destruct in_run; [|right]; exact (IH _ Hin Hc).
  - destruct Hin as [-> | Hin]; [left; reflexivity | right; exact (IH _ Hin Hc)].
Qed.

(** What is stripped is white space, and what is left has none at its
    ends. *)
Lemma lstrip_split (s : str) :
  exists pre, s = pre ++ lstrip U s
              /\ Forall (fun c => isspace U c = true) pre
              /\ (forall c, head (lstrip U s) = Some c -> isspace U c = false).
Proof.
  induction s as [|a s (pre & Hs & Hpre & Hhead)]; simpl.
  - exists []. split; [reflexivity|]. split; [constructor | discriminate].
  - destruct (isspace U a) eqn:Ea.
    + exists (a :: pre). split; [simpl; f_equal; exact Hs|].
      split; [constructor; assumption | exact Hhead].
    + exists []. split; [reflexivity|]. split; [constructor|].
      simpl. intros c [= <-]. exact Ea.
Qed.

Lemma head_rev_last (s : str) : head (rev s) = last s.
Proof.
  induction s as [|a s IH] using rev_ind; [reflexivity|].
  rewrite rev_app_distr, last_snoc. reflexivity.
Qed.

Lemma strip_split (s : str) :
  exists pre post,
    s = pre ++ strip U s ++ post
    /\ Forall (fun c => isspace U c = true) pre
    /\ Forall (fun c => isspace U c = true) post
    /\ (forall c, head (strip U s) = Some c -> isspace U c = false)
    /\ (forall c, last (strip U s) = Some c -> isspace U c = false).
Proof.
  destruct (lstrip_split s) as (pre & Hs & Hpre & Hhead).
  destruct (lstrip_split (rev (lstrip U s))) as (tsop & Hr & Hpost & Hlast).
  exists pre, (rev tsop). unfold strip, rstrip.
  set (core := lstrip U (rev (lstrip U s))) in *.
  assert (Hl : lstrip U s = rev core ++ rev tsop).
  { rewrite <- rev_app_distr, <- Hr, rev_involutive. reflexivity. }
  split; [rewrite <- Hl; exact Hs|]. split; [exact Hpre|].
  split; [apply Forall_rev; exact Hpost|]. split.
  - intros c Hc. destruct (rev core) as [|a l] eqn:Ec; [discriminate|].
    simpl in Hc. injection Hc as ->. apply Hhead. rewrite Hl. reflexivity.
  - intros c Hc. apply Hlast. rewrite <- Hc, <- head_rev_last, rev_involutive.
    reflexivity.
Qed.

(** Lower-casing works place by place. *)
Lemma do_lower_In (before_rev s : str) (c : N) :
  In c s ->
  exists b a, forall d, In d (lower_at U b c a) -> In d (do_lower U before_rev s).
Proof.
  revert before_rev; induction s as [|x s IH]; intros before_rev; simpl; [intros []|].
  intros [-> | Hin].
  - exists before_rev, s. intros d Hd. apply in_or_app; left; exact Hd.
  - destruct (IH (x :: before_rev) Hin) as (b & a & H).
    exists b, a. intros d Hd. apply in_or_app; right; exact (H d Hd).
Qed.

Lemma stays_strange_lower_at (b a : str) (c : N) :
  stays_strange U c = true ->
  existsb (fun d => negb (allowed d)) (lower_at U b c a) = true.
Proof.
  unfold stays_strange, lower_at. destruct (c =? SIGMA); simpl.
  - intros _. destruct (final_sigma U b a); reflexivity.
  - trivial.
Qed.

Lemma lower_stays_strange (s : str) (c : N) :
  In c s -> stays_strange U c = true ->
  existsb (fun d => negb (allowed d)) (lower U s) = true.
Proof.
  intros Hin Hc. destruct (do_lower_In [] s c Hin) as (b & a & H).
  pose proof (stays_strange_lower_at b a c Hc) as Hex.
  apply existsb_exists in Hex as (d & Hd & Hbad).
  apply existsb_exists. exists d. split; [apply H, Hd | exact Hbad].
Qed.

Lemma prepend_root_keeps (s : str) (c : N) : In c s -> In c (prepend_root U s).
Proof.
  unfold prepend_root. destruct (negb _); [|trivial].
  intros H. apply in_or_app; right; exact H.
Qed.

Lemma clean_folder_path_cleaned (folder_path : str) :
  clean_folder_path U folder_path =
  if existsb (fun p => Re.search p (lower U (cleaned_path U folder_path)))
       FORBIDDEN_PATTERNS
  then FALLBACK_PATH
  else cleaned_path U folder_path.
Proof. reflexivity. Qed.

(** *** Basic Latin *)

Hypothesis ascii_ok : AsciiCompatible U.

Lemma do_lower_ascii_app (before_rev s1 s2 : str) :
  Forall (fun c => c < 128) s1 ->
  do_lower U before_rev (s1 ++ s2)
  = map ascii_lower s1 ++ do_lower U (rev s1 ++ before_rev) s2.
Proof.
  intros Hs; revert before_rev; induction Hs as [|c s1 Hc _ IH]; intros before_rev;
    simpl; [reflexivity|].
  rewrite IH. unfold lower_at.
  destruct (N.eqb_spec c SIGMA) as [->|_]; [unfold SIGMA in Hc; lia|].
  rewrite (tolower_ascii U ascii_ok c Hc). simpl.
  rewrite <- app_assoc. reflexivity.
Qed.

Lemma lower_ascii (s : str) :
  Forall (fun c => c < 128) s -> lower U s = map ascii_lower s.
Proof.
  intros Hs. unfold lower.
  rewrite <- (app_nil_r s) at 1. rewrite (do_lower_ascii_app [] s [] Hs).
  simpl. apply app_nil_r.
Qed.

Lemma lower_root_prefix (s : str) :
  startswith (lower U (ROOT_PREFIX ++ s)) (py "postvak in/") = true.
Proof.
  unfold lower. rewrite do_lower_ascii_app.
  - apply startswith_app. eexists. reflexivity.
  - repeat constructor.
Qed.

End StringFacts.

(** On Basic Latin text every database gives the same results. *)
Section AsciiAgree.

Variables U V : UnicodeData.
Hypothesis U_ok : AsciiCompatible U.
Hypothesis V_ok : AsciiCompatible V.

#[local] Abbreviation ascii := (Forall (fun c : N => c < 128)).

Lemma isspace_agree (c : N) : c < 128 -> isspace U c = isspace V c.
Proof.
  intros Hc. rewrite (isspace_ascii U U_ok c Hc), (isspace_ascii V V_ok c Hc).
  reflexivity.
Qed.

Lemma lstrip_agree (s : str) :
  ascii s -> lstrip U s = lstrip V s /\ ascii (lstrip U s).
Proof.
  induction 1 as [|c s Hc Hs [IH1 IH2]]; simpl; [split; [reflexivity | constructor]|].
  rewrite <- (isspace_agree c Hc). destruct (isspace U c).
  - split; assumption.
  - split; [reflexivity | constructor; assumption].
Qed.

Lemma strip_agree (s : str) :
  ascii s -> strip U s = strip V s /\ ascii (strip U s).
Proof.
  intros Hs. unfold strip, rstrip.
  destruct (lstrip_agree s Hs) as [<- H1].
  destruct (lstrip_agree (rev (lstrip U s)) (Forall_rev H1)) as [<- H2].
  split; [reflexivity | apply Forall_rev, H2].
Qed.

Lemma sub_spaces_agree (in_run : bool) (s : str) :
  ascii s ->
  sub_spaces_from U in_run s = sub_spaces_from V in_run s
  /\ ascii (sub_spaces_from U in_run s).
Proof.
  intros Hs; revert in_run; induction Hs as [|c s Hc Hs IH]; intros in_run; simpl;
    [split; [reflexivity | constructor]|].
  rewrite <- (isspace_agree c Hc). destruct (isspace U c).
  - destruct (IH true) as [<- H2]. destruct in_run.
    + split; [reflexivity | exact H2].
    + split; [reflexivity | constructor; [reflexivity | exact H2]].
  - destruct (IH false) as [<- H2].
    split; [reflexivity | constructor; assumption].
Qed.

Lemma lower_agree (s : str) : ascii s -> lower U s = lower V s.
Proof. intros Hs. rewrite (lower_ascii U U_ok s Hs), (lower_ascii V V_ok s Hs). reflexivity. Qed.

Lemma cleaned_path_agree (s : str) :
  ascii s -> cleaned_path U s = cleaned_path V s /\ ascii (cleaned_path U s).
Proof.
  intros Hs. unfold cleaned_path.
  destruct (strip_agree s Hs) as [<- H1].
  destruct (sub_spaces_agree false _ H1) as [H2 H3].
  unfold sub_spaces. rewrite <- H2. unfold prepend_root.
  rewrite <- (lower_agree _ H3).
  destruct (negb _); [|split; [reflexivity | exact H3]].
  split; [reflexivity|]. apply Forall_app. split; [repeat constructor | exact H3].
Qed.

Lemma clean_folder_path_agree (s : str) :
  ascii s -> clean_folder_path U s = clean_folder_path V s.
Proof.
  intros Hs. rewrite !clean_folder_path_cleaned.
  destruct (cleaned_path_agree s Hs) as [<- H].
  rewrite <- (lower_agree _ H). reflexivity.
Qed.

End AsciiAgree.

(** ** Reading a response *)

Lemma response_json_error (response : Response) (e : exception) :
  response_json response = inl e -> lookup_error e.
Proof.
  unfold response_json. destruct (json response); [discriminate|].
  intros [= <-]. unfold lookup_error; simpl; auto 10.
Qed.

Lemma getitem_error (v : JSON) (key : str) (e : exception) :
  getitem v key = inl e -> lookup_error e.
Proof.
  destruct v; simpl; try (intros [= <-]; unfold lookup_error; simpl; auto 10).
  destruct (member key members); [discriminate|].
  intros [= <-]. unfold lookup_error; simpl; auto 10.
Qed.

Lemma getitem0_error (v : JSON) (e : exception) :
  getitem0 v = inl e -> lookup_error e.
Proof.
  destruct v as [| | |[|c s]|[|x items]|members]; simpl;
    try discriminate; intros [= <-]; unfold lookup_error; simpl; auto 10.
Qed.

Lemma strip_method_error (U : UnicodeData) (v : JSON) (e : exception) :
  strip_method U v = inl e -> lookup_error e.
Proof. destruct v; simpl; try discriminate; intros [= <-]; unfold lookup_error; simpl; auto 10. Qed.

(** The five look-ups of [classify_email] after a response of status 200:
    they give the stripped text of the first choice when there is one, and
    fail with a look-up error otherwise. *)
Lemma read_folder_cases (U : UnicodeData) (response : Response) :
  let read :=
    (let* result := response_json response in
     let* choices := getitem result (py "choices") in
     let* first := getitem0 choices in
     let* text := getitem first (py "text") in
     let* folder := strip_method U text in
     inr (match folder with [] => FALLBACK_PATH | _ => folder end)) in
  match suggestion response with
  | Some s => read = inr (match strip U s with [] => FALLBACK_PATH | _ => strip U s end)
  | None => exists e, read = inl e /\ lookup_error e
  end.
Proof.
  unfold suggestion, bind.
  destruct (response_json response) as [e|v] eqn:E1;
    [exists e; split; [reflexivity | exact (response_json_error _ _ E1)]|].
  destruct (getitem v (py "choices")) as [e|v1] eqn:E2;
    [exists e; split; [reflexivity | exact (getitem_error _ _ _ E2)]|].
  destruct (getitem0 v1) as [e|v2] eqn:E3;
    [exists e; split; [reflexivity | exact (getitem0_error _ _ E3)]|].
  destruct (getitem v2 (py "text")) as [e|v3] eqn:E4;
    [exists e; split; [reflexivity | exact (getitem_error _ _ _ E4)]|].
  destruct v3; simpl; try (eexists; split; [reflexivity | unfold lookup_error; simpl; auto 10]).
  reflexivity.
Qed.

(** ** Where the slash of a validated path comes from *)





(** * The claims *)

(** ** Folder resolver *)

Lemma effective_path_key (U : UnicodeData) (kf : cache) (path : str) :
  cache_consistent U kf ->
  normalize_name U (effective_path U kf path) = normalize_name U path.
Proof.
  intros Hc. unfold effective_path.
  destruct (kf !! normalize_name U path) as [real|] eqn:E; [|reflexivity].
  symmetry. exact (Hc _ _ E).
Qed.

Lemma effective_path_hit (U : UnicodeData) (kf : cache) (path real : str) :
  kf !! normalize_name U path = Some real -> effective_path U kf path = real.
Proof. unfold effective_path. intros ->. reflexivity. Qed.

(** After the resolver has walked a path with a slash, every path of the
    same key is redirected to the path walked. *)
Lemma resolve_then_redirect (U : UnicodeData) (tree : Folder) (kf : cache)
    (P1 P2 : str) :
  cache_consistent U kf ->
  normalize_name U P1 = normalize_name U P2 ->
  In SLASH (effective_path U kf P1) ->
  let r1 := get_or_create_folder U true tree kf P1 in
  exists kf3, get_or_create_folder U true r1.1.1 r1.1.2 P2 = (r1.1.1, kf3, r1.2)
              /\ is_Some (subfolder r1.1.1 r1.2).
Proof.
  intros Hc Hkey Hin.
  destruct (resolve_create U tree kf P1)
    as (tree1 & kf1 & node & -> & _ & Hnode & Hrec & Hagain). simpl.
  specialize (Hrec Hin). rewrite (effective_path_key U kf P1 Hc), Hkey in Hrec.
  destruct (Hagain tree1 kf1 P2 (extends_refl _) (effective_path_hit _ _ _ _ Hrec))
    as [kf3 H3].
  exists kf3. split; [exact H3 | exact Hnode].
Qed.

(** C4. Resolving the same path twice with creation allowed: the second
    call leaves the tree as the first call left it, so it creates no
    folder, and it returns the folder the first call returned.  This holds
    in every state a run can be in. *)
Theorem resolve_twice_creates_nothing (U : UnicodeData) (tree : Folder)
    (known_folders : cache) (folder_path : str) :
  Reachable U true (tree, known_folders) ->
  let r1 := get_or_create_folder U true tree known_folders folder_path in
  let r2 := get_or_create_folder U true r1.1.1 r1.1.2 folder_path in
  r2.1.1 = r1.1.1 /\ r2.2 = r1.2.
Proof.
  intros Hreach. apply reachable_consistent in Hreach. simpl in Hreach.
  destruct (in_dec N.eq_dec SLASH (effective_path U known_folders folder_path))
    as [Hin|Hno].
  - destruct (resolve_then_redirect U tree known_folders folder_path folder_path
                Hreach eq_refl Hin) as (kf3 & H3 & _).
    simpl. rewrite H3. split; reflexivity.
  - simpl. rewrite (resolve_single U true tree known_folders folder_path Hno).
    simpl. rewrite (resolve_single U true tree known_folders folder_path Hno).
    split; reflexivity.
Qed.

Lemma resolve_twice_creates_nothing_witness :
  let r1 := get_or_create_folder Examples.ucd true Examples.inbox ∅
              (py "Postvak In/Orders/Returns") in
  let r2 := get_or_create_folder Examples.ucd true r1.1.1 r1.1.2
              (py "Postvak In/Orders/Returns") in
  r2.1.1 = r1.1.1 /\ r2.2 = r1.2.
Proof.
  apply (resolve_twice_creates_nothing Examples.ucd Examples.inbox ∅
           (py "Postvak In/Orders/Returns")).
  apply reach_start.
Defined.





(** Validation is what makes the first path of C1 have a slash.  A path
    that has not been validated may have none and still have the key of
    one that has: [fullwidth_path], which reads ["Postvak In/A"] with a
    fullwidth solidus for the slash, resolves to the inbox itself, and
    ["Postvak In/A"] to the new folder [A]. *)
Lemma unvalidated_path_resolves_elsewhere :
  normalize_name Examples.ucd Examples.fullwidth_path
  = normalize_name Examples.ucd (py "Postvak In/A")
  /\ clean_folder_path Examples.ucd Examples.fullwidth_path = FALLBACK_PATH
  /\ let r1 := get_or_create_folder Examples.ucd true Examples.empty_inbox ∅
                 Examples.fullwidth_path in
     let r2 := get_or_create_folder Examples.ucd true r1.1.1 r1.1.2
                 (py "Postvak In/A") in
     r1.2 = [] /\ r2.2 = [0%nat].
Proof.
  split; [vm_compute; reflexivity|]. split; vm_compute; [reflexivity|].
  split; reflexivity.
Qed.

(** What [first_named] finds: the first folder of that name. *)
Lemma first_named_spec (part : str) (fs : list Folder) :
  match first_named part fs with
  | Some i =>
      (exists f, fs !! i = Some f /\ Name f = part)
      /\ forall j g, (j < i)%nat -> fs !! j = Some g -> Name g <> part
  | None => forall g, In g fs -> Name g <> part
  end.
Proof.
  induction fs as [|f fs IH]; simpl; [intros g []|].
  case_bool_decide as Hn.
  - split; [exists f; split; [reflexivity | exact Hn] | intros j g Hj; lia].
  - destruct (first_named part fs) as [i|]; simpl.
    + destruct IH as [(f' & Hf' & Hname) Hearlier]. split.
      * exists f'. split; [exact Hf' | exact Hname].
      * intros [|j] g Hj; simpl.
        -- intros [= <-]. exact Hn.
        -- apply Hearlier. lia.
    + intros g [<- | Hg]; [exact Hn | apply IH, Hg].
Qed.

(** C5. Creation not allowed, and the walk of the path meets a part for
    which the folder reached has no child of exactly that name: the
    resolver returns the first child of the root named [Unsorted], or the
    root itself when the root has no such child, and the tree is as it
    was. *)
Theorem creation_denied_falls_back (U : UnicodeData) (tree : Folder)
    (known_folders : cache) (folder_path : str) :
  descend tree [] (tail (split SLASH (effective_path U known_folders folder_path)))
  = None ->
  let r := get_or_create_folder U false tree known_folders folder_path in
  r.1.1 = tree
  /\ ((exists i f, r.2 = [i] /\ Folders tree !! i = Some f
                   /\ Name f = py "Unsorted"
                   /\ forall j g, (j < i)%nat -> Folders tree !! j = Some g ->
                                  Name g <> py "Unsorted")
      \/ (r.2 = [] /\ forall g, In g (Folders tree) -> Name g <> py "Unsorted")).
Proof.
  intros Hmiss. unfold get_or_create_folder.
  match goal with
  | |- context [walk U false ?parts tree known_folders ?folder ?rp] =>
      pose proof (walk_read_only U false parts tree known_folders folder rp eq_refl) as Hw
  end.
  rewrite Hmiss in Hw. destruct Hw as [kf' ->]. simpl.
  split; [reflexivity|].
  unfold unsorted_or_root, find_child. simpl.
  pose proof (first_named_spec (py "Unsorted") (Folders tree)) as Hspec.
  destruct (first_named (py "Unsorted") (Folders tree)) as [i|].
  - destruct Hspec as [(f & Hf & Hname) Hearlier].
    left. exists i, f. split; [reflexivity|]. split; [exact Hf|].
    split; [exact Hname | exact Hearlier].
  - right. split; [reflexivity | exact Hspec].
Qed.

Lemma creation_denied_falls_back_witness :
  let r := get_or_create_folder Examples.ucd false Examples.inbox ∅
             (py "Postvak In/NewCategory") in
  r.1.1 = Examples.inbox
  /\ ((exists i f, r.2 = [i] /\ Folders Examples.inbox !! i = Some f
                   /\ Name f = py "Unsorted"
                   /\ forall j g, (j < i)%nat ->
                                  Folders Examples.inbox !! j = Some g ->
                                  Name g <> py "Unsorted")
      \/ (r.2 = []
          /\ forall g, In g (Folders Examples.inbox) -> Name g <> py "Unsorted")).
Proof.
  apply (creation_denied_falls_back Examples.ucd Examples.inbox ∅
           (py "Postvak In/NewCategory")).
  vm_compute. reflexivity.
Defined.

(** ** Folder cache *)

(** C10. In every state a run can be in, every entry of the cache has the
    canonical key of its real path as its key; both operations that write
    to the cache, the rebuild and the resolver, keep it so, and neither
    loses a key. *)
Theorem cache_stays_consistent (U : UnicodeData) (create : bool)
    (st : Folder * cache) :
  Reachable U create st ->
  (forall key real, st.2 !! key = Some real -> key = normalize_name U real)
  /\ forall st', Step U create st st' ->
       (forall key real, st'.2 !! key = Some real -> key = normalize_name U real)
       /\ forall key, is_Some (st.2 !! key) -> is_Some (st'.2 !! key).
Proof.
  intros Hreach. pose proof (reachable_consistent _ _ _ Hreach) as Hc.
  split; [exact Hc|].
  intros st' Hstep. exact (step_consistent _ _ _ _ Hstep Hc).
Qed.

Lemma cache_stays_consistent_witness :
  (forall key real,
      (Examples.inbox, (∅ : cache)).2 !! key = Some real ->
      key = normalize_name Examples.ucd real)
  /\ forall st', Step Examples.ucd true (Examples.inbox, ∅) st' ->
       (forall key real, st'.2 !! key = Some real ->
                         key = normalize_name Examples.ucd real)
       /\ forall key, is_Some ((Examples.inbox, (∅ : cache)).2 !! key) ->
                      is_Some (st'.2 !! key).
Proof.
  apply (cache_stays_consistent Examples.ucd true (Examples.inbox, ∅)).
  apply reach_start.
Defined.

(** C6, as the code has it.  After the rebuild, for every folder below the
    root, looking up the canonical key of its real path succeeds and gives
    the real path of a folder below the root with the same canonical key:
    its own whenever no other real path in the tree has that key. *)
Theorem rebuild_finds_every_folder (U : UnicodeData) (root : Folder)
    (base : str) (known_folders : cache) (h : handle) (p : str) :
  h <> [] ->
  real_path_of root base h = Some p ->
  exists q,
    build_folder_cache U root base known_folders !! normalize_name U p = Some q
    /\ normalize_name U q = normalize_name U p
    /\ (exists h', h' <> [] /\ real_path_of root base h' = Some q)
    /\ ((forall h' p', h' <> [] -> real_path_of root base h' = Some p' ->
                       normalize_name U p' = normalize_name U p -> p' = p) ->
        q = p).
Proof.
  intros Hne Hp. rewrite build_folder_cache_paths.
  assert (Hin : In p (folder_paths root base)).
  { apply folder_paths_real. exists h. split; assumption. }
  destruct (record_all_lookup U _ known_folders p Hin) as (q & Hq & Hinq & Hkey).
  apply folder_paths_real in Hinq as (h' & Hne' & Hq').
  exists q. split; [exact Hq|]. split; [exact Hkey|].
  split; [exists h'; split; assumption|].
  intros Huniq. exact (Huniq h' q Hne' Hq' Hkey).
Qed.

Lemma rebuild_finds_every_folder_witness :
  exists q,
    build_folder_cache Examples.ucd Examples.inbox (py "Postvak In") ∅
      !! normalize_name Examples.ucd (py "Postvak In/Orders/Invoices") = Some q
    /\ normalize_name Examples.ucd q
       = normalize_name Examples.ucd (py "Postvak In/Orders/Invoices")
    /\ (exists h', h' <> []
                   /\ real_path_of Examples.inbox (py "Postvak In") h' = Some q)
    /\ ((forall h' p', h' <> [] ->
            real_path_of Examples.inbox (py "Postvak In") h' = Some p' ->
            normalize_name Examples.ucd p'
            = normalize_name Examples.ucd (py "Postvak In/Orders/Invoices") ->
            p' = py "Postvak In/Orders/Invoices") ->
        q = py "Postvak In/Orders/Invoices").
Proof.
  apply (rebuild_finds_every_folder Examples.ucd Examples.inbox (py "Postvak In")
           ∅ [1%nat; 0%nat] (py "Postvak In/Orders/Invoices")).
  - discriminate.
  - vm_compute. reflexivity.
Defined.

(** C6 fails as stated.  In an inbox with the folders [a] and [A], the
    rebuild leaves no entry for the root folder, and the key of
    ["Postvak In/a"] leads to ["Postvak In/A"], the path of the other
    folder. *)
Lemma rebuild_misses_folders :
  let known_folders :=
    build_folder_cache Examples.ucd Examples.twin_inbox (py "Postvak In") ∅ in
  real_path_of Examples.twin_inbox (py "Postvak In") [] = Some (py "Postvak In")
  /\ known_folders !! normalize_name Examples.ucd (py "Postvak In") = None
  /\ real_path_of Examples.twin_inbox (py "Postvak In") [0%nat]
     = Some (py "Postvak In/a")
  /\ known_folders !! normalize_name Examples.ucd (py "Postvak In/a")
     = Some (py "Postvak In/A")
  /\ py "Postvak In/A" <> py "Postvak In/a".
Proof. vm_compute. repeat split; discriminate. Qed.

(** ** Path validator *)

(** C2, as the code has it.  Every input with a code point that is not
    white space and whose lower-case form has a code point outside
    [[a-zA-Z0-9/ -]] is replaced by the fallback path. *)
Theorem strange_symbol_rejected (U : UnicodeData) (folder_path : str) (c : N) :
  In c folder_path ->
  isspace U c = false ->
  stays_strange U c = true ->
  clean_folder_path U folder_path = FALLBACK_PATH.
Proof.
  intros Hin Hspace Hstrange. rewrite clean_folder_path_cleaned.
  assert (Hc : In c (cleaned_path U folder_path)).
  { apply prepend_root_keeps, sub_spaces_keeps; [|exact Hspace].
    apply strip_keeps; assumption. }
  pose proof (lower_stays_strange U _ c Hc Hstrange) as Hbad.
  unfold FORBIDDEN_PATTERNS. cbn [existsb].
  unfold strange_symbol at 1. rewrite search_Class, Hbad.
  rewrite !orb_true_r. reflexivity.
Qed.

Lemma strange_symbol_rejected_witness :
  clean_folder_path Examples.ucd (py "Orders/Invoices!") = FALLBACK_PATH.
Proof.
  apply (strange_symbol_rejected Examples.ucd (py "Orders/Invoices!") 33).
  - vm_compute. tauto.
  - reflexivity.
  - reflexivity.
Defined.

(** C2 fails as stated.  A tab is outside the class, but the validator
    turns it into a space before the patterns are tried; and the KELVIN
    SIGN is outside the class, but the patterns are tried on the
    lower-cased path, where it has become the letter k. *)
Lemma strange_symbol_accepted :
  (existsb (fun c => negb (allowed c)) Examples.tab_path = true
   /\ clean_folder_path Examples.ucd Examples.tab_path
      = py "Postvak In/Orders Invoices"
   /\ py "Postvak In/Orders Invoices" <> FALLBACK_PATH)
  /\ (existsb (fun c => negb (allowed c)) (py "Orders/" ++ [8490]) = true
      /\ clean_folder_path Examples.ucd (py "Orders/" ++ [8490])
         = py "Postvak In/Orders/" ++ [8490]
      /\ py "Postvak In/Orders/" ++ [8490] <> FALLBACK_PATH).
Proof. vm_compute. repeat split; discriminate. Qed.

(** C3, as the code has it.  For every input the validator returns a
    non-empty path that begins with the root prefix up to letter case: its
    lower-case form begins with ["postvak in/"]. *)
Theorem validated_path_rooted (U : UnicodeData) (folder_path : str) :
  AsciiCompatible U ->
  clean_folder_path U folder_path <> []
  /\ startswith (lower U (clean_folder_path U folder_path)) (py "postvak in/") = true.
Proof.
  intros HU.
  assert (Hstart : startswith (lower U (clean_folder_path U folder_path))
                     (py "postvak in/") = true).
  { rewrite clean_folder_path_cleaned. destruct (existsb _ _).
    - change FALLBACK_PATH with (ROOT_PREFIX ++ py "Unsorted").
      apply lower_root_prefix, HU.
    - unfold cleaned_path, prepend_root.
      destruct (startswith (lower U (sub_spaces U (strip U folder_path)))
                  (py "postvak in/")) eqn:E; simpl.
      + exact E.
      + apply lower_root_prefix, HU. }
  split; [|exact Hstart].
  intros Hnil. rewrite Hnil in Hstart. discriminate.
Qed.

Lemma validated_path_rooted_witness :
  clean_folder_path Examples.ucd (py "") <> []
  /\ startswith (lower Examples.ucd (clean_folder_path Examples.ucd (py "")))
       (py "postvak in/") = true.
Proof.
  apply (validated_path_rooted Examples.ucd (py "")).
  exact ucd_ascii.
Defined.

(** C3 fails as stated: a path that already begins with the root prefix in
    small letters is returned as it is, and does not begin with
    ["Postvak In/"]. *)
Lemma validated_path_small_letters :
  clean_folder_path Examples.ucd (py "postvak in/orders") = py "postvak in/orders"
  /\ startswith (clean_folder_path Examples.ucd (py "postvak in/orders")) ROOT_PREFIX
     = false.
Proof. vm_compute. split; reflexivity. Qed.

(** C9. There is a path that begins with the root prefix, has only code
    points of the class [[a-zA-Z0-9/ -]] and no ellipsis, and that the
    validator replaces by the fallback path all the same: the root token
    comes back in a deeper segment, where the first pattern matches it;
    none of the other three patterns matches. *)
Theorem root_token_in_deeper_segment_rejected (U : UnicodeData) :
  AsciiCompatible U ->
  exists folder_path deeper,
    folder_path = ROOT_PREFIX ++ deeper
    /\ forallb allowed folder_path = true
    /\ contains folder_path (py "...") = false
    /\ contains deeper (py "Postvak In") = true
    /\ clean_folder_path U folder_path = FALLBACK_PATH
    /\ cleaned_path U folder_path = folder_path
    /\ Re.search root_like (lower U folder_path) = true
    /\ Re.search root_like (lower U (ROOT_PREFIX ++ py "Archive/")) = false
    /\ Re.search ellipsis (lower U folder_path) = false
    /\ Re.search strange_symbol (lower U folder_path) = false
    /\ Re.search bad_root_variant (lower U folder_path) = false.
Proof.
  intros HU.
  exists (py "Postvak In/Archive/Postvak In Old"), (py "Archive/Postvak In Old").
  assert (Ha : Forall (fun c => c < 128) (py "Postvak In/Archive/Postvak In Old"))
    by (repeat constructor).
  assert (Hb : Forall (fun c => c < 128) (ROOT_PREFIX ++ py "Archive/"))
    by (repeat constructor).
  rewrite (clean_folder_path_agree U Examples.ucd HU ucd_ascii _ Ha).
  rewrite (proj1 (cleaned_path_agree U Examples.ucd HU ucd_ascii _ Ha)).
  rewrite (lower_ascii U HU _ Ha), (lower_ascii U HU _ Hb).
  vm_compute. repeat split; reflexivity.
Qed.

Lemma root_token_in_deeper_segment_rejected_witness :
  exists folder_path deeper,
    folder_path = ROOT_PREFIX ++ deeper
    /\ forallb allowed folder_path = true
    /\ contains folder_path (py "...") = false
    /\ contains deeper (py "Postvak In") = true
    /\ clean_folder_path Examples.ucd folder_path = FALLBACK_PATH
    /\ cleaned_path Examples.ucd folder_path = folder_path
    /\ Re.search root_like (lower Examples.ucd folder_path) = true
    /\ Re.search root_like (lower Examples.ucd (ROOT_PREFIX ++ py "Archive/")) = false
    /\ Re.search ellipsis (lower Examples.ucd folder_path) = false
    /\ Re.search strange_symbol (lower Examples.ucd folder_path) = false
    /\ Re.search bad_root_variant (lower Examples.ucd folder_path) = false.
Proof.
  apply (root_token_in_deeper_segment_rejected Examples.ucd).
  exact ucd_ascii.
Defined.

(** ** Path normalizer *)



(** ** Classification oracle *)

(** C8, as the code has it.  [classify_email] sends one request, whatever
    comes of it: there is no retry.  It raises [RuntimeError] exactly when
    a response comes back with a status other than 200.  With status 200
    it returns the text of the first choice, stripped, or the fallback path
    when nothing is left of it; a body without such a text, or no response
    at all, makes the call fail with another exception. *)
Theorem classify_email_outcome (U : UnicodeData) (make_prompt : Mail -> cache -> str)
    (mail : Mail) (known_folders : cache) (net : Network) :
  let prompt := make_prompt mail known_folders in
  let r := classify_email U make_prompt mail known_folders net in
  posts r.2 = S (posts net)
  /\ (forall status body,
        r.1 = inl (RuntimeError status body) <->
        exists response,
          service net (posts net) prompt = Answer response
          /\ status_code response <> 200%Z
          /\ status = status_code response /\ body = text response)
  /\ (forall response s,
        service net (posts net) prompt = Answer response ->
        status_code response = 200%Z ->
        suggestion response = Some s ->
        r.1 = inr (match strip U s with [] => FALLBACK_PATH | _ => strip U s end))
  /\ (forall response,
        service net (posts net) prompt = Answer response ->
        status_code response = 200%Z ->
        suggestion response = None ->
        exists e, r.1 = inl e
                  /\ In e [JSONDecodeError; KeyError; IndexError; TypeError;
                           AttributeError])
  /\ (service net (posts net) prompt = NoAnswer -> r.1 = inl ConnectionError).
Proof.
  unfold classify_email, requests_post; simpl.
  destruct (service net (posts net) (make_prompt mail known_folders))
    as [|response] eqn:Eservice; simpl.
  - split; [reflexivity|]. split.
    { intros status body. split; [discriminate | intros (r & [=] & _)]. }
    split; [discriminate|]. split; [discriminate | reflexivity].
  - destruct (Z.eqb_spec (status_code response) 200) as [H200|Hnot]; simpl.
    + pose proof (read_folder_cases U response) as Hread. simpl in Hread.
      split; [reflexivity|]. split.
      { intros status body. split.
        - revert Hread. destruct (suggestion response) as [s|]; intros Hread.
          + rewrite Hread. discriminate.
          + destruct Hread as (e & -> & He). intros [= ->].
            unfold lookup_error in He. simpl in He. intuition discriminate.
        - intros (r & [= <-] & Hne & _). contradiction. }
      split.
      { intros r s [= <-] _ Hs. rewrite Hs in Hread. exact Hread. }
      split; [|discriminate].
      intros r [= <-] _ Hs. rewrite Hs in Hread. exact Hread.
    + split; [reflexivity|]. split.
      { intros status body. split.
        - intros [= <- <-]. exists response. repeat split; auto.
        - intros (r & [= <-] & _ & -> & ->). reflexivity. }
      split; [intros r s [= <-] H; contradiction|].
      split; [intros r [= <-] H; contradiction | discriminate].
Qed.

(** C8 fails as stated.  A response with status 200 and an empty list of
    choices makes the call fail (with [IndexError]) although the response
    is a success; and a response with status 200 whose text is blank makes
    the call return the fallback path, not the text. *)
Lemma classify_email_fails_on_success :
  (classify_email Examples.ucd Examples.make_prompt Examples.mail ∅
     (Examples.answering Examples.no_choices)).1
  = inl IndexError
  /\ suggestion {| status_code := 200; text := [];
                   json := Some (Examples.choice (py "   ")) |}
     = Some (py "   ")
  /\ (classify_email Examples.ucd Examples.make_prompt Examples.mail ∅
        (Examples.answering (Examples.choice (py "   ")))).1
     = inr (py "Postvak In/Unsorted").
Proof. vm_compute. repeat split; reflexivity. Qed.

(** * Further properties *)

(** ** The tree under the resolver *)

Lemma subfolder_app (t : Folder) (h1 h2 : handle) :
  subfolder t (h1 ++ h2) =
  match subfolder t h1 with
  | Some f => subfolder f h2
  | None => None
  end.
Proof.
  revert t; induction h1 as [|i h1 IH]; intros t; simpl; [reflexivity|].
  destruct (Folders t !! i) as [child|]; [apply IH | reflexivity].
Qed.

Lemma children_names_lookup (t : Folder) (h : handle) (i : nat) :
  children_names t h !! i = Name <$> subfolder t (h ++ [i]).
Proof.
  unfold children_names. rewrite subfolder_app.
  destruct (subfolder t h) as [f|]; simpl; [|reflexivity].
  rewrite list_lookup_fmap. destruct (Folders f !! i); reflexivity.
Qed.

Lemma index_of_lookup (part : str) (names : list str) (i : nat) :
  index_of part names = Some i -> names !! i = Some part.
Proof.
  revert i; induction names as [|n names IH]; simpl; intros i; [discriminate|].
  case_bool_decide as Hn.
  - intros [= <-]. simpl. f_equal. exact Hn.
  - destruct (index_of part names) as [j|]; simpl; [|discriminate].
    intros [= <-]. simpl. apply IH. reflexivity.
Qed.

Lemma index_of_None (part : str) (names : list str) :
  index_of part names = None -> ~ In part names.
Proof.
  induction names as [|n names IH]; simpl; [intros _ []|].
  case_bool_decide as Hn; [discriminate|].
  destruct (index_of part names); simpl; [discriminate|].
  intros _ [H | H]; [exact (Hn H) | exact (IH eq_refl H)].
Qed.

(** A tree that extends another keeps its folders where they were, under
    their names. *)
Lemma extends_keeps_folders (t t' : Folder) (h : handle) (f : Folder) :
  extends t t' -> Name t' = Name t ->
  subfolder t h = Some f ->
  exists f', subfolder t' h = Some f' /\ Name f' = Name f.
Proof.
  intros Hext Hname. destruct h as [|i h _] using rev_ind.
  - simpl. intros [= <-]. exists t'. split; [reflexivity | exact Hname].
  - intros Hf.
    assert (Hl : children_names t h !! i = Some (Name f)).
    { rewrite children_names_lookup, Hf. reflexivity. }
    apply (prefix_lookup_Some _ _ _ _ Hl) in Hext as Hl'.
    rewrite children_names_lookup in Hl'.
    destruct (subfolder t' (h ++ [i])) as [f'|]; [|discriminate].
    exists f'. split; [reflexivity|]. simpl in Hl'. congruence.
Qed.

Section WalkMore.

Variable U : UnicodeData.
Variable create : bool.

Lemma Name_Folders_Add (tree : Folder) (folder : handle) (part : str) :
  Name (Folders_Add tree folder part).1 = Name tree.
Proof.
  unfold Folders_Add. destruct (subfolder tree folder); simpl; [|reflexivity].
  apply Name_alter_at. reflexivity.
Qed.

(** One turn of the loop: the child entered is the first child of that
    name in the tree the turn leaves, which extends the tree it found. *)
Lemma enter_spec (tree : Folder) (folder : handle) (part : str)
    (tree1 : Folder) (sub : handle) :
  is_Some (subfolder tree folder) ->
  enter create tree folder part = Some (tree1, sub) ->
  exists i, sub = folder ++ [i] /\ extends tree tree1 /\ Name tree1 = Name tree
            /\ find_child tree1 folder part = Some i
            /\ (find_child tree folder part = None ->
                create = true
                /\ children_names tree1 folder = children_names tree folder ++ [part]
                /\ children_names tree1 sub = []
                /\ forall q, q <> folder -> q <> sub ->
                             children_names tree1 q = children_names tree q).
Proof.
  intros Hv. unfold enter.
  destruct (find_child tree folder part) as [i|] eqn:Hf.
  - intros [= <- <-]. exists i. split; [reflexivity|].
    split; [apply extends_refl|]. split; [reflexivity|].
    split; [exact Hf | discriminate].
  - destruct create; [|discriminate]. intros Hadd.
    destruct (Folders_Add_spec tree folder part Hv Hf)
      as (tree' & sub' & i & Hadd' & -> & Hext & Hf1).
    pose proof (Name_Folders_Add tree folder part) as Hname.
    rewrite Hadd' in Hadd, Hname. injection Hadd as <- <-. simpl in Hname.
    exists i. split; [reflexivity|]. split; [exact Hext|].
    split; [exact Hname|]. split; [exact Hf1|].
    intros _. split; [reflexivity|].
    destruct Hv as [f Hsub]. unfold Folders_Add in Hadd'. rewrite Hsub in Hadd'.
    injection Hadd' as <- Hi.
    assert (Hi' : i = length (Folders f)).
    { apply (f_equal last) in Hi. rewrite !last_snoc in Hi. congruence. }
    clear Hi. subst i.
    split; [apply append_child_names; rewrite Hsub; eauto|].
    clear Hf Hf1 Hext Hname.
    revert tree f Hsub. induction folder as [|j folder IH]; intros tree f Hsub.
    + simpl in Hsub. injection Hsub as ->. split.
      * unfold children_names; simpl.
        rewrite lookup_app_r by lia. rewrite Nat.sub_diag. reflexivity.
      * intros [|k q] Hq1 Hq2; [congruence|].
        rewrite !children_names_cons. simpl.
        destruct (decide (k < length (Folders f))%nat) as [Hlt|Hge].
        -- rewrite lookup_app_l by exact Hlt. reflexivity.
        -- rewrite (lookup_ge_None_2 (Folders f) k) by lia.
           destruct (decide (k = length (Folders f))) as [->|Hne].
           ++ rewrite lookup_app_r by lia. rewrite Nat.sub_diag. simpl.
              destruct q as [|k' q]; [exfalso; apply Hq2; reflexivity|].
              rewrite children_names_cons. reflexivity.
           ++ rewrite lookup_ge_None_2; [reflexivity|].
              rewrite length_app. simpl. lia.
    + simpl in Hsub. destruct (Folders tree !! j) as [child|] eqn:Hchild;
        [|discriminate].
      destruct (IH child f Hsub) as [IH1 IH2]. split.
      * simpl app. rewrite children_names_cons. simpl.
        rewrite list_lookup_alter_eq, Hchild. simpl. exact IH1.
      * intros [|k q] Hq1 Hq2.
        -- unfold children_names; simpl. apply names_alter.
           intros g. apply Name_alter_at. reflexivity.
        -- rewrite !children_names_cons. simpl.
           destruct (decide (j = k)) as [<-|Hne].
           ++ rewrite list_lookup_alter_eq, Hchild. simpl.
              apply IH2; intros ->; [apply Hq1 | apply Hq2]; reflexivity.
           ++ rewrite list_lookup_alter_ne by exact Hne. reflexivity.
Qed.

End WalkMore.

(** ** Recording paths *)

Section RecordMore.

Variable U : UnicodeData.

Lemma record_all_lookup_last (paths : list str) (kf : cache) (key : str) :
  record_all U paths kf !! key =
  match last_with_key U key paths with
  | Some q => Some q
  | None => kf !! key
  end.
Proof.
  revert kf; induction paths as [|p paths IH]; intros kf; simpl; [reflexivity|].
  change (record_all U paths (<[normalize_name U p := p]> kf) !! key = 
          match match last_with_key U key paths with
                | Some q => Some q
                | None => if bool_decide (normalize_name U p = key) then Some p else None
                end with
          | Some q => Some q
          | None => kf !! key
          end).
  rewrite IH. destruct (last_with_key U key paths); [reflexivity|].
  case_bool_decide as Hk.
  - rewrite <- Hk. apply lookup_insert_eq.
  - apply lookup_insert_ne, Hk.
Qed.

Lemma last_with_key_spec (key : str) (paths : list str) :
  match last_with_key U key paths with
  | Some q => In q paths /\ normalize_name U q = key
  | None => forall p, In p paths -> normalize_name U p <> key
  end.
Proof.
  induction paths as [|p paths IH]; simpl; [intros p []|].
  destruct (last_with_key U key paths) as [q|].
  - destruct IH as [Hin Hk]. split; [right; exact Hin | exact Hk].
  - case_bool_decide as Hk.
    + split; [left; reflexivity | exact Hk].
    + intros p' [<- | Hin]; [exact Hk | apply IH, Hin].
Qed.

Lemma record_all_twice (paths : list str) (kf : cache) :
  record_all U paths (record_all U paths kf) = record_all U paths kf.
Proof.
  apply map_eq. intros key. rewrite !record_all_lookup_last.
  destruct (last_with_key U key paths); reflexivity.
Qed.

End RecordMore.

(** ** The walk, with or without creation *)

Section WalkSpec.

Variable U : UnicodeData.
Variable create : bool.

Lemma descend_valid (t : Folder) (folder : handle) (parts : list str) (node : handle) :
  is_Some (subfolder t folder) ->
  descend t folder parts = Some node -> is_Some (subfolder t node).
Proof.
  revert folder; induction parts as [|part rest IH]; intros folder Hv; simpl.
  - intros [= <-]. exact Hv.
  - destruct (find_child t folder part) as [i|] eqn:Hf; [|discriminate].
    apply IH. exact (find_child_valid _ _ _ _ Hv Hf).
Qed.

Lemma descend_extends (t t' : Folder) (folder : handle) (parts : list str)
    (node : handle) :
  extends t t' ->
  descend t folder parts = Some node -> descend t' folder parts = Some node.
Proof.
  intros Hext. revert folder; induction parts as [|part rest IH]; intros folder;
    simpl; [trivial|].
  destruct (find_child t folder part) as [i|] eqn:Hf; [|discriminate].
  rewrite (find_child_extends _ _ _ _ _ Hext Hf). apply IH.
Qed.

(** The folder a plain walk reaches bears the name of the last part. *)
Lemma descend_name (t : Folder) (folder : handle) (parts : list str) (node : handle) :
  parts <> [] ->
  descend t folder parts = Some node ->
  exists f, subfolder t node = Some f /\ last parts = Some (Name f).
Proof.
  revert folder; induction parts as [|part rest IH]; intros folder Hne;
    [congruence|]. simpl.
  destruct (find_child t folder part) as [i|] eqn:Hf; [|discriminate].
  destruct rest as [|part2 rest].
  - simpl. intros [= <-]. rewrite find_child_names in Hf.
    apply index_of_lookup in Hf. rewrite children_names_lookup in Hf.
    destruct (subfolder t (folder ++ [i])) as [f|]; [|discriminate].
    exists f. split; [reflexivity|]. simpl in Hf. congruence.
  - intros Hd. destruct (IH (folder ++ [i])) as (f & Hsub & Hlast);
      [discriminate | exact Hd|].
    exists f. split; [exact Hsub | exact Hlast].
Qed.

Lemma no_twins_enter (tree : Folder) (folder : handle) (part : str)
    (tree1 : Folder) (sub : handle) :
  is_Some (subfolder tree folder) ->
  enter create tree folder part = Some (tree1, sub) ->
  no_twins tree -> no_twins tree1.
Proof.
  intros Hv Henter Htw.
  destruct (enter_spec create tree folder part tree1 sub Hv Henter)
    as (i & -> & _ & _ & _ & Hnew).
  destruct (find_child tree folder part) as [j|] eqn:Hf.
  - unfold enter in Henter. rewrite Hf in Henter. injection Henter as <- _.
    exact Htw.
  - destruct (Hnew eq_refl) as (_ & Hat & Hsub & Hother). intros q.
    destruct (decide (q = folder)) as [->|Hq1].
    + rewrite Hat. apply NoDup_app. split; [apply Htw|].
      split; [|apply NoDup_singleton].
      intros x Hx Hx'. apply list_elem_of_singleton in Hx'. subst x.
      rewrite find_child_names in Hf. apply index_of_None in Hf.
      apply Hf. apply list_elem_of_In. exact Hx.
    + destruct (decide (q = folder ++ [i])) as [->|Hq2].
      * rewrite Hsub. apply NoDup_nil. exact I.
      * rewrite (Hother q Hq1 Hq2). apply Htw.
Qed.

(** What a walk does, whatever the switch says. *)
Lemma walk_spec (parts : list str) (tree : Folder) (kf : cache)
    (folder : handle) (rp : str) :
  is_Some (subfolder tree folder) ->
  extends tree (walk_tree (walk U create parts tree kf folder rp))
  /\ Name (walk_tree (walk U create parts tree kf folder rp)) = Name tree
  /\ (no_twins tree -> no_twins (walk_tree (walk U create parts tree kf folder rp)))
  /\ match walk U create parts tree kf folder rp with
     | Finished tree' kf' node rp' =>
         descend tree' folder parts = Some node
         /\ kf' = record_all U (cumulative_paths rp parts) kf
         /\ (create = false -> tree' = tree)
     | Abandoned tree' kf' =>
         create = false /\ tree' = tree /\ descend tree folder parts = None
     end.
Proof.
  revert tree kf folder rp; induction parts as [|part rest IH];
    intros tree kf folder rp Hv; simpl.
  - split; [apply extends_refl|]. split; [reflexivity|]. split; [trivial|].
    split; [reflexivity|]. split; [reflexivity | trivial].
  - destruct (enter create tree folder part) as [[tree1 sub]|] eqn:Henter.
    + destruct (enter_spec create tree folder part tree1 sub Hv Henter)
        as (i & -> & Hext1 & Hname1 & Hf1 & Hnew).
      assert (Hv1 : is_Some (subfolder tree1 (folder ++ [i]))).
      { apply (find_child_valid _ _ part); [|exact Hf1].
        exact (extends_valid _ _ _ Hext1 Hv). }
      specialize (IH tree1 (<[normalize_name U (rp ++ SLASH :: part) := rp ++ SLASH :: part]> kf)
                    (folder ++ [i]) (rp ++ SLASH :: part) Hv1).
      destruct IH as (Hext & Hname & Htw & Hres).
      split; [exact (extends_trans _ _ _ Hext1 Hext)|].
      split; [congruence|].
      split; [intros H; apply Htw; exact (no_twins_enter _ _ _ _ _ Hv Henter H)|].
      assert (Hsame : create = false -> tree1 = tree).
      { intros Hc. unfold enter in Henter. rewrite Hc in Henter.
        destruct (find_child tree folder part); [|discriminate].
        injection Henter as <- _. reflexivity. }
      destruct (walk U create rest tree1 _ (folder ++ [i]) (rp ++ SLASH :: part))
        as [tree' kf' node rp'|tree' kf']; simpl in *.
      * destruct Hres as (Hd & Hkf & Htree). split.
        -- rewrite (find_child_extends _ _ _ _ _ Hext Hf1). exact Hd.
        -- split; [exact Hkf|]. intros Hc. rewrite (Htree Hc). exact (Hsame Hc).
      * destruct Hres as (Hc & -> & Hd). specialize (Hsame Hc). subst tree1.
        split; [exact Hc|]. split; [reflexivity|].
        rewrite Hf1. exact Hd.
    + simpl. split; [apply extends_refl|]. split; [reflexivity|].
      split; [trivial|]. unfold enter in Henter.
      destruct (find_child tree folder part); [discriminate|].
      destruct create; [discriminate|]. repeat split; reflexivity.
Qed.

(** With creation allowed a walk is never given up. *)
Lemma walk_finishes (parts : list str) (tree : Folder) (kf : cache)
    (folder : handle) (rp : str) :
  is_Some (subfolder tree folder) ->
  create = true \/ is_Some (descend tree folder parts) ->
  exists tree' kf' node rp',
    walk U create parts tree kf folder rp = Finished tree' kf' node rp'.
Proof.
  intros Hv Hor. pose proof (walk_spec parts tree kf folder rp Hv) as (_ & _ & _ & H).
  destruct (walk U create parts tree kf folder rp) as [tree' kf' node rp'|tree' kf'];
    [eauto|].
  destruct H as (Hc & _ & Hd). destruct Hor as [Ht | [x Hx]]; congruence.
Qed.

End WalkSpec.

(** ** Checking a tree by computation *)

Lemma children_names_child (name : str) (fs : list Folder) (i : nat) (h : handle)
    (child : Folder) :
  fs !! i = Some child ->
  children_names (MkFolder name fs) (i :: h) = children_names child h.
Proof. intros H. rewrite children_names_cons. simpl. rewrite H. reflexivity. Qed.

Lemma children_names_outside (name : str) (fs : list Folder) (i : nat) (h : handle) :
  fs !! i = None -> children_names (MkFolder name fs) (i :: h) = [].
Proof. intros H. rewrite children_names_cons. simpl. rewrite H. reflexivity. Qed.

Lemma no_twins_b_sound (tree : Folder) : no_twins_b tree = true -> no_twins tree.
Proof.
  induction tree as [name fs IH] using Folder_rect'. simpl.
  intros H. apply andb_prop in H as [Hroot Hall]. apply bool_decide_eq_true in Hroot.
  assert (Hsub : forall i child, fs !! i = Some child -> no_twins child).
  { clear Hroot. induction IH as [|f fs Hf _ IHfs]; intros i child Hi;
      [discriminate|].
    apply andb_prop in Hall as [H1 H2]. destruct i as [|i]; simpl in Hi.
    - injection Hi as <-. exact (Hf H1).
    - exact (IHfs H2 i child Hi). }
  intros [|i h]; [exact Hroot|].
  destruct (fs !! i) as [child|] eqn:Hi.
  - rewrite (children_names_child _ _ _ _ _ Hi). exact (Hsub i child Hi h).
  - rewrite (children_names_outside _ _ _ _ Hi). apply NoDup_nil. exact I.
Qed.

Lemma slash_free_b_sound (tree : Folder) : slash_free_b tree = true -> slash_free tree.
Proof.
  induction tree as [name fs IH] using Folder_rect'. simpl. intros Hall.
  assert (Hsub : Forall (fun f => ~ In SLASH (Name f)) fs
                 /\ forall i child, fs !! i = Some child -> slash_free child).
  { induction IH as [|f fs Hf _ IHfs]; [split; [constructor | discriminate]|].
    apply andb_prop in Hall as [H1 H3]. apply andb_prop in H1 as [H1 H2].
    destruct (IHfs H3) as [Hnames Hkids]. split.
    - constructor; [|exact Hnames]. intros Hin.
      apply negb_true_iff in H1.
      assert (existsb (N.eqb SLASH) (Name f) = true); [|congruence].
      apply existsb_exists. exists SLASH. split; [exact Hin | apply N.eqb_refl].
    - intros [|i] child Hi; simpl in Hi.
      + injection Hi as <-. exact (Hf H2).
      + exact (Hkids i child Hi). }
  destruct Hsub as [Hnames Hkids]. intros [|i h].
  - unfold children_names. simpl. apply Forall_fmap. exact Hnames.
  - destruct (fs !! i) as [child|] eqn:Hi.
    + rewrite (children_names_child _ _ _ _ _ Hi). exact (Hkids i child Hi h).
    + rewrite (children_names_outside _ _ _ _ Hi). constructor.
Qed.

(** ** What the resolver does to the tree and to the cache *)

Section ResolverMore.

Variable U : UnicodeData.
Variable create : bool.

Lemma resolve_walk (tree : Folder) (kf : cache) (path : str) :
  exists p0 rest,
    split SLASH (effective_path U kf path) = p0 :: rest
    /\ get_or_create_folder U create tree kf path =
       match walk U create rest tree kf [] p0 with
       | Finished tree' kf' node _ => (tree', kf', node)
       | Abandoned tree' kf' => (tree', kf', unsorted_or_root tree')
       end.
Proof.
  unfold get_or_create_folder.
  destruct (split SLASH (effective_path U kf path)) as [|p0 rest] eqn:Es.
  - exfalso. exact (split_nonempty _ _ Es).
  - exists p0, rest. split; reflexivity.
Qed.

Lemma resolve_tree (tree : Folder) (kf : cache) (path : str) :
  exists p0 rest,
    split SLASH (effective_path U kf path) = p0 :: rest
    /\ (get_or_create_folder U create tree kf path).1.1
       = walk_tree (walk U create rest tree kf [] p0)
    /\ (get_or_create_folder U create tree kf path).1.2
       = walk_cache (walk U create rest tree kf [] p0).
Proof.
  destruct (resolve_walk tree kf path) as (p0 & rest & Hs & ->).
  exists p0, rest. split; [exact Hs|].
  destruct (walk U create rest tree kf [] p0); split; reflexivity.
Qed.

End ResolverMore.

(** X1. The resolver never removes, moves or renames a folder: whatever
    the switch and the path, a folder of the tree is still there
    afterwards, at the same place and under the same name. *)
Theorem resolver_keeps_every_folder (U : UnicodeData) (create : bool)
    (tree : Folder) (known_folders : cache) (folder_path : str)
    (h : handle) (f : Folder) :
  subfolder tree h = Some f ->
  exists f',
    subfolder (get_or_create_folder U create tree known_folders folder_path).1.1 h
    = Some f'
    /\ Name f' = Name f.
Proof.
  intros Hf.
  destruct (resolve_tree U create tree known_folders folder_path)
    as (p0 & rest & _ & -> & _).
  destruct (walk_spec U create rest tree known_folders [] p0) as (Hext & Hname & _);
    [simpl; eauto|].
  exact (extends_keeps_folders _ _ _ _ Hext Hname Hf).
Qed.

Lemma resolver_keeps_every_folder_witness :
  exists f',
    subfolder (get_or_create_folder Examples.ucd true Examples.inbox ∅
                 (py "Postvak In/Orders/Returns")).1.1 [1%nat; 0%nat]
    = Some f'
    /\ Name f' = Name (MkFolder (py "Invoices") []).
Proof.
  apply (resolver_keeps_every_folder Examples.ucd true Examples.inbox ∅
           (py "Postvak In/Orders/Returns") [1%nat; 0%nat]).
  reflexivity.
Defined.

(** X2. The resolver makes no twins: if no folder of the tree has two
    children of the same name, that is still so afterwards. *)
Theorem resolver_makes_no_twins (U : UnicodeData) (create : bool)
    (tree : Folder) (known_folders : cache) (folder_path : str) :
  no_twins tree ->
  no_twins (get_or_create_folder U create tree known_folders folder_path).1.1.
Proof.
  intros Htw.
  destruct (resolve_tree U create tree known_folders folder_path)
    as (p0 & rest & _ & -> & _).
  destruct (walk_spec U create rest tree known_folders [] p0) as (_ & _ & H & _);
    [simpl; eauto|].
  exact (H Htw).
Qed.

Lemma resolver_makes_no_twins_witness :
  no_twins (get_or_create_folder Examples.ucd true Examples.inbox ∅
              (py "Postvak In/Orders/Returns")).1.1.
Proof.
  apply (resolver_makes_no_twins Examples.ucd true Examples.inbox ∅
           (py "Postvak In/Orders/Returns")).
  apply no_twins_b_sound. vm_compute. reflexivity.
Defined.

(** X3. When creation is allowed, or every segment of the path is there
    already, the folder returned is the one a plain first-match walk of the
    path reaches in the tree left behind; if the path has a slash, that
    folder bears the name of the last segment. *)
Theorem resolver_returns_walked_folder (U : UnicodeData) (create : bool)
    (tree : Folder) (known_folders : cache) (folder_path : str) :
  let parts := split SLASH (effective_path U known_folders folder_path) in
  let r := get_or_create_folder U create tree known_folders folder_path in
  create = true \/ is_Some (descend tree [] (tail parts)) ->
  descend r.1.1 [] (tail parts) = Some r.2
  /\ (In SLASH (effective_path U known_folders folder_path) ->
      exists f, subfolder r.1.1 r.2 = Some f /\ last parts = Some (Name f)).
Proof.
  intros parts r Hor. subst parts r.
  destruct (resolve_walk U create tree known_folders folder_path)
    as (p0 & rest & Hs & ->).
  rewrite Hs in *. simpl tail in *.
  assert (Hv : is_Some (subfolder tree [])) by (simpl; eauto).
  destruct (walk_finishes U create rest tree known_folders [] p0 Hv Hor)
    as (tree' & kf' & node & rp' & Hw).
  pose proof (walk_spec U create rest tree known_folders [] p0 Hv) as (_ & _ & _ & H).
  rewrite Hw in *. simpl. destruct H as (Hd & _ & _).
  split; [exact Hd|]. intros Hin.
  assert (Hrest : rest <> []).
  { intros ->. exact (split_single _ _ _ Hs Hin). }
  destruct (descend_name tree' [] rest node Hrest Hd) as (f & Hf & Hlast).
  exists f. split; [exact Hf|].
  rewrite <- Hlast. destruct rest; [congruence | reflexivity].
Qed.

Lemma resolver_returns_walked_folder_witness :
  let parts := split SLASH (effective_path Examples.ucd ∅ (py "Postvak In/Orders/Returns")) in
  let r := get_or_create_folder Examples.ucd true Examples.inbox ∅
             (py "Postvak In/Orders/Returns") in
  descend r.1.1 [] (tail parts) = Some r.2
  /\ (In SLASH (effective_path Examples.ucd ∅ (py "Postvak In/Orders/Returns")) ->
      exists f, subfolder r.1.1 r.2 = Some f /\ last parts = Some (Name f)).
Proof.
  apply (resolver_returns_walked_folder Examples.ucd true Examples.inbox ∅
           (py "Postvak In/Orders/Returns")).
  left. reflexivity.
Defined.

Lemma walk_cache_prefix (U : UnicodeData) (create : bool) (parts : list str)
    (tree : Folder) (kf : cache) (folder : handle) (rp : str) :
  exists l, l `prefix_of` cumulative_paths rp parts
            /\ walk_cache (walk U create parts tree kf folder rp) = record_all U l kf.
Proof.
  revert tree kf folder rp; induction parts as [|part rest IH];
    intros tree kf folder rp; simpl.
  - exists []. split; [reflexivity | reflexivity].
  - destruct (enter create tree folder part) as [[tree1 sub]|].
    + destruct (IH tree1 (<[normalize_name U (rp ++ SLASH :: part) := rp ++ SLASH :: part]> kf)
                  sub (rp ++ SLASH :: part)) as (l & Hl & ->).
      exists ((rp ++ SLASH :: part) :: l). split; [|reflexivity].
      apply prefix_cons, Hl.
    + exists []. split; [apply prefix_nil | reflexivity].
Qed.

(** X4. The resolver writes to the cache only under the canonical keys of
    the cumulative paths of the path it walks, and when the walk goes
    through (creation allowed, or every segment there already), each of
    those keys leads to a cumulative path of that key afterwards. *)
Theorem resolver_cache_writes (U : UnicodeData) (create : bool)
    (tree : Folder) (known_folders : cache) (folder_path : str) :
  let parts := split SLASH (effective_path U known_folders folder_path) in
  let walked := cumulative_paths (List.hd [] parts) (tail parts) in
  let r := get_or_create_folder U create tree known_folders folder_path in
  (forall key, (forall p, In p walked -> normalize_name U p <> key) ->
               r.1.2 !! key = known_folders !! key)
  /\ (create = true \/ is_Some (descend tree [] (tail parts)) ->
      forall p, In p walked ->
        exists q, r.1.2 !! normalize_name U p = Some q
                  /\ In q walked /\ normalize_name U q = normalize_name U p).
Proof.
  intros parts walked r. subst parts walked r.
  destruct (resolve_tree U create tree known_folders folder_path)
    as (p0 & rest & Hs & _ & Hcache).
  rewrite Hs, Hcache. simpl List.hd. simpl tail. split.
  - intros key Hkey.
    destruct (walk_cache_prefix U create rest tree known_folders [] p0)
      as (l & [more Hl] & ->).
    rewrite record_all_lookup_last.
    pose proof (last_with_key_spec U key l) as Hspec.
    destruct (last_with_key U key l) as [q|]; [|reflexivity].
    destruct Hspec as [Hin Hq]. exfalso. apply (Hkey q); [|exact Hq].
    rewrite Hl. apply in_or_app. left. exact Hin.
  - intros Hor p Hp.
    assert (Hv : is_Some (subfolder tree [])) by (simpl; eauto).
    destruct (walk_finishes U create rest tree known_folders [] p0 Hv Hor)
      as (tree' & kf' & node & rp' & Hw).
    pose proof (walk_spec U create rest tree known_folders [] p0 Hv) as (_ & _ & _ & H).
    rewrite Hw in *. simpl. destruct H as (_ & -> & _).
    destruct (record_all_lookup U _ known_folders p Hp) as (q & Hq & Hin & Hk).
    exists q. split; [exact Hq|]. split; [exact Hin | exact Hk].
Qed.

(** X5. With creation not allowed the resolver never changes the tree,
    whatever the path; it returns the folder a plain first-match walk of
    the path reaches, and falls back to [Unsorted] or the root only when
    that walk fails. *)
Theorem resolver_without_creation_reads_only (U : UnicodeData)
    (tree : Folder) (known_folders : cache) (folder_path : str) :
  let parts := split SLASH (effective_path U known_folders folder_path) in
  let r := get_or_create_folder U false tree known_folders folder_path in
  r.1.1 = tree
  /\ r.2 = match descend tree [] (tail parts) with
           | Some node => node
           | None => unsorted_or_root tree
           end.
Proof.
  intros parts r. subst parts r.
  destruct (resolve_walk U false tree known_folders folder_path)
    as (p0 & rest & Hs & ->).
  rewrite Hs. simpl tail.
  pose proof (walk_read_only U false rest tree known_folders [] p0 eq_refl) as Hw.
  destruct (descend tree [] rest) as [node|].
  - destruct Hw as (kf' & rp' & ->). split; reflexivity.
  - destruct Hw as (kf' & ->). split; reflexivity.
Qed.

(** ** The rebuild *)

(** X6. Rebuilding the cache twice from the same tree gives what
    rebuilding it once gives. *)
Theorem rebuild_twice (U : UnicodeData) (root : Folder) (base : str)
    (known_folders : cache) :
  build_folder_cache U root base (build_folder_cache U root base known_folders)
  = build_folder_cache U root base known_folders.
Proof. rewrite !build_folder_cache_paths. apply record_all_twice. Qed.

(** X7. The rebuild invents nothing: an entry of the cache afterwards was
    there before, or it is the real path of a folder below the root, under
    the canonical key of that path. *)
Theorem rebuild_holds_real_paths (U : UnicodeData) (root : Folder) (base : str)
    (known_folders : cache) (key real : str) :
  build_folder_cache U root base known_folders !! key = Some real ->
  known_folders !! key = Some real
  \/ (key = normalize_name U real
      /\ exists h, h <> [] /\ real_path_of root base h = Some real).
Proof.
  rewrite build_folder_cache_paths, record_all_lookup_last.
  pose proof (last_with_key_spec U key (folder_paths root base)) as Hspec.
  destruct (last_with_key U key (folder_paths root base)) as [q|].
  - intros [= ->]. destruct Hspec as [Hin Hk]. right.
    split; [symmetry; exact Hk|]. apply folder_paths_real, Hin.
  - intros H. left. exact H.
Qed.

Lemma rebuild_holds_real_paths_witness :
  (∅ : cache) !! py "postvak in/orders" = Some (py "Postvak In/Orders")
  \/ (py "postvak in/orders" = normalize_name Examples.ucd (py "Postvak In/Orders")
      /\ exists h, h <> []
           /\ real_path_of Examples.inbox (py "Postvak In") h
              = Some (py "Postvak In/Orders")).
Proof.
  apply (rebuild_holds_real_paths Examples.ucd Examples.inbox (py "Postvak In") ∅).
  vm_compute. reflexivity.
Defined.

(** ** From the rebuild to the resolver *)

Lemma join_after_cons (sep : N) (p0 r : str) (rest : list str) :
  join_after sep p0 (r :: rest) = p0 ++ sep :: join_after sep r rest.
Proof.
  simpl. rewrite join_after_app, (join_after_app sep r rest).
  rewrite <- app_assoc. reflexivity.
Qed.

Lemma split_app_sep (sep : N) (p s : str) :
  ~ In sep p -> split sep (p ++ sep :: s) = p :: split sep s.
Proof.
  induction p as [|c p IH]; simpl; intros Hp.
  - rewrite N.eqb_refl. reflexivity.
  - destruct (N.eqb_spec c sep) as [->|_]; [exfalso; apply Hp; left; reflexivity|].
    rewrite IH; [reflexivity | intros H; apply Hp; right; exact H].
Qed.

(** Splitting undoes joining when no part has the separator in it. *)
Lemma split_join_after (sep : N) (p0 : str) (rest : list str) :
  ~ In sep p0 -> Forall (fun p => ~ In sep p) rest ->
  split sep (join_after sep p0 rest) = p0 :: rest.
Proof.
  intros Hp0 Hrest. revert p0 Hp0; induction Hrest as [|r rest Hr _ IH]; intros p0 Hp0.
  - simpl. apply split_no_sep, Hp0.
  - rewrite join_after_cons, split_app_sep by exact Hp0.
    rewrite (IH r Hr). reflexivity.
Qed.

Lemma real_path_names (tree : Folder) (base : str) (h : handle) (p : str) :
  real_path_of tree base h = Some p ->
  exists names, names_along tree h = Some names /\ p = join_after SLASH base names.
Proof.
  revert tree base; induction h as [|i h IH]; intros tree base; simpl.
  - intros [= <-]. exists []. split; reflexivity.
  - destruct (Folders tree !! i) as [child|]; [|discriminate].
    intros Hp. destruct (IH _ _ Hp) as (names & -> & ->).
    exists (Name child :: names). split; reflexivity.
Qed.

Lemma find_child_cons (t child : Folder) (i : nat) (folder : handle) (part : str) :
  Folders t !! i = Some child ->
  find_child t (i :: folder) part = find_child child folder part.
Proof. intros H. unfold find_child. simpl. rewrite H. reflexivity. Qed.

Lemma descend_cons (t child : Folder) (i : nat) (folder : handle) (parts : list str) :
  Folders t !! i = Some child ->
  descend t (i :: folder) parts = cons i <$> descend child folder parts.
Proof.
  intros H. revert folder; induction parts as [|part rest IH]; intros folder; simpl;
    [reflexivity|].
  rewrite (find_child_cons _ _ _ _ _ H).
  destruct (find_child child folder part) as [j|]; [|reflexivity].
  exact (IH (folder ++ [j])).
Qed.

Lemma index_of_NoDup (names : list str) (i : nat) (x : str) :
  NoDup names -> names !! i = Some x -> index_of x names = Some i.
Proof.
  intros Hnd. revert i; induction Hnd as [|n names Hn _ IH]; intros i; [discriminate|].
  destruct i as [|i]; simpl.
  - intros [= ->]. rewrite bool_decide_eq_true_2; reflexivity.
  - intros Hi. rewrite bool_decide_eq_false_2.
    + rewrite (IH i Hi). reflexivity.
    + intros ->. apply Hn. apply list_elem_of_lookup. eauto.
Qed.

Lemma no_twins_child (t child : Folder) (i : nat) :
  Folders t !! i = Some child -> no_twins t -> no_twins child.
Proof.
  intros Hi Htw h. specialize (Htw (i :: h)).
  rewrite children_names_cons, Hi in Htw. exact Htw.
Qed.

Lemma slash_free_child (t child : Folder) (i : nat) :
  Folders t !! i = Some child -> slash_free t -> slash_free child.
Proof.
  intros Hi Hsf h. specialize (Hsf (i :: h)).
  rewrite children_names_cons, Hi in Hsf. exact Hsf.
Qed.

(** Without twins, the plain walk of the names down to a folder reaches
    that very folder. *)
Lemma descend_names_along (t : Folder) (h : handle) (names : list str) :
  no_twins t -> names_along t h = Some names -> descend t [] names = Some h.
Proof.
  revert t names; induction h as [|i h IH]; intros t names Htw; simpl.
  - intros [= <-]. reflexivity.
  - destruct (Folders t !! i) as [child|] eqn:Hi; [|discriminate].
    destruct (names_along child h) as [names'|] eqn:Hn; [|discriminate].
    simpl. intros [= <-]. simpl.
    assert (Hf : find_child t [] (Name child) = Some i).
    { rewrite find_child_names. apply index_of_NoDup; [apply Htw|].
      unfold children_names. simpl. rewrite list_lookup_fmap, Hi. reflexivity. }
    rewrite Hf. simpl app. rewrite (descend_cons _ _ _ _ _ Hi).
    rewrite (IH child names' (no_twins_child _ _ _ Hi Htw) Hn). reflexivity.
Qed.

Lemma names_along_slash_free (t : Folder) (h : handle) (names : list str) :
  slash_free t -> names_along t h = Some names ->
  Forall (fun name => ~ In SLASH name) names.
Proof.
  revert t names; induction h as [|i h IH]; intros t names Hsf; simpl.
  - intros [= <-]. constructor.
  - destruct (Folders t !! i) as [child|] eqn:Hi; [|discriminate].
    destruct (names_along child h) as [names'|] eqn:Hn; [|discriminate].
    simpl. intros [= <-]. constructor.
    + specialize (Hsf []). unfold children_names in Hsf. simpl in Hsf.
      rewrite List.Forall_forall in Hsf. apply Hsf.
      apply list_elem_of_In, list_elem_of_fmap. exists child.
      split; [reflexivity|]. apply list_elem_of_lookup. eauto.
    + exact (IH child names' (slash_free_child _ _ _ Hi Hsf) Hn).
Qed.

(** A walk whose parts are all there finds them, creates nothing and
    finishes, whatever the switch says. *)
Lemma walk_found (U : UnicodeData) (create : bool) (parts : list str)
    (tree : Folder) (kf : cache) (folder : handle) (rp : str) (node : handle) :
  descend tree folder parts = Some node ->
  exists kf' rp', walk U create parts tree kf folder rp = Finished tree kf' node rp'.
Proof.
  revert kf folder rp; induction parts as [|part rest IH]; intros kf folder rp; simpl.
  - intros [= <-]. eauto.
  - destruct (find_child tree folder part) as [i|] eqn:Hf; [|discriminate].
    rewrite (enter_found create _ _ _ _ Hf). apply IH.
Qed.

(** X8. From the rebuild to the resolver and back.  Take a tree without
    twins and without a slash in a name, rebuild the cache from it, and
    resolve any path that has the canonical key of the real path of a
    folder below the root, a key no other real path of the tree has: the
    resolver returns that very folder and leaves the tree as it is,
    whatever the switch says. *)
Theorem rebuild_then_resolve (U : UnicodeData) (create : bool) (tree : Folder)
    (base : str) (known_folders : cache) (h : handle) (p folder_path : str) :
  no_twins tree ->
  slash_free tree ->
  ~ In SLASH base ->
  h <> [] ->
  real_path_of tree base h = Some p ->
  (forall h' p', h' <> [] -> real_path_of tree base h' = Some p' ->
                 normalize_name U p' = normalize_name U p -> p' = p) ->
  normalize_name U folder_path = normalize_name U p ->
  let r := get_or_create_folder U create tree
             (build_folder_cache U tree base known_folders) folder_path in
  r.1.1 = tree /\ r.2 = h.
Proof.
  intros Htw Hsf Hbase Hne Hp Huniq Hkey r. subst r.
  assert (Heff : effective_path U (build_folder_cache U tree base known_folders)
                   folder_path = p).
  { unfold effective_path. rewrite Hkey, build_folder_cache_paths.
    assert (Hin : In p (folder_paths tree base)).
    { apply folder_paths_real. exists h. split; assumption. }
    destruct (record_all_lookup U _ known_folders p Hin) as (q & -> & Hinq & Hk).
    apply folder_paths_real in Hinq as (h' & Hne' & Hq').
    exact (Huniq h' q Hne' Hq' Hk). }
  destruct (real_path_names _ _ _ _ Hp) as (names & Hnames & ->).
  pose proof (names_along_slash_free _ _ _ Hsf Hnames) as Hfree.
  pose proof (descend_names_along _ _ _ Htw Hnames) as Hd.
  unfold get_or_create_folder. rewrite Heff.
  rewrite (split_join_after SLASH base names Hbase Hfree). simpl tail.
  destruct (walk_found U create names tree
              (build_folder_cache U tree base known_folders) [] base h Hd)
    as (kf' & rp' & ->).
  split; reflexivity.
Qed.

Lemma rebuild_then_resolve_witness :
  let r := get_or_create_folder Examples.ucd true Examples.inbox
             (build_folder_cache Examples.ucd Examples.inbox (py "Postvak In") ∅)
             (py " postvak in/orders/INVOICES") in
  r.1.1 = Examples.inbox /\ r.2 = [1%nat; 0%nat].
Proof.
  apply (rebuild_then_resolve Examples.ucd true Examples.inbox (py "Postvak In") ∅
           [1%nat; 0%nat] (py "Postvak In/Orders/Invoices")
           (py " postvak in/orders/INVOICES")).
  - apply no_twins_b_sound. vm_compute. reflexivity.
  - apply slash_free_b_sound. vm_compute. reflexivity.
  - vm_compute. intuition discriminate.
  - discriminate.
  - vm_compute. reflexivity.
  - intros h' p' Hne' Hp' Hk.
    assert (Hin : In p' (folder_paths Examples.inbox (py "Postvak In"))).
    { apply folder_paths_real. exists h'. split; assumption. }
    vm_compute in Hin.
    destruct Hin as [<- | [<- | [<- | []]]];
      solve [reflexivity | vm_compute in Hk; discriminate Hk].
  - vm_compute. reflexivity.
Defined.

(** ** Finding the source folder *)

Lemma stroll_valid (tree : Folder) (folder : handle) (parts : list str) :
  is_Some (subfolder tree folder) -> is_Some (subfolder tree (stroll tree folder parts)).
Proof.
  revert folder; induction parts as [|part rest IH]; intros folder Hv; simpl;
    [exact Hv|].
  apply IH. destruct (find_child tree folder part) as [i|] eqn:Hf; [|exact Hv].
  exact (find_child_valid _ _ _ _ Hv Hf).
Qed.

Lemma stroll_app (tree : Folder) (folder : handle) (pre rest : list str) :
  stroll tree folder (pre ++ rest) = stroll tree (stroll tree folder pre) rest.
Proof.
  revert folder; induction pre as [|part pre IH]; intros folder; simpl;
    [reflexivity | apply IH].
Qed.

(** X9. [get_folder_by_path] returns a folder of the tree whatever the
    path; and when every part of the path names a child of the folder
    reached before it, that is the folder the path leads to. *)
Theorem get_folder_by_path_finds (root : Folder) (path : str) :
  is_Some (subfolder root (get_folder_by_path root path))
  /\ forall node, descend root [] (split SLASH path) = Some node ->
                  get_folder_by_path root path = node.
Proof.
  split; [apply stroll_valid; simpl; eauto|].
  unfold get_folder_by_path. generalize (split SLASH path) as parts.
  generalize (@nil nat) as folder.
  intros folder parts; revert folder; induction parts as [|part rest IH];
    intros folder node; simpl.
  - intros [= <-]. reflexivity.
  - destruct (find_child root folder part); [apply IH | discriminate].
Qed.

Lemma get_folder_by_path_finds_witness :
  is_Some (subfolder Examples.inbox
             (get_folder_by_path Examples.inbox (py "Orders/Invoices")))
  /\ get_folder_by_path Examples.inbox (py "Orders/Invoices") = [1%nat; 0%nat].
Proof.
  destruct (get_folder_by_path_finds Examples.inbox (py "Orders/Invoices"))
    as [Hin Hfound].
  split; [exact Hin | apply Hfound; vm_compute; reflexivity].
Defined.

(** X10. [get_folder_by_path] passes over a segment that names no child of
    the folder reached so far: the path with that segment and the path
    without it lead to the same folder, which is a folder of the tree in
    any case. *)
Theorem get_folder_by_path_skips (root : Folder) (before after : list str)
    (part : str) :
  find_child root (stroll root [] before) part = None ->
  stroll root [] (before ++ part :: after) = stroll root [] (before ++ after)
  /\ is_Some (subfolder root (stroll root [] (before ++ part :: after))).
Proof.
  intros Hmiss. split; [|apply stroll_valid; simpl; eauto].
  rewrite !stroll_app. simpl. rewrite Hmiss. reflexivity.
Qed.

Lemma get_folder_by_path_skips_witness :
  stroll Examples.inbox [] ([py "Orders"] ++ py "Typo" :: [py "Invoices"])
  = stroll Examples.inbox [] ([py "Orders"] ++ [py "Invoices"])
  /\ is_Some (subfolder Examples.inbox
                (stroll Examples.inbox []
                   ([py "Orders"] ++ py "Typo" :: [py "Invoices"]))).
Proof.
  apply (get_folder_by_path_skips Examples.inbox [py "Orders"] [py "Invoices"]
           (py "Typo")).
  vm_compute. reflexivity.
Defined.

(** ** Loading the messages *)

Lemma load_loop_spec (raw : list Item) (messages : list Item) (skipped : nat)
    (log : list log_line) :
  load_loop raw messages skipped log
  = (messages ++ List.filter has_time raw,
     (skipped + length (List.filter (fun m => negb (has_time m)) raw))%nat,
     log ++ map (fun m => SKIPPED_no_received_time (subject_or_default m))
              (List.filter (fun m => negb (has_time m)) raw)).
Proof.
  revert messages skipped log; induction raw as [|msg raw IH];
    intros messages skipped log; simpl.
  - rewrite !app_nil_r, Nat.add_0_r. reflexivity.
  - destruct (ReceivedTime msg) as [t|] eqn:E.
    + assert (Ht : has_time msg = true) by (unfold has_time; rewrite E; reflexivity).
      rewrite Ht. simpl. rewrite IH, <- app_assoc. reflexivity.
    + assert (Ht : has_time msg = false) by (unfold has_time; rewrite E; reflexivity).
      rewrite Ht. simpl. rewrite IH, <- app_assoc. simpl.
      rewrite Nat.add_succ_r. reflexivity.
Qed.

Lemma filter_filter_and (f g : Item -> bool) (l : list Item) :
  List.filter g (List.filter f l) = List.filter (fun m => f m && g m) l.
Proof.
  induction l as [|m l IH]; simpl; [reflexivity|].
  destruct (f m); simpl; [|exact IH].
  destruct (g m); simpl; rewrite IH; reflexivity.
Qed.

Lemma load_messages_kept (items : list Item) (log0 : list log_line) :
  (load_messages items log0).1.1
  = List.filter (fun m => is_mail m && has_time m) items.
Proof.
  unfold load_messages. rewrite load_loop_spec. simpl.
  fold is_mail. rewrite filter_filter_and. reflexivity.
Qed.

(** X11. [load_messages] keeps the mail items whose time can be read, in
    the order of the folder; it counts every other mail item as skipped and
    writes one line for it; items that are no mails are passed over in
    silence.  So the messages kept and the count of the skipped add up to
    the number of mail items. *)
Theorem load_messages_partition (items : list Item) (log0 : list log_line) :
  let r := load_messages items log0 in
  let unreadable := List.filter (fun m => is_mail m && negb (has_time m)) items in
  r.1.1 = List.filter (fun m => is_mail m && has_time m) items
  /\ r.1.2 = length unreadable
  /\ r.2 = log0 ++ map (fun m => SKIPPED_no_received_time (subject_or_default m))
                     unreadable
  /\ (length r.1.1 + r.1.2 = length (List.filter is_mail items))%nat.
Proof.
  intros r unreadable. subst r unreadable. unfold load_messages.
  rewrite load_loop_spec. simpl.
  fold is_mail. rewrite !filter_filter_and.
  split; [reflexivity|]. split; [reflexivity|]. split; [reflexivity|].
  induction items as [|m items IH]; simpl; [reflexivity|].
  destruct (is_mail m); simpl; [|exact IH].
  destruct (has_time m); simpl; lia.
Qed.

(** ** Processing one message *)

Lemma classify_email_posts (U : UnicodeData) (make_prompt : Mail -> cache -> str)
    (mail : Mail) (kf : cache) (n : Network) :
  posts (classify_email U make_prompt mail kf n).2 = S (posts n)
  /\ service (classify_email U make_prompt mail kf n).2 = service n.
Proof.
  unfold classify_email, requests_post.
  destruct (service n (posts n) (make_prompt mail kf)); simpl;
    [split; reflexivity|].
  destruct (status_code response =? 200)%Z; split; reflexivity.
Qed.

Lemma grows_refl (t : Folder) : grows t t.
Proof. split; [apply extends_refl | reflexivity]. Qed.

Lemma grows_trans (t1 t2 t3 : Folder) : grows t1 t2 -> grows t2 t3 -> grows t1 t3.
Proof.
  intros [H1 N1] [H2 N2]. split; [exact (extends_trans _ _ _ H1 H2) | congruence].
Qed.

(** What the resolver leaves of the tree, in one place. *)
Lemma resolve_grows (U : UnicodeData) (create : bool) (t : Folder) (kf : cache)
    (path : str) :
  grows t (get_or_create_folder U create t kf path).1.1
  /\ (no_twins t -> no_twins (get_or_create_folder U create t kf path).1.1)
  /\ (create = false -> (get_or_create_folder U create t kf path).1.1 = t)
  /\ is_Some (subfolder (get_or_create_folder U create t kf path).1.1
                (get_or_create_folder U create t kf path).2).
Proof.
  destruct (resolve_walk U create t kf path) as (p0 & rest & _ & ->).
  assert (Hv : is_Some (subfolder t [])) by (simpl; eauto).
  pose proof (walk_spec U create rest t kf [] p0 Hv) as (Hext & Hname & Htw & H).
  destruct (walk U create rest t kf [] p0) as [t' kf' node rp'|t' kf']; simpl in *.
  - destruct H as (Hd & _ & Hsame).
    split; [split; assumption|]. split; [exact Htw|]. split; [exact Hsame|].
    apply (descend_valid t' [] rest); [simpl; eauto | exact Hd].
  - destruct H as (Hc & -> & _).
    split; [split; assumption|]. split; [exact Htw|]. split; [reflexivity|].
    unfold unsorted_or_root.
    destruct (find_child t [] (py "Unsorted")) as [i|] eqn:Hf; [|simpl; eauto].
    exact (find_child_valid t [] _ i Hv Hf).
Qed.

Section ProcessFacts.

Variable U : UnicodeData.
Variable CREATE_NEW_FOLDERS : bool.
Variable SOURCE_FOLDER_PATH : str.
Variable make_prompt : Mail -> cache -> str.
Variable str_of_time : Z -> str.
Variable DefaultItemType : Folder -> handle -> option Z.
Variable Move_succeeds : Item -> Folder -> handle -> bool.

#[local] Abbreviation process :=
  (process_message U CREATE_NEW_FOLDERS SOURCE_FOLDER_PATH make_prompt
     str_of_time DefaultItemType Move_succeeds).

(** Everything a call of [process_message] can come to. *)
Lemma process_message_cases (mail : Item) (w : World) :
  let r := process mail w in
  (* the time cannot be read *)
  (ReceivedTime mail = None /\ r = (inl com_error, w))
  \/ exists n',
       posts n' = S (posts (net w)) /\ service n' = service (net w)
       /\ net r.2 = n'
       /\ ((* the oracle call fails *)
           (exists e, r.1 = inl (Raised e)
                      /\ r.2 = with_net w n')
           \/ exists folder_path,
                let res := get_or_create_folder U CREATE_NEW_FOLDERS (tree w)
                             (known_folders w) folder_path in
                (CREATE_NEW_FOLDERS = false ->
                 folder_path = SOURCE_FOLDER_PATH ++ py "/Unsorted")
                /\ tree r.2 = res.1.1 /\ known_folders r.2 = res.1.2
                /\ ((* moved *)
                    (r.1 = inr tt
                     /\ DefaultItemType res.1.1 res.2 = Some 0%Z
                     /\ log r.2 = log w ++ [SORTED (or_empty (Subject mail)) folder_path]
                     /\ moved r.2 = moved w ++ [(mail, res.2)])
                    \/ (* the move fails *)
                    (r.1 = inl com_error
                     /\ DefaultItemType res.1.1 res.2 = Some 0%Z
                     /\ log r.2 = log w /\ moved r.2 = moved w)
                    \/ (* not a mail folder *)
                    (r.1 = inr tt
                     /\ DefaultItemType res.1.1 res.2 <> Some 0%Z
                     /\ log r.2 = log w ++ [SKIPPED_not_a_mail_folder
                                              (or_empty (Subject mail)) folder_path]
                     /\ moved r.2 = moved w))).
Proof.
  unfold process_message.
  destruct (ReceivedTime mail) as [time|]; [right | left; split; reflexivity].
  match goal with
  | |- context [classify_email U make_prompt ?m ?k ?n] =>
      pose proof (classify_email_posts U make_prompt m k n) as [Hposts Hservice];
      destruct (classify_email U make_prompt m k n) as [answer n']
  end.
  simpl in Hposts, Hservice. exists n'. split; [exact Hposts|]. split; [exact Hservice|].
  destruct answer as [e|suggestion]; simpl.
  - split; [reflexivity|]. left. exists e. split; reflexivity.
  - match goal with
    | |- context [get_or_create_folder U CREATE_NEW_FOLDERS (tree w) (known_folders w) ?p] =>
        set (folder_path := p)
    end.
    assert (Hpath : CREATE_NEW_FOLDERS = false ->
                    folder_path = SOURCE_FOLDER_PATH ++ py "/Unsorted").
    { intros Hc. subst folder_path. rewrite Hc. reflexivity. }
    destruct (get_or_create_folder U CREATE_NEW_FOLDERS (tree w) (known_folders w)
                folder_path) as [[t k] target] eqn:Hres.
    destruct (DefaultItemType t target) as [[|p|p]|] eqn:Htype.
    + destruct (Move_succeeds mail t target); simpl.
      * split; [reflexivity|]. right. exists folder_path. rewrite Hres. simpl.
        split; [exact Hpath|]. split; [reflexivity|]. split; [reflexivity|].
        left. repeat split; try reflexivity. exact Htype.
      * split; [reflexivity|]. right. exists folder_path. rewrite Hres. simpl.
        split; [exact Hpath|]. split; [reflexivity|]. split; [reflexivity|].
        right; left. repeat split; try reflexivity. exact Htype.
    + simpl. split; [reflexivity|]. right. exists folder_path. rewrite Hres. simpl.
      split; [exact Hpath|]. split; [reflexivity|]. split; [reflexivity|].
      right; right. split; [reflexivity|]. split; [rewrite Htype; discriminate|].
      split; reflexivity.
    + simpl. split; [reflexivity|]. right. exists folder_path. rewrite Hres. simpl.
      split; [exact Hpath|]. split; [reflexivity|]. split; [reflexivity|].
      right; right. split; [reflexivity|]. split; [rewrite Htype; discriminate|].
      split; reflexivity.
    + simpl. split; [reflexivity|]. right. exists folder_path. rewrite Hres. simpl.
      split; [exact Hpath|]. split; [reflexivity|]. split; [reflexivity|].
      right; right. split; [reflexivity|]. split; [rewrite Htype; discriminate|].
      split; reflexivity.
Qed.

End ProcessFacts.

(** X12. When the oracle call fails, [process_message] passes the failure
    on and leaves the tree, the cache, the log and the messages where they
    were; one request was sent. *)
Theorem oracle_failure_changes_nothing (U : UnicodeData) (create : bool)
    (SOURCE_FOLDER_PATH : str) (make_prompt : Mail -> cache -> str)
    (str_of_time : Z -> str) (DefaultItemType : Folder -> handle -> option Z)
    (Move_succeeds : Item -> Folder -> handle -> bool)
    (mail : Item) (w : World) (e : exception) :
  let r := process_message U create SOURCE_FOLDER_PATH make_prompt str_of_time
             DefaultItemType Move_succeeds mail w in
  r.1 = inl (Raised e) ->
  tree r.2 = tree w /\ known_folders r.2 = known_folders w
  /\ log r.2 = log w /\ moved r.2 = moved w
  /\ posts (net r.2) = S (posts (net w)).
Proof.
  intros r Hr. subst r.
  destruct (process_message_cases U create SOURCE_FOLDER_PATH make_prompt str_of_time
              DefaultItemType Move_succeeds mail w)
    as [[_ Heq] | (n' & Hposts & _ & Hnet & [(e' & _ & Heq) | (p & _ & _ & _ & H)])].
  - rewrite Heq in Hr. discriminate.
  - rewrite Heq. simpl. repeat split; try reflexivity. exact Hposts.
  - destruct H as [(H & _) | [(H & _) | (H & _)]]; rewrite H in Hr; discriminate.
Qed.

Lemma oracle_failure_changes_nothing_witness :
  let w := {| tree := Examples.inbox; known_folders := ∅;
              net := Examples.answering Examples.no_choices;
              log := []; moved := [] |} in
  let mail := {| ItemClass := 43; ReceivedTime := Some 5%Z; Subject := Some (py "Hi");
                 Body := None; SenderName := None; SenderEmailAddress := None;
                 To := None; CC := None; Attachments := [] |} in
  let r := process_message Examples.ucd true (py "Postvak In") Examples.make_prompt
             (fun _ => py "today") (fun _ _ => Some 0%Z) (fun _ _ _ => true) mail w in
  tree r.2 = tree w /\ known_folders r.2 = known_folders w
  /\ log r.2 = log w /\ moved r.2 = moved w
  /\ posts (net r.2) = S (posts (net w)).
Proof.
  intros w mail.
  apply (oracle_failure_changes_nothing Examples.ucd true (py "Postvak In")
           Examples.make_prompt (fun _ => py "today") (fun _ _ => Some 0%Z)
           (fun _ _ _ => true) mail w IndexError).
  vm_compute. reflexivity.
Defined.

(** X13. [process_message] moves a message only into a folder of the tree
    whose type marker says mail, and only together with one [SORTED] line;
    when it ends well it has written exactly one line, and when it fails it
    has written none and moved nothing. *)
Theorem moves_only_into_mail_folders (U : UnicodeData) (create : bool)
    (SOURCE_FOLDER_PATH : str) (make_prompt : Mail -> cache -> str)
    (str_of_time : Z -> str) (DefaultItemType : Folder -> handle -> option Z)
    (Move_succeeds : Item -> Folder -> handle -> bool)
    (mail : Item) (w : World) :
  let r := process_message U create SOURCE_FOLDER_PATH make_prompt str_of_time
             DefaultItemType Move_succeeds mail w in
  ((r.1 = inr tt /\ exists line, log r.2 = log w ++ [line])
   \/ ((exists f, r.1 = inl f) /\ log r.2 = log w /\ moved r.2 = moved w))
  /\ (moved r.2 = moved w
      \/ exists target folder_path,
           moved r.2 = moved w ++ [(mail, target)]
           /\ DefaultItemType (tree r.2) target = Some 0%Z
           /\ is_Some (subfolder (tree r.2) target)
           /\ log r.2 = log w ++ [SORTED (or_empty (Subject mail)) folder_path]).
Proof.
  intros r. subst r.
  destruct (process_message_cases U create SOURCE_FOLDER_PATH make_prompt str_of_time
              DefaultItemType Move_succeeds mail w)
    as [[_ Heq] | (n' & _ & _ & _ & [(e' & He & Heq) | (p & _ & Htree & _ & H)])].
  - rewrite Heq. simpl. split; [right; split; [eauto | split; reflexivity] | left; reflexivity].
  - rewrite He, Heq. simpl.
    split; [right; split; [eauto | split; reflexivity] | left; reflexivity].
  - simpl in Htree, H.
    destruct H as [(H & Ht & Hl & Hm) | [(H & Ht & Hl & Hm) | (H & Ht & Hl & Hm)]].
    + split; [left; split; [exact H | eauto]|]. right.
      exists (get_or_create_folder U create (tree w) (known_folders w) p).2, p.
      split; [exact Hm|]. rewrite Htree. split; [exact Ht|].
      split; [apply resolve_grows | exact Hl].
    + split; [right; split; [eauto | split; assumption] | left; exact Hm].
    + split; [left; split; [exact H | eauto] | left; exact Hm].
Qed.

(** X14. With creation not allowed the answer of the oracle decides
    nothing: whatever two services answer, if the call ends well with both,
    the tree is as it was and the cache, the log and the messages moved are
    the same with both. *)
Theorem answer_ignored_without_creation (U : UnicodeData)
    (SOURCE_FOLDER_PATH : str) (make_prompt : Mail -> cache -> str)
    (str_of_time : Z -> str) (DefaultItemType : Folder -> handle -> option Z)
    (Move_succeeds : Item -> Folder -> handle -> bool)
    (mail : Item) (w : World) (n1 n2 : Network) :
  let r1 := process_message U false SOURCE_FOLDER_PATH make_prompt str_of_time
              DefaultItemType Move_succeeds mail (with_net w n1) in
  let r2 := process_message U false SOURCE_FOLDER_PATH make_prompt str_of_time
              DefaultItemType Move_succeeds mail (with_net w n2) in
  r1.1 = inr tt -> r2.1 = inr tt ->
  tree r1.2 = tree w /\ tree r2.2 = tree w
  /\ known_folders r1.2 = known_folders r2.2
  /\ log r1.2 = log r2.2 /\ moved r1.2 = moved r2.2.
Proof.
  intros r1 r2 H1 H2. subst r1 r2.
  destruct (process_message_cases U false SOURCE_FOLDER_PATH make_prompt str_of_time
              DefaultItemType Move_succeeds mail (with_net w n1))
    as [[_ Heq] | (n1' & _ & _ & _ & [(e' & He & _) | (p1 & Hp1 & Ht1 & Hk1 & C1)])];
    [rewrite Heq in H1; discriminate | rewrite He in H1; discriminate|].
  destruct (process_message_cases U false SOURCE_FOLDER_PATH make_prompt str_of_time
              DefaultItemType Move_succeeds mail (with_net w n2))
    as [[_ Heq] | (n2' & _ & _ & _ & [(e' & He & _) | (p2 & Hp2 & Ht2 & Hk2 & C2)])];
    [rewrite Heq in H2; discriminate | rewrite He in H2; discriminate|].
  rewrite (Hp1 eq_refl) in *. rewrite (Hp2 eq_refl) in *. clear Hp1 Hp2.
  simpl in *.
  destruct (resolve_grows U false (tree w) (known_folders w)
              (SOURCE_FOLDER_PATH ++ py "/Unsorted")) as (_ & _ & Hsame & _).
  specialize (Hsame eq_refl).
  split; [congruence|]. split; [congruence|]. split; [congruence|].
  destruct C1 as [(_ & T1 & L1 & M1) | [(F1 & _) | (_ & T1 & L1 & M1)]];
    [| rewrite F1 in H1; discriminate |];
    (destruct C2 as [(_ & T2 & L2 & M2) | [(F2 & _) | (_ & T2 & L2 & M2)]];
     [| rewrite F2 in H2; discriminate |]);
    try contradiction; split; congruence.
Qed.

Lemma answer_ignored_without_creation_witness :
  let w := {| tree := Examples.inbox; known_folders := ∅;
              net := Examples.answering Examples.no_choices;
              log := []; moved := [] |} in
  let mail := {| ItemClass := 43; ReceivedTime := Some 5%Z; Subject := Some (py "Hi");
                 Body := None; SenderName := None; SenderEmailAddress := None;
                 To := None; CC := None; Attachments := [] |} in
  let r1 := process_message Examples.ucd false (py "Postvak In") Examples.make_prompt
              (fun _ => py "today") (fun _ _ => Some 0%Z) (fun _ _ _ => true) mail
              (with_net w (Examples.answering (Examples.choice (py "Postvak In/Work")))) in
  let r2 := process_message Examples.ucd false (py "Postvak In") Examples.make_prompt
              (fun _ => py "today") (fun _ _ => Some 0%Z) (fun _ _ _ => true) mail
              (with_net w (Examples.answering (Examples.choice (py "Postvak In/Orders")))) in
  tree r1.2 = tree w /\ tree r2.2 = tree w
  /\ known_folders r1.2 = known_folders r2.2
  /\ log r1.2 = log r2.2 /\ moved r1.2 = moved r2.2.
Proof.
  intros w mail.
  apply (answer_ignored_without_creation Examples.ucd (py "Postvak In")
           Examples.make_prompt (fun _ => py "today") (fun _ _ => Some 0%Z)
           (fun _ _ _ => true) mail w
           (Examples.answering (Examples.choice (py "Postvak In/Work")))
           (Examples.answering (Examples.choice (py "Postvak In/Orders"))));
    vm_compute; reflexivity.
Defined.

(** ** The loop of [main] *)

Lemma pair_eta {A B : Type} (p : A * B) : p = (p.1, p.2).
Proof. destruct p; reflexivity. Qed.

Section MainFacts.

Variable U : UnicodeData.
Variable CREATE_NEW_FOLDERS : bool.
Variable SOURCE_FOLDER_PATH : str.
Variable NUM_EMAILS : Z.
Variable make_prompt : Mail -> cache -> str.
Variable str_of_time : Z -> str.
Variable DefaultItemType : Folder -> handle -> option Z.
Variable Move_succeeds : Item -> Folder -> handle -> bool.

#[local] Abbreviation one :=
  (sort_one U CREATE_NEW_FOLDERS SOURCE_FOLDER_PATH make_prompt
     str_of_time DefaultItemType Move_succeeds).
#[local] Abbreviation all :=
  (sort_emails U CREATE_NEW_FOLDERS SOURCE_FOLDER_PATH make_prompt
     str_of_time DefaultItemType Move_succeeds).

Lemma sort_one_turn (mail : Item) (w : World) :
  turn U CREATE_NEW_FOLDERS (if has_subject mail && has_time mail then 1 else 0)%nat
    w (one mail w).
Proof.
  unfold sort_one, has_subject.
  destruct (Subject mail) as [subj|] eqn:Hsubj; simpl.
  2: { split; simpl; try (intros; reflexivity).
       - eexists. split; reflexivity.
       - lia.
       - left; reflexivity.
       - apply grows_refl.
       - trivial. }
  pose proof (process_message_cases U CREATE_NEW_FOLDERS SOURCE_FOLDER_PATH
                make_prompt str_of_time DefaultItemType Move_succeeds mail w) as Hc.
  cbv zeta in Hc. unfold has_time.
  assert (Hnone : ReceivedTime mail = None ->
                  process_message U CREATE_NEW_FOLDERS SOURCE_FOLDER_PATH make_prompt
                    str_of_time DefaultItemType Move_succeeds mail w
                  = (inl com_error, w)).
  { intros H. unfold process_message. rewrite H. reflexivity. }
  revert Hc Hnone.
  destruct (process_message U CREATE_NEW_FOLDERS SOURCE_FOLDER_PATH make_prompt
              str_of_time DefaultItemType Move_succeeds mail w) as [res w'].
  simpl. intros Hc Hnone.
  destruct Hc as [[Htime Heq] | (n' & Hposts & _ & Hnet & Hc)].
  - injection Heq as -> ->. rewrite Htime. split; simpl; try (intros; reflexivity).
    + eexists. split; reflexivity.
    + lia.
    + left; reflexivity.
    + apply grows_refl.
    + trivial.
  - destruct (ReceivedTime mail) as [t|].
    2: { specialize (Hnone eq_refl). injection Hnone as -> ->.
         exfalso. rewrite <- Hnet in Hposts. lia. }
    clear Hnone.
    destruct Hc as [(e & He & Heq) | (p & _ & Htree & Hkf & Hc)].
    + subst res w'. split; simpl; try (intros; reflexivity).
      * eexists. split; reflexivity.
      * lia.
      * left; reflexivity.
      * apply grows_refl.
      * trivial.
    + destruct (resolve_grows U CREATE_NEW_FOLDERS (tree w) (known_folders w) p)
        as (Hgrows & Htw & Hsame & _).
      assert (Hstep : Step U CREATE_NEW_FOLDERS (tree w, known_folders w)
                        ((get_or_create_folder U CREATE_NEW_FOLDERS (tree w)
                            (known_folders w) p).1.1,
                         (get_or_create_folder U CREATE_NEW_FOLDERS (tree w)
                            (known_folders w) p).1.2)).
      { rewrite <- pair_eta. apply step_resolve. }
      destruct Hc as [(H & _ & Hl & _) | [(H & _ & Hl & _) | (H & _ & Hl & _)]];
        rewrite H; simpl;
        (split; simpl;
         [ rewrite ?Hl; try rewrite <- app_assoc; eexists; split; reflexivity
         | rewrite Hnet, Hposts; lia
         | right; rewrite Htree, Hkf; exact Hstep
         | rewrite Htree; exact Hgrows
         | rewrite Htree; exact Htw
         | rewrite Htree; exact Hsame ]).
Qed.

Lemma turn_reachable (k : nat) (w w' : World) :
  turn U CREATE_NEW_FOLDERS k w w' ->
  Reachable U CREATE_NEW_FOLDERS (tree w, known_folders w) ->
  Reachable U CREATE_NEW_FOLDERS (tree w', known_folders w').
Proof.
  intros [_ _ [-> | Hstep] _ _ _] Hr; [exact Hr|].
  exact (reach_step _ _ _ _ Hr Hstep).
Qed.

(** What holds from the start of the loop to its end. *)
Lemma sort_emails_spec (messages : list Item) (w : World) :
  (exists lines, log (all messages w) = log w ++ lines
                 /\ length lines = length messages)
  /\ posts (net (all messages w))
     = (posts (net w)
        + length (List.filter (fun m => has_subject m && has_time m) messages))%nat
  /\ (Reachable U CREATE_NEW_FOLDERS (tree w, known_folders w) ->
      Reachable U CREATE_NEW_FOLDERS
        (tree (all messages w), known_folders (all messages w)))
  /\ grows (tree w) (tree (all messages w))
  /\ (no_twins (tree w) -> no_twins (tree (all messages w)))
  /\ (CREATE_NEW_FOLDERS = false -> tree (all messages w) = tree w).
Proof.
  unfold sort_emails. revert w; induction messages as [|mail messages IH]; intros w;
    simpl.
  - split; [exists []; split; [rewrite app_nil_r|]; reflexivity|].
    split; [lia|]. split; [trivial|]. split; [apply grows_refl|].
    split; [trivial | reflexivity].
  - pose proof (sort_one_turn mail w) as Ht.
    destruct (IH (one mail w)) as ((lines & Hl & Hn) & Hp & Hr & Hg & Htw & Hs).
    destruct Ht as [(line & Hl1 & Hn1) Hp1 Hst1 Hg1 Htw1 Hs1] eqn:Eturn.
    split.
    { exists (line ++ lines). rewrite Hl, Hl1, <- app_assoc.
      split; [reflexivity|]. rewrite length_app. simpl. lia. }
    split.
    { rewrite Hp, Hp1. destruct (has_subject mail && has_time mail); simpl; lia. }
    split.
    { intros H. apply Hr. destruct Hst1 as [Heq | Hstep]; [rewrite Heq; exact H|].
      exact (reach_step _ _ _ _ H Hstep). }
    split; [exact (grows_trans _ _ _ Hg1 Hg)|].
    split; [intros H; exact (Htw (Htw1 H))|].
    intros Hc. rewrite (Hs Hc). exact (Hs1 Hc).
Qed.

(** The tree and the cache from one turn to the next: as they were, or
    one call of the resolver further. *)
Lemma process_message_state (mail : Item) (w : World) :
  let r := process_message U CREATE_NEW_FOLDERS SOURCE_FOLDER_PATH make_prompt
             str_of_time DefaultItemType Move_succeeds mail w in
  (tree r.2, known_folders r.2) = (tree w, known_folders w)
  \/ (has_time mail = true
      /\ exists answer,
           (tree r.2, known_folders r.2)
           = (get_or_create_folder U CREATE_NEW_FOLDERS (tree w) (known_folders w)
                (path_of_answer U CREATE_NEW_FOLDERS SOURCE_FOLDER_PATH answer)).1).
Proof.
  unfold process_message, has_time.
  destruct (ReceivedTime mail) as [time|]; [|left; reflexivity].
  match goal with
  | |- context [classify_email U make_prompt ?m ?k ?n] =>
      destruct (classify_email U make_prompt m k n) as [answer n']
  end.
  destruct answer as [e|suggestion]; simpl; [left; reflexivity|].
  right. split; [reflexivity|]. exists suggestion.
  unfold path_of_answer. cbv zeta.
  match goal with
  | |- context [get_or_create_folder U CREATE_NEW_FOLDERS (tree w) (known_folders w) ?p] =>
      destruct (get_or_create_folder U CREATE_NEW_FOLDERS (tree w) (known_folders w) p)
        as [[t k] target]
  end.
  destruct (DefaultItemType t target) as [[|p|p]|]; try reflexivity.
  destruct (Move_succeeds mail t target); reflexivity.
Qed.

Lemma resolve_all_app (paths more : list str) (st : Folder * cache) :
  resolve_all U CREATE_NEW_FOLDERS (paths ++ more) st
  = resolve_all U CREATE_NEW_FOLDERS more (resolve_all U CREATE_NEW_FOLDERS paths st).
Proof. unfold resolve_all. apply fold_left_app. Qed.

Lemma sort_one_state (mail : Item) (w : World) :
  exists paths,
    (length paths <= if has_subject mail && has_time mail then 1 else 0)%nat
    /\ Forall (fun p => exists answer,
                 p = path_of_answer U CREATE_NEW_FOLDERS SOURCE_FOLDER_PATH answer)
         paths
    /\ (tree (one mail w), known_folders (one mail w))
       = resolve_all U CREATE_NEW_FOLDERS paths (tree w, known_folders w).
Proof.
  unfold sort_one, has_subject.
  destruct (Subject mail) as [subj|].
  2: { exists []. split; [simpl; lia|]. split; [constructor | reflexivity]. }
  pose proof (process_message_state mail w) as Hs. cbv zeta in Hs.
  destruct (process_message U CREATE_NEW_FOLDERS SOURCE_FOLDER_PATH make_prompt
              str_of_time DefaultItemType Move_succeeds mail w) as [res w'].
  simpl in Hs.
  assert (Hsame : (tree (match res with
                         | inl e => write (SKIPPED_error (subject_or_default mail) e) w'
                         | inr _ => w'
                         end),
                   known_folders (match res with
                                  | inl e => write (SKIPPED_error
                                                      (subject_or_default mail) e) w'
                                  | inr _ => w'
                                  end))
                  = (tree w', known_folders w')).
  { destruct res; reflexivity. }
  assert (Hgoal : forall X : World,
            (tree X, known_folders X) = (tree w', known_folders w') ->
            exists paths,
              (length paths <= if true && has_time mail then 1 else 0)%nat
              /\ Forall (fun p => exists answer,
                           p = path_of_answer U CREATE_NEW_FOLDERS
                                 SOURCE_FOLDER_PATH answer) paths
              /\ (tree X, known_folders X)
                 = resolve_all U CREATE_NEW_FOLDERS paths (tree w, known_folders w)).
  { intros X ->. destruct Hs as [-> | (Ht & answer & ->)].
    - exists []. split; [simpl; lia|]. split; [constructor | reflexivity].
    - exists [path_of_answer U CREATE_NEW_FOLDERS SOURCE_FOLDER_PATH answer].
      rewrite Ht. split; [simpl; lia|].
      split; [constructor; [eauto | constructor] | reflexivity]. }
  destruct res as [e|u]; apply Hgoal; reflexivity.
Qed.

Lemma sort_emails_state (messages : list Item) (w : World) :
  exists paths,
    (length paths
     <= length (List.filter (fun m => has_subject m && has_time m) messages))%nat
    /\ Forall (fun p => exists answer,
                 p = path_of_answer U CREATE_NEW_FOLDERS SOURCE_FOLDER_PATH answer)
         paths
    /\ (tree (all messages w), known_folders (all messages w))
       = resolve_all U CREATE_NEW_FOLDERS paths (tree w, known_folders w).
Proof.
  unfold sort_emails. revert w; induction messages as [|mail messages IH]; intros w;
    simpl.
  - exists []. split; [simpl; lia|]. split; [constructor | reflexivity].
  - destruct (sort_one_state mail w) as (p1 & Hn1 & Hp1 & Hs1).
    destruct (IH (one mail w)) as (p2 & Hn2 & Hp2 & Hs2).
    exists (p1 ++ p2). rewrite length_app, resolve_all_app, <- Hs1.
    split; [|split; [apply Forall_app; split; assumption | exact Hs2]].
    destruct (has_subject mail && has_time mail); simpl in *; lia.
Qed.

End MainFacts.

(** ** Sorting and cutting *)

Lemma insert_latest_first_perm (msg : Item) (l : list Item) :
  insert_latest_first msg l ≡ₚ msg :: l.
Proof.
  induction l as [|m l IH]; simpl; [reflexivity|].
  destruct (received m <? received msg)%Z; [reflexivity|].
  rewrite IH. apply Permutation_swap.
Qed.

Lemma insert_latest_first_sorted (msg : Item) (l : list Item) :
  StronglySorted not_later l -> StronglySorted not_later (insert_latest_first msg l).
Proof.
  induction 1 as [|m l Hl IH Hm]; simpl; [repeat constructor|].
  destruct (Z.ltb_spec (received m) (received msg)) as [Hlt|Hge].
  - constructor; [constructor; assumption|].
    constructor; [unfold not_later; lia|].
    eapply Forall_impl; [exact Hm|]. unfold not_later. intros b Hb. lia.
  - constructor; [exact IH|].
    rewrite insert_latest_first_perm. constructor; [exact Hge | exact Hm].
Qed.

Lemma sort_latest_first_from (messages acc : list Item) :
  fold_left (fun sorted msg => insert_latest_first msg sorted) messages acc
  ≡ₚ acc ++ messages
  /\ (StronglySorted not_later acc ->
      StronglySorted not_later
        (fold_left (fun sorted msg => insert_latest_first msg sorted) messages acc)).
Proof.
  revert acc; induction messages as [|m messages IH]; intros acc; simpl.
  - rewrite app_nil_r. split; [reflexivity | trivial].
  - destruct (IH (insert_latest_first m acc)) as [Hp Hs]. split.
    + rewrite Hp, insert_latest_first_perm. simpl. apply Permutation_middle.
    + intros H. apply Hs, insert_latest_first_sorted, H.
Qed.

Lemma sort_latest_first_spec (messages : list Item) :
  sort_latest_first messages ≡ₚ messages
  /\ StronglySorted not_later (sort_latest_first messages).
Proof.
  destruct (sort_latest_first_from messages []) as [Hp Hs].
  split; [exact Hp | apply Hs; constructor].
Qed.

Lemma slice_to_take (n : Z) (l : list Item) :
  exists k, slice_to n l = take k l
            /\ ((0 <= n)%Z -> k = Z.to_nat n)
            /\ ((n < 0)%Z -> k = (length l - Z.to_nat (- n))%nat).
Proof.
  unfold slice_to. destruct (Z.leb_spec 0 n).
  - exists (Z.to_nat n). split; [reflexivity|]. split; [trivial | lia].
  - exists (length l - Z.to_nat (- n))%nat. split; [reflexivity|].
    split; [lia | trivial].
Qed.

(** X15. Sorting and cutting choose the latest messages: the messages
    chosen and the messages left out are together the messages given, no
    message left out is later than a message chosen, and the cut keeps
    [n] messages (all of them when there are fewer), or, for a negative
    [n], all but the last [-n]. *)
Theorem latest_messages_chosen (n : Z) (messages : list Item) :
  let chosen := slice_to n (sort_latest_first messages) in
  exists left_out,
    chosen ++ left_out ≡ₚ messages
    /\ (forall a b, In a chosen -> In b left_out -> (received b <= received a)%Z)
    /\ ((0 <= n)%Z -> length chosen = Nat.min (Z.to_nat n) (length messages))
    /\ ((n < 0)%Z -> length chosen = (length messages - Z.to_nat (- n))%nat).
Proof.
  intros chosen. subst chosen.
  destruct (sort_latest_first_spec messages) as [Hperm Hsorted].
  destruct (slice_to_take n (sort_latest_first messages)) as (k & -> & Hpos & Hneg).
  exists (drop k (sort_latest_first messages)).
  rewrite take_drop. split; [exact Hperm|]. split.
  - intros a b Ha Hb.
    rewrite <- (take_drop k (sort_latest_first messages)) in Hsorted.
    apply list_elem_of_In in Ha, Hb.
    exact (StronglySorted_app_1_elem_of _ _ _ _ _ Hsorted Ha Hb).
  - rewrite length_take, (Permutation_length Hperm). split.
    + intros H. rewrite (Hpos H). reflexivity.
    + intros H. rewrite (Hneg H), (Permutation_length Hperm). lia.
Qed.

(** ** A whole run *)

Section RunFacts.

Variable U : UnicodeData.
Variable CREATE_NEW_FOLDERS : bool.
Variable SOURCE_FOLDER_PATH : str.
Variable NUM_EMAILS : Z.
Variable make_prompt : Mail -> cache -> str.
Variable str_of_time : Z -> str.
Variable DefaultItemType : Folder -> handle -> option Z.
Variable Move_succeeds : Item -> Folder -> handle -> bool.

#[local] Abbreviation run :=
  (main U CREATE_NEW_FOLDERS SOURCE_FOLDER_PATH NUM_EMAILS make_prompt
     str_of_time DefaultItemType Move_succeeds).

Lemma main_unfold (source : Folder) (items : list Item) (service0 : Network) :
  run source items service0 =
  sort_emails U CREATE_NEW_FOLDERS SOURCE_FOLDER_PATH make_prompt
    str_of_time DefaultItemType Move_succeeds
    (chosen_messages NUM_EMAILS items)
    {| tree := source;
       known_folders := build_folder_cache U source (py "Postvak In") ∅;
       net := service0;
       log := (load_messages items []).2
              ++ [SUMMARY (length (load_messages items []).1.1)
                    (load_messages items []).1.2];
       moved := [] |}.
Proof.
  unfold main, chosen_messages.
  destruct (load_messages items []) as [[messages skipped] lines]. reflexivity.
Qed.

Lemma chosen_messages_have_time (items : list Item) :
  Forall (fun m => has_time m = true) (chosen_messages NUM_EMAILS items).
Proof.
  unfold chosen_messages.
  rewrite load_messages_kept.
  destruct (slice_to_take NUM_EMAILS
              (sort_latest_first
                 (List.filter (fun m => is_mail m && has_time m) items)))
    as (k & -> & _).
  apply Forall_take.
  rewrite (proj1 (sort_latest_first_spec _)).
  apply List.Forall_forall. intros m Hm. apply filter_In in Hm as [_ Hm].
  apply andb_prop in Hm as [_ Hm]. exact Hm.
Qed.

Lemma filter_ext_Forall (f g : Item -> bool) (l : list Item) :
  Forall (fun m => f m = g m) l -> List.filter f l = List.filter g l.
Proof.
  induction 1 as [|m l Hm _ IH]; simpl; [reflexivity|].
  rewrite Hm, IH. reflexivity.
Qed.

End RunFacts.

(** X16. No message is dropped in silence: after the lines of
    [load_messages] and the summary line, [main] writes exactly one line
    for each message it has chosen, whether the message was moved, skipped,
    or made the oracle or Outlook fail. *)
Theorem main_writes_one_line_per_message (U : UnicodeData) (create : bool)
    (SOURCE_FOLDER_PATH : str) (NUM_EMAILS : Z)
    (make_prompt : Mail -> cache -> str) (str_of_time : Z -> str)
    (DefaultItemType : Folder -> handle -> option Z)
    (Move_succeeds : Item -> Folder -> handle -> bool)
    (source : Folder) (items : list Item) (service0 : Network) :
  let loaded := load_messages items [] in
  exists lines,
    log (main U create SOURCE_FOLDER_PATH NUM_EMAILS make_prompt str_of_time
           DefaultItemType Move_succeeds source items service0)
    = loaded.2 ++ [SUMMARY (length loaded.1.1) loaded.1.2] ++ lines
    /\ length lines = length (chosen_messages NUM_EMAILS items).
Proof.
  intros loaded. subst loaded. rewrite main_unfold.
  match goal with
  | |- context [sort_emails _ _ _ _ _ _ _ ?ms ?w] =>
      destruct (sort_emails_spec U create SOURCE_FOLDER_PATH make_prompt str_of_time
                  DefaultItemType Move_succeeds ms w) as ((lines & Hl & Hn) & _)
  end.
  exists lines. rewrite Hl. simpl. rewrite <- app_assoc. split; [reflexivity | exact Hn].
Qed.

(** X17. [main] sends the oracle one request for each chosen message that
    has a subject attribute, and none besides: a failure of the oracle is
    never followed by a second try. *)
Theorem main_sends_one_request_per_message (U : UnicodeData) (create : bool)
    (SOURCE_FOLDER_PATH : str) (NUM_EMAILS : Z)
    (make_prompt : Mail -> cache -> str) (str_of_time : Z -> str)
    (DefaultItemType : Folder -> handle -> option Z)
    (Move_succeeds : Item -> Folder -> handle -> bool)
    (source : Folder) (items : list Item) (service0 : Network) :
  posts (net (main U create SOURCE_FOLDER_PATH NUM_EMAILS make_prompt str_of_time
                DefaultItemType Move_succeeds source items service0))
  = (posts service0
     + length (List.filter has_subject (chosen_messages NUM_EMAILS items)))%nat.
Proof.
  rewrite main_unfold.
  match goal with
  | |- context [sort_emails _ _ _ _ _ _ _ ?ms ?w] =>
      destruct (sort_emails_spec U create SOURCE_FOLDER_PATH make_prompt str_of_time
                  DefaultItemType Move_succeeds ms w) as (_ & Hp & _)
  end.
  rewrite Hp. simpl. f_equal. f_equal. apply filter_ext_Forall.
  eapply Forall_impl; [apply chosen_messages_have_time|].
  intros m Hm. simpl in Hm. rewrite Hm. apply andb_true_r.
Qed.

(** X18. At the end of [main] the tree and the cache are what one
    rebuild from the source folder on the empty cache, followed by calls
    of the resolver and by nothing else, leaves: at most one call for each
    chosen message that has a subject, each on the path [process_message]
    makes of an answer of the oracle (the validated answer, or the
    [Unsorted] folder of the source when folders are not to be created).
    Such a state is one that [Reachable] describes, and every entry of the
    cache sits under the canonical key of its path. *)
Theorem main_ends_in_reachable_state (U : UnicodeData) (create : bool)
    (SOURCE_FOLDER_PATH : str) (NUM_EMAILS : Z)
    (make_prompt : Mail -> cache -> str) (str_of_time : Z -> str)
    (DefaultItemType : Folder -> handle -> option Z)
    (Move_succeeds : Item -> Folder -> handle -> bool)
    (source : Folder) (items : list Item) (service0 : Network) :
  let w := main U create SOURCE_FOLDER_PATH NUM_EMAILS make_prompt str_of_time
             DefaultItemType Move_succeeds source items service0 in
  (exists paths,
     (tree w, known_folders w)
     = resolve_all U create paths
         (source, build_folder_cache U source (py "Postvak In") ∅)
     /\ (length paths
         <= length (List.filter has_subject (chosen_messages NUM_EMAILS items)))%nat
     /\ Forall (fun p => exists answer,
                  p = path_of_answer U create SOURCE_FOLDER_PATH answer) paths)
  /\ Reachable U create (tree w, known_folders w)
  /\ cache_consistent U (known_folders w).
Proof.
  intros w. subst w. rewrite main_unfold.
  match goal with
  | |- context [sort_emails _ _ _ _ _ _ _ ?ms ?w] =>
      destruct (sort_emails_spec U create SOURCE_FOLDER_PATH make_prompt str_of_time
                  DefaultItemType Move_succeeds ms w) as (_ & _ & Hr & _);
      destruct (sort_emails_state U create SOURCE_FOLDER_PATH make_prompt str_of_time
                  DefaultItemType Move_succeeds ms w) as (paths & Hn & Hp & Hs)
  end.
  simpl in Hr, Hs. split.
  - exists paths. split; [exact Hs|]. split; [|exact Hp].
    rewrite (filter_ext_Forall has_subject (fun m => has_subject m && has_time m));
      [exact Hn|].
    eapply Forall_impl; [apply chosen_messages_have_time|].
    intros m Hm. simpl in Hm. rewrite Hm. symmetry. apply andb_true_r.
  - assert (H : Reachable U create
                  (source, build_folder_cache U source (py "Postvak In") ∅)).
    { eapply reach_step; [apply reach_start | apply step_build]. }
    specialize (Hr H). split; [exact Hr|].
    exact (reachable_consistent _ _ _ Hr).
Qed.

(** X19. A whole run never removes, moves or renames a folder; it makes
    no twins if there were none; and with creation not allowed it leaves
    the tree exactly as it was. *)
Theorem main_keeps_the_tree (U : UnicodeData) (create : bool)
    (SOURCE_FOLDER_PATH : str) (NUM_EMAILS : Z)
    (make_prompt : Mail -> cache -> str) (str_of_time : Z -> str)
    (DefaultItemType : Folder -> handle -> option Z)
    (Move_succeeds : Item -> Folder -> handle -> bool)
    (source : Folder) (items : list Item) (service0 : Network) :
  let w := main U create SOURCE_FOLDER_PATH NUM_EMAILS make_prompt str_of_time
             DefaultItemType Move_succeeds source items service0 in
  (forall h f, subfolder source h = Some f ->
               exists f', subfolder (tree w) h = Some f' /\ Name f' = Name f)
  /\ (no_twins source -> no_twins (tree w))
  /\ (create = false -> tree w = source).
Proof.
  intros w. subst w. rewrite main_unfold.
  match goal with
  | |- context [sort_emails _ _ _ _ _ _ _ ?ms ?w] =>
      destruct (sort_emails_spec U create SOURCE_FOLDER_PATH make_prompt str_of_time
                  DefaultItemType Move_succeeds ms w) as (_ & _ & _ & [Hext Hname] & Htw & Hs)
  end.
  simpl in *. split; [|split; assumption].
  intros h f Hf. exact (extends_keeps_folders _ _ _ _ Hext Hname Hf).
Qed.

(** ** The prompt *)

Lemma metadata_heads (received_date : option str) (attachments : list str) (x : str) :
  x ∈ metadata_of received_date attachments ->
  exists c t, x = c :: t /\ (c = 79 \/ c = 65 \/ c = 66).
Proof.
  unfold metadata_of. rewrite !elem_of_app. intros [H | [H | H]].
  - destruct received_date as [[|c d]|]; try (apply elem_of_nil in H; contradiction).
    apply list_elem_of_singleton in H. subst x.
    eexists _, _. split; [reflexivity | left; reflexivity].
  - apply list_elem_of_singleton in H. subst x.
    eexists _, _. split; [reflexivity | right; left; reflexivity].
  - destruct attachments as [|a rest]; [apply elem_of_nil in H; contradiction|].
    apply list_elem_of_singleton in H. subst x.
    eexists _, _. split; [reflexivity | right; right; reflexivity].
Qed.

Lemma metadata_lacks (received_date : option str) (attachments : list str)
    (key : str) :
  key = py "attachment_names" \/ key = py "from_domain" \/ key = py "labels" ->
  key ∉ metadata_of received_date attachments.
Proof.
  intros Hkey H. apply metadata_heads in H as (c & t & Heq & Hc).
  destruct Hkey as [-> | [-> | ->]];
    vm_compute in Heq; injection Heq as <- _;
    destruct Hc as [Hc | [Hc | Hc]]; discriminate Hc.
Qed.

(** X20. On the list [classify_email] gives it, [extract_useful_metadata]
    never raises and always returns the empty string: none of the three
    names it asks for is an element of that list, whatever the date and the
    attachments. *)
Theorem extract_useful_metadata_is_empty (received_date : option str)
    (attachments : list str) :
  extract_useful_metadata (metadata_of received_date attachments) = inr [].
Proof.
  unfold extract_useful_metadata.
  rewrite !bool_decide_eq_false_2; [reflexivity | | |];
    apply metadata_lacks; auto.
Qed.

(** X21. The date of a mail and its attachments never reach the prompt:
    putting the prompt together always succeeds, and two mails with the
    same subject, sender, recipients and first thousand code points of body
    give the same prompt. *)
Theorem prompt_ignores_date_and_attachments (PERSONAL_DETAILS : str)
    (EXAMPLE_PROMPT_format : str -> str) (mail mail' : Mail) (known_folders : cache) :
  subject mail = subject mail' ->
  sender_name mail = sender_name mail' ->
  sender_email mail = sender_email mail' ->
  to mail = to mail' ->
  cc mail = cc mail' ->
  take 1000 (body mail) = take 1000 (body mail') ->
  build_prompt PERSONAL_DETAILS EXAMPLE_PROMPT_format mail known_folders
  = build_prompt PERSONAL_DETAILS EXAMPLE_PROMPT_format mail' known_folders
  /\ exists prompt,
       build_prompt PERSONAL_DETAILS EXAMPLE_PROMPT_format mail known_folders
       = inr prompt.
Proof.
  intros Hs Hn He Ht Hc Hb. unfold build_prompt.
  unfold extract_useful_metadata.
  rewrite !bool_decide_eq_false_2 by (apply metadata_lacks; auto). simpl.
  rewrite Hs, Hn, He, Ht, Hc, Hb. split; [reflexivity | eauto].
Qed.

Lemma prompt_ignores_date_and_attachments_witness :
  let mail' := {| subject := subject Examples.mail; body := body Examples.mail;
                  sender_name := sender_name Examples.mail;
                  sender_email := sender_email Examples.mail;
                  to := to Examples.mail; cc := cc Examples.mail;
                  attachments := []; received_date := Some (py "2024-05-01") |} in
  build_prompt (py "Details") (fun folders => folders) Examples.mail ∅
  = build_prompt (py "Details") (fun folders => folders) mail' ∅
  /\ exists prompt,
       build_prompt (py "Details") (fun folders => folders) Examples.mail ∅
       = inr prompt.
Proof.
  intros mail'.
  apply (prompt_ignores_date_and_attachments (py "Details") (fun folders => folders)
           Examples.mail mail' ∅); reflexivity.
Defined.

(** ** [ask_pdf] *)

Lemma length_truncated (pdf_text : str) :
  (N.of_nat (length (truncated pdf_text)) <= TEXT_LIMIT + 19)%N.
Proof.
  unfold truncated. destruct (N.ltb_spec TEXT_LIMIT (N.of_nat (length pdf_text))).
  - rewrite !length_app, length_take.
    change (length NL) with 1%nat.
    change (length (py "...[truncated]...")) with 17%nat. lia.
  - lia.
Qed.

(** X22. The prompt of [ask_pdf] is bounded whatever the size of the
    file: it has at most 15057 code points besides the question. *)
Theorem pdf_prompt_bounded (question : str) (pages : list (option str)) :
  (N.of_nat (length (pdf_prompt question pages))
   <= 15057 + N.of_nat (length question))%N.
Proof.
  unfold pdf_prompt. rewrite !length_app.
  pose proof (length_truncated (pdf_text_from 1 pages [])) as H.
  unfold TEXT_LIMIT in H.
  change (length NL) with 1%nat.
  change (length (py "Document content:")) with 17%nat.
  change (length (py "Question: ")) with 10%nat.
  change (length (py "Answer:")) with 7%nat. lia.
Qed.

Lemma lookup_error_not_runtime (e : exception) (status : Z) (body : str) :
  lookup_error e -> e <> RuntimeError status body.
Proof.
  unfold lookup_error. simpl. intros H ->. intuition discriminate.
Qed.

(** X23. [ask_pdf] sends one request whatever comes of it.  It raises
    [RuntimeError] exactly when a response comes back with a status other
    than 200; with status 200 it returns the text of the first choice as it
    is, neither stripped nor replaced when it is blank. *)
Theorem ask_pdf_outcome (question : str) (pages : list (option str)) (net : Network) :
  let prompt := pdf_prompt question pages in
  let r := ask_pdf question pages net in
  posts r.2 = S (posts net)
  /\ (forall status body,
        r.1 = inl (RuntimeError status body) <->
        exists response,
          service net (posts net) prompt = Answer response
          /\ status_code response <> 200%Z
          /\ status = status_code response /\ body = text response)
  /\ (forall response s,
        service net (posts net) prompt = Answer response ->
        status_code response = 200%Z ->
        suggestion response = Some s ->
        r.1 = inr (JString s)).
Proof.
  unfold ask_pdf, requests_post; simpl.
  destruct (service net (posts net) (pdf_prompt question pages))
    as [|response] eqn:Eservice; simpl.
  - split; [reflexivity|]. split; [|discriminate].
    intros status body. split; [discriminate | intros (r & [=] & _)].
  - destruct (Z.eqb_spec (status_code response) 200) as [H200|Hnot]; simpl.
    + split; [reflexivity|]. split.
      * intros status body. split; [|intros (r & [= <-] & Hne & _); contradiction].
        unfold bind.
        destruct (response_json response) as [e|v] eqn:E1.
        { intros [= ->]. apply response_json_error in E1.
          destruct (lookup_error_not_runtime _ _ _ E1 eq_refl). }
        destruct (getitem v (py "choices")) as [e|v1] eqn:E2.
        { intros [= ->]. apply getitem_error in E2.
          destruct (lookup_error_not_runtime _ _ _ E2 eq_refl). }
        destruct (getitem0 v1) as [e|v2] eqn:E3.
        { intros [= ->]. apply getitem0_error in E3.
          destruct (lookup_error_not_runtime _ _ _ E3 eq_refl). }
        destruct (getitem v2 (py "text")) as [e|v3] eqn:E4; [|discriminate].
        intros [= ->]. apply getitem_error in E4.
        destruct (lookup_error_not_runtime _ _ _ E4 eq_refl).
      * intros r s [= <-] _. unfold suggestion, bind.
        destruct (response_json response) as [e|v]; [discriminate|].
        destruct (getitem v (py "choices")) as [e|v1]; [discriminate|].
        destruct (getitem0 v1) as [e|v2]; [discriminate|].
        destruct (getitem v2 (py "text")) as [e|v3]; [discriminate|].
        destruct v3; try discriminate. intros [= ->]. reflexivity.
    + split; [reflexivity|]. split.
      * intros status body. split.
        -- intros [= <- <-]. exists response. repeat split; auto.
        -- intros (r & [= <-] & _ & -> & ->). reflexivity.
      * intros r s [= <-] H. contradiction.
Qed.

(** ** The validation of the earlier revisions *)

Lemma sub_backslash_s_id (s : str) : ~ In 92 s -> sub_backslash_s_from false s = s.
Proof.
  induction s as [|c s IH]; simpl; [reflexivity|].
  intros H. destruct (N.eqb_spec c 92) as [->|_]; [exfalso; apply H; left; reflexivity|].
  simpl. rewrite IH; [reflexivity | intros Hin; apply H; right; exact Hin].
Qed.

Lemma strip_subset (U : UnicodeData) (s : str) (c : N) :
  In c (strip U s) -> In c s.
Proof.
  destruct (strip_split U s) as (pre & post & Hs & _).
  intros H. rewrite Hs. apply in_or_app; right. apply in_or_app; left. exact H.
Qed.

Lemma prepend_root_rooted (U : UnicodeData) (s : str) :
  AsciiCompatible U ->
  startswith (lower U (prepend_root U s)) (py "postvak in/") = true.
Proof.
  intros HU. unfold prepend_root.
  destruct (startswith (lower U s) (py "postvak in/")) eqn:E; simpl;
    [exact E | apply lower_root_prefix, HU].
Qed.

(** X24. The validation of the two earlier revisions and
    [clean_folder_path] give the same path for every suggestion that has no
    backslash and whose white space, once trimmed, is single spaces
    already; the test of the root prefix that the earlier revisions make
    before rejecting never decides anything. *)
Theorem inline_validation_agrees (U : UnicodeData) (folder_path : str) :
  AsciiCompatible U ->
  ~ In 92 folder_path ->
  sub_spaces U (strip U folder_path) = strip U folder_path ->
  clean_path_inline U folder_path = clean_folder_path U folder_path
  /\ startswith
       (lower U (prepend_root U (sub_backslash_s (strip U folder_path))))
       (py "postvak in/") = true.
Proof.
  intros HU Hno Hsp. split; [|apply prepend_root_rooted, HU].
  unfold clean_path_inline, clean_folder_path.
  rewrite (prepend_root_rooted U _ HU). simpl.
  unfold sub_backslash_s. rewrite sub_backslash_s_id, Hsp; [reflexivity|].
  intros H. apply Hno. exact (strip_subset U _ _ H).
Qed.

Lemma inline_validation_agrees_witness :
  clean_path_inline Examples.ucd (py " Orders/Old Invoices")
  = clean_folder_path Examples.ucd (py " Orders/Old Invoices")
  /\ startswith
       (lower Examples.ucd
          (prepend_root Examples.ucd
             (sub_backslash_s (strip Examples.ucd (py " Orders/Old Invoices")))))
       (py "postvak in/") = true.
Proof.
  apply (inline_validation_agrees Examples.ucd (py " Orders/Old Invoices")).
  - exact ucd_ascii.
  - vm_compute. intuition discriminate.
  - vm_compute. reflexivity.
Defined.

(** ** More about the validator *)

Lemma existsb_false_In {A : Type} (f : A -> bool) (l : list A) (x : A) :
  existsb f l = false -> In x l -> f x = false.
Proof.
  intros He Hin. destruct (f x) eqn:E; [|reflexivity].
  assert (existsb f l = true) by (apply existsb_exists; eauto). congruence.
Qed.

Lemma not_strange_allowed (s : str) :
  existsb (fun c => negb (allowed c)) s = false -> forallb allowed s = true.
Proof.
  induction s as [|c s IH]; simpl; [reflexivity|].
  destruct (allowed c); simpl; [exact IH | discriminate].
Qed.

Lemma allowed_unlower (c : N) : allowed (ascii_lower c) = true -> allowed c = true.
Proof.
  unfold ascii_lower. destruct ((65 <=? c) && (c <=? 90)) eqn:E; [|exact (fun H => H)].
  intros _. unfold allowed. rewrite E. rewrite orb_true_r. reflexivity.
Qed.

(** X25. What the validator returns passes its own deny list, whatever
    the suggestion was: none of the four patterns matches the lower-case
    form of the path returned, and every code point of that lower-case
    form is of the class [[a-zA-Z0-9/ -]].  Of the path itself, every
    Basic Latin code point is of the class; a code point outside Basic
    Latin stays when its lower-case form is of the class, as U+212A KELVIN
    SIGN does. *)
Theorem validated_path_passes_deny_list (U : UnicodeData) (folder_path : str) :
  AsciiCompatible U ->
  (forall p, In p FORBIDDEN_PATTERNS ->
             Re.search p (lower U (clean_folder_path U folder_path)) = false)
  /\ forallb allowed (lower U (clean_folder_path U folder_path)) = true
  /\ (forall c, In c (clean_folder_path U folder_path) -> c < 128 ->
                allowed c = true).
Proof.
  intros HU.
  assert (Hall : forall p, In p FORBIDDEN_PATTERNS ->
                   Re.search p (lower U (clean_folder_path U folder_path)) = false).
  { rewrite clean_folder_path_cleaned.
    destruct (existsb _ FORBIDDEN_PATTERNS) eqn:E.
    - rewrite (lower_ascii U HU FALLBACK_PATH) by (repeat constructor).
      intros p [<- | [<- | [<- | [<- | []]]]]; vm_compute; reflexivity.
    - intros p Hp.
      exact (existsb_false_In (fun p => Re.search p _) _ p E Hp). }
  assert (Hlow : forallb allowed (lower U (clean_folder_path U folder_path)) = true).
  { apply not_strange_allowed. rewrite <- search_Class.
    apply (Hall strange_symbol). right; right; left; reflexivity. }
  split; [exact Hall|]. split; [exact Hlow|].
  intros c Hin Hc. apply allowed_unlower.
  destruct (do_lower_In U [] _ c Hin) as (b & a & H).
  rewrite forallb_forall in Hlow. apply Hlow, H.
  unfold lower_at. destruct (N.eqb_spec c SIGMA) as [->|_]; [unfold SIGMA in Hc; lia|].
  rewrite (tolower_ascii U HU c Hc). left. reflexivity.
Qed.

Lemma validated_path_passes_deny_list_witness :
  (forall p, In p FORBIDDEN_PATTERNS ->
             Re.search p (lower Examples.ucd
                            (clean_folder_path Examples.ucd (py "Orders?"))) = false)
  /\ forallb allowed (lower Examples.ucd (clean_folder_path Examples.ucd (py "Orders?")))
     = true
  /\ (forall c, In c (clean_folder_path Examples.ucd (py "Orders?")) -> c < 128 ->
                allowed c = true).
Proof.
  apply (validated_path_passes_deny_list Examples.ucd (py "Orders?")).
  exact ucd_ascii.
Defined.

(** The Kelvin sign stays: ["Orders/"] with U+212A after it comes back as it
    is, with the root prefix before it. *)
Lemma kelvin_sign_stays :
  clean_folder_path Examples.ucd (py "Orders/" ++ [8490])
  = ROOT_PREFIX ++ py "Orders/" ++ [8490]
  /\ allowed 8490 = false.
Proof. split; vm_compute; reflexivity. Qed.

Section Tidy.

Variable U : UnicodeData.
Hypothesis HU : AsciiCompatible U.

Lemma space_is_space : isspace U 32 = true.
Proof. rewrite (isspace_ascii U HU 32) by reflexivity. reflexivity. Qed.

Lemma single_spaced_sub_spaces (b : bool) (s : str) :
  single_spaced U b (sub_spaces_from U b s) = true.
Proof.
  revert b; induction s as [|c s IH]; intros b; simpl; [reflexivity|].
  destruct (isspace U c) eqn:Ec.
  - destruct b; [apply IH|]. simpl. rewrite space_is_space. simpl. apply IH.
  - simpl. rewrite Ec. apply IH.
Qed.

Lemma sub_spaces_fixed (b : bool) (s : str) :
  single_spaced U b s = true -> sub_spaces_from U b s = s.
Proof.
  revert b; induction s as [|c s IH]; intros b; simpl; [reflexivity|].
  destruct (isspace U c).
  - intros H. apply andb_prop in H as [H H3]. apply andb_prop in H as [H1 H2].
    apply N.eqb_eq in H1. subst c. destruct b; [discriminate|].
    rewrite (IH true H3). reflexivity.
  - intros H. rewrite (IH false H). reflexivity.
Qed.

Lemma lstrip_fixed (s : str) :
  (forall c, head s = Some c -> isspace U c = false) -> lstrip U s = s.
Proof.
  destruct s as [|c s]; simpl; [reflexivity|].
  intros H. rewrite (H c eq_refl). reflexivity.
Qed.

Lemma strip_fixed (s : str) :
  (forall c, head s = Some c -> isspace U c = false) ->
  (forall c, last s = Some c -> isspace U c = false) ->
  strip U s = s.
Proof.
  intros Hh Hl. unfold strip, rstrip. rewrite (lstrip_fixed s Hh).
  rewrite lstrip_fixed; [apply rev_involutive|].
  intros c Hc. rewrite head_rev_last in Hc. exact (Hl c Hc).
Qed.

Lemma head_sub_spaces (s : str) (c : N) :
  (forall a, head s = Some a -> isspace U a = false) ->
  head (sub_spaces_from U false s) = Some c -> isspace U c = false.
Proof.
  destruct s as [|a s]; simpl; [discriminate|].
  intros H. rewrite (H a eq_refl). simpl. intros [= <-]. exact (H a eq_refl).
Qed.

Lemma last_sub_spaces (b : bool) (s : str) (c : N) :
  last s = Some c -> isspace U c = false ->
  last (sub_spaces_from U b s) = Some c.
Proof.
  revert b; induction s as [|a s IH]; intros b; [discriminate|].
  destruct s as [|a' s].
  - simpl. intros [= ->] Hc. rewrite Hc. reflexivity.
  - intros Hl Hc. change (last (a :: a' :: s)) with (last (a' :: s)) in Hl.
    assert (Hrec : forall b', last (sub_spaces_from U b' (a' :: s)) = Some c)
      by (intros b'; exact (IH b' Hl Hc)).
    assert (Hcons : forall x b', last (x :: sub_spaces_from U b' (a' :: s)) = Some c).
    { intros x b'. specialize (Hrec b').
      destruct (sub_spaces_from U b' (a' :: s)); [discriminate | exact Hrec]. }
    change (sub_spaces_from U b (a :: a' :: s))
      with (if isspace U a
            then (if b then sub_spaces_from U true (a' :: s)
                  else 32 :: sub_spaces_from U true (a' :: s))
            else a :: sub_spaces_from U false (a' :: s)).
    destruct (isspace U a); [destruct b|]; auto.
Qed.

Lemma last_sub_spaces_clean (s : str) (c : N) :
  (forall a, last s = Some a -> isspace U a = false) ->
  last (sub_spaces_from U false s) = Some c -> isspace U c = false.
Proof.
  intros H Hc. destruct (last s) as [a|] eqn:El.
  - rewrite (last_sub_spaces false s a El (H a eq_refl)) in Hc.
    injection Hc as <-. exact (H a eq_refl).
  - destruct s as [|x s]; [discriminate|].
    exfalso. clear -El. revert x El; induction s as [|y s IH]; intros x El;
      [discriminate | exact (IH y El)].
Qed.

(** The path the patterns are tried on is tidy: trimming it and collapsing
    its white space again change nothing, and it needs no prefix. *)
Lemma cleaned_path_fixed (s : str) :
  cleaned_path U (cleaned_path U s) = cleaned_path U s.
Proof.
  destruct (strip_split U s) as (_ & _ & _ & _ & _ & Hhead & Hlast).
  set (t := strip U s) in *.
  set (x := sub_spaces U t).
  assert (Hx1 : single_spaced U false x = true) by apply single_spaced_sub_spaces.
  assert (Hx2 : forall c, head x = Some c -> isspace U c = false).
  { intros c. apply head_sub_spaces. exact Hhead. }
  assert (Hx3 : forall c, last x = Some c -> isspace U c = false).
  { intros c. apply last_sub_spaces_clean. exact Hlast. }
  assert (Hy : cleaned_path U s = prepend_root U x) by reflexivity.
  rewrite Hy.
  assert (Hcase : (prepend_root U x = x
                   /\ startswith (lower U x) (py "postvak in/") = true)
                  \/ prepend_root U x = ROOT_PREFIX ++ x).
  { unfold prepend_root.
    destruct (startswith (lower U x) (py "postvak in/")); simpl;
      [left; split; reflexivity | right; reflexivity]. }
  destruct Hcase as [[-> E] | ->].
  - unfold cleaned_path. rewrite (strip_fixed x Hx2 Hx3).
    unfold sub_spaces. rewrite (sub_spaces_fixed false x Hx1).
    unfold prepend_root. rewrite E. reflexivity.
  - assert (Hns : forall c, c < 128 -> ascii_isspace c = false -> isspace U c = false).
    { intros c Hc Hf. rewrite (isspace_ascii U HU c Hc). exact Hf. }
    assert (Hstrip : strip U (ROOT_PREFIX ++ x) = ROOT_PREFIX ++ x).
    { apply strip_fixed.
      - intros c [= <-]. apply Hns; reflexivity.
      - intros c Hc. destruct x as [|a x'] using rev_ind.
        + injection Hc as <-. apply Hns; reflexivity.
        + rewrite app_assoc, last_snoc in Hc. injection Hc as <-.
          apply Hx3. apply last_snoc. }
    assert (Hsub : sub_spaces U (ROOT_PREFIX ++ x) = ROOT_PREFIX ++ x).
    { apply sub_spaces_fixed. cbn -[isspace single_spaced N.eqb].
      unfold ROOT_PREFIX. vm_compute (py "Postvak In/"). simpl app. simpl.
      rewrite !(Hns _) by reflexivity. rewrite space_is_space. simpl.
      rewrite !(Hns _) by reflexivity. exact Hx1. }
    unfold cleaned_path. rewrite Hstrip, Hsub.
    unfold prepend_root. rewrite (lower_root_prefix U HU x). reflexivity.
Qed.

End Tidy.

(** X26. Validating a validated path changes nothing. *)
Theorem clean_folder_path_idempotent (U : UnicodeData) (folder_path : str) :
  AsciiCompatible U ->
  clean_folder_path U (clean_folder_path U folder_path)
  = clean_folder_path U folder_path.
Proof.
  intros HU. rewrite (clean_folder_path_cleaned U folder_path).
  destruct (existsb _ FORBIDDEN_PATTERNS) eqn:E.
  - rewrite (clean_folder_path_agree U Examples.ucd HU ucd_ascii FALLBACK_PATH)
      by (repeat constructor).
    vm_compute. reflexivity.
  - rewrite clean_folder_path_cleaned, (cleaned_path_fixed U HU), E. reflexivity.
Qed.

Lemma clean_folder_path_idempotent_witness :
  clean_folder_path Examples.ucd
    (clean_folder_path Examples.ucd (py "  orders   old/Invoices "))
  = clean_folder_path Examples.ucd (py "  orders   old/Invoices ").
Proof.
  apply (clean_folder_path_idempotent Examples.ucd (py "  orders   old/Invoices ")).
  exact ucd_ascii.
Defined.

(** ** Patterns that cannot match *)

Lemma dead_not_nullable (r : regex) : dead r = true -> nullable r = false.
Proof.
  induction r as [| |p|r1 IH1 r2 IH2|r1 IH1 r2 IH2|r IH]; simpl; try discriminate.
  - reflexivity.
  - intros H. apply orb_prop in H as [H|H]; [rewrite (IH1 H) | rewrite (IH2 H)];
      [reflexivity | apply andb_false_r].
  - intros H. apply andb_prop in H as [H1 H2]. rewrite (IH1 H1), (IH2 H2). reflexivity.
Qed.

Lemma dead_deriv (c : N) (r : regex) : dead r = true -> dead (deriv c r) = true.
Proof.
  induction r as [| |p|r1 IH1 r2 IH2|r1 IH1 r2 IH2|r IH]; simpl; try discriminate.
  - reflexivity.
  - intros H. apply orb_prop in H as [H|H].
    + rewrite (dead_not_nullable r1 H). simpl. rewrite (IH1 H). reflexivity.
    + destruct (nullable r1); simpl; rewrite H, ?(IH2 H), ?orb_true_r; reflexivity.
  - intros H. apply andb_prop in H as [H1 H2]. rewrite (IH1 H1), (IH2 H2). reflexivity.
Qed.

Lemma dead_match_prefix (r : regex) (s : str) : dead r = true -> match_prefix r s = false.
Proof.
  revert r; induction s as [|c s IH]; intros r H; simpl;
    rewrite (dead_not_nullable r H); [reflexivity|].
  apply IH, dead_deriv, H.
Qed.

Lemma match_prefix_app (r : regex) (cs s : str) :
  match_prefix r (cs ++ s) = match_prefix r cs || match_prefix (derivs cs r) s.
Proof.
  revert r; induction cs as [|c cs IH]; intros r.
  - simpl. destruct s; simpl; destruct (nullable r); reflexivity.
  - simpl. rewrite IH. unfold derivs. simpl.
    destruct (nullable r); reflexivity.
Qed.

Lemma dead_on_search (r : regex) (cs s : str) :
  dead_on r cs = true -> search r (cs ++ s) = search r s.
Proof.
  induction cs as [|c cs IH]; [reflexivity|].
  intros H. cbn [dead_on] in H.
  apply andb_prop in H as [H H3]. apply andb_prop in H as [H1 H2].
  change (search r ((c :: cs) ++ s))
    with (match_prefix r ((c :: cs) ++ s) || search r (cs ++ s)).
  rewrite match_prefix_app, (dead_match_prefix _ s H2), (IH H3).
  apply negb_true_iff in H1. rewrite H1. reflexivity.
Qed.

(** ** Literal patterns *)

Lemma matches_lit (l x : str) : matches (lit l) x <-> x = l.
Proof.
  revert x; induction l as [|c l IH]; intros x; simpl.
  - split; [intros H; inversion H; reflexivity | intros ->; constructor].
  - split.
    + intros H. inversion H as [| |r1 r2 s1 s2 H1 H2| | | |]; subst.
      inversion H1 as [|p d Hd| | | | |]; subst.
      apply N.eqb_eq in Hd. subst d. apply IH in H2. subst s2. reflexivity.
    + intros ->. apply (MCat _ _ [c] l).
      * constructor. apply N.eqb_refl.
      * apply IH. reflexivity.
Qed.

Lemma contains_spec (s p : str) :
  contains s p = true <-> exists pre post, s = pre ++ p ++ post.
Proof.
  induction s as [|c s IH]; simpl.
  - rewrite orb_false_r, startswith_app. split.
    + intros [t Ht]. exists [], t. exact Ht.
    + intros (pre & post & H). symmetry in H.
      apply app_eq_nil in H as [-> H]. apply app_eq_nil in H as [-> ->].
      exists []. reflexivity.
  - rewrite orb_true_iff, startswith_app, IH. split.
    + intros [[t Ht] | (pre & post & ->)].
      * exists [], t. exact Ht.
      * exists (c :: pre), post. reflexivity.
    + intros (pre & post & H). destruct pre as [|a pre]; simpl in H.
      * left. exists post. exact H.
      * injection H as -> ->. right. exists pre, post. reflexivity.
Qed.

Lemma matches_Cat_inv (r1 r2 : regex) (x : str) :
  matches (Cat r1 r2) x ->
  exists s1 s2, x = s1 ++ s2 /\ matches r1 s1 /\ matches r2 s2.
Proof.
  intros H. inversion H as [| |a b s1 s2 H1 H2| | | |]; subst. eauto.
Qed.

(** A match of a pattern that begins with a literal has the literal in
    it. *)
Lemma search_lit_contains (l more : str) (r : regex) (s : str) :
  (forall x, matches r x -> exists y, x = l ++ y) ->
  search r s = true -> contains s l = true.
Proof.
  intros Hr H. apply search_spec in H as (pre & mid & post & -> & Hm).
  destruct (Hr mid Hm) as [y ->]. apply contains_spec.
  exists pre, (y ++ post). rewrite <- !app_assoc. reflexivity.
Qed.

Lemma root_like_literal (x : str) :
  matches root_like x -> exists y, x = py "postvak in" ++ y.
Proof.
  unfold root_like. intros H.
  apply matches_Cat_inv in H as (s1 & s2 & -> & H1 & _).
  apply matches_lit in H1. subst s1. eauto.
Qed.

Lemma bad_root_variant_literal (x : str) :
  matches bad_root_variant x -> exists y, x = py "postvak in" ++ y.
Proof.
  unfold bad_root_variant. intros H. apply matches_lit in H. subst x.
  exists (py " opr"). reflexivity.
Qed.

Lemma ellipsis_literal (x : str) :
  matches ellipsis x -> exists y, x = py "..." ++ y.
Proof.
  unfold ellipsis. intros H. apply matches_lit in H. subst x.
  exists []. reflexivity.
Qed.

(** ** Names the validator accepts *)

Lemma allowed_ascii (c : N) : allowed c = true -> c < 128.
Proof.
  unfold allowed. rewrite !orb_true_iff, !andb_true_iff, !N.leb_le, !N.eqb_eq. lia.
Qed.

Lemma allowed_lower (c : N) : allowed c = true -> allowed (ascii_lower c) = true.
Proof.
  unfold ascii_lower.
  destruct ((65 <=? c) && (c <=? 90)) eqn:E; [|exact (fun H => H)].
  apply andb_prop in E as [E1 E2]. apply N.leb_le in E1, E2. intros _.
  unfold allowed.
  rewrite !orb_true_iff, !andb_true_iff, !N.leb_le. lia.
Qed.

Lemma allowed_space (c : N) : allowed c = true -> ascii_isspace c = (c =? 32).
Proof.
  unfold allowed, ascii_isspace.
  rewrite !orb_true_iff, !andb_true_iff, !N.leb_le, !N.eqb_eq. intros H.
  destruct (N.eqb_spec c 32) as [->|Hne]; [reflexivity|].
  rewrite orb_false_iff, !andb_false_iff, !N.leb_gt. lia.
Qed.

Section Accepted.

Variable U : UnicodeData.
Hypothesis HU : AsciiCompatible U.

Lemma spaces_inside_single (b : bool) (w : str) :
  forallb allowed w = true -> spaces_inside b w = true ->
  single_spaced U b w = true
  /\ (forall c, last w = Some c -> isspace U c = false).
Proof.
  revert b; induction w as [|c w IH]; intros b Hall Hsp; simpl in *.
  - split; [reflexivity | discriminate].
  - apply andb_prop in Hall as [Hc Hall].
    rewrite (isspace_ascii U HU c (allowed_ascii c Hc)), (allowed_space c Hc).
    destruct (c =? 32) eqn:E.
    + apply andb_prop in Hsp as [Hb Hsp]. destruct (IH true Hall Hsp) as [H1 H2].
      rewrite Hb, H1. split; [reflexivity|].
      intros d Hd. destruct w as [|a w]; [simpl in Hsp; discriminate|].
      apply H2. exact Hd.
    + destruct (IH false Hall Hsp) as [H1 H2]. split; [exact H1|].
      intros d Hd. destruct w as [|a w].
      * injection Hd as <-.
        rewrite (isspace_ascii U HU c (allowed_ascii c Hc)), (allowed_space c Hc).
        exact E.
      * apply H2. exact Hd.
Qed.

Lemma plain_name_cleaned (w : str) :
  forallb allowed w = true -> spaces_ok w = true ->
  sub_spaces U (strip U w) = w.
Proof.
  intros Hall Hsp. destruct w as [|c w]; [reflexivity|].
  unfold spaces_ok in Hsp.
  destruct (spaces_inside_single true (c :: w) Hall Hsp) as [H1 H2].
  assert (Hhead : isspace U c = false).
  { simpl in Hall. apply andb_prop in Hall as [Hc _].
    rewrite (isspace_ascii U HU c (allowed_ascii c Hc)), (allowed_space c Hc).
    simpl in Hsp. destruct (c =? 32); [discriminate | reflexivity]. }
  rewrite (strip_fixed U (c :: w)); [|intros d [= <-]; exact Hhead | exact H2].
  apply sub_spaces_fixed. simpl in H1 |- *. rewrite Hhead in H1 |- *. exact H1.
Qed.

End Accepted.

(** X27. A plain name is accepted as it is: a suggestion made of letters,
    digits, slashes, hyphens and single spaces inside, in which the root
    token does not occur in any letter case, comes back with the root
    prefix before it and is otherwise unchanged. *)
Theorem plain_name_accepted (U : UnicodeData) (w : str) :
  AsciiCompatible U ->
  forallb allowed w = true ->
  spaces_ok w = true ->
  contains (map ascii_lower w) (py "postvak in") = false ->
  clean_folder_path U w = ROOT_PREFIX ++ w.
Proof.
  intros HU Hall Hsp Hroot.
  assert (Hascii : Forall (fun c => c < 128) w).
  { apply List.Forall_forall. intros c Hc. apply allowed_ascii.
    rewrite forallb_forall in Hall. exact (Hall c Hc). }
  assert (Hlow : forallb allowed (map ascii_lower w) = true).
  { rewrite forallb_forall in Hall |- *. intros d Hd.
    apply in_map_iff in Hd as (c & <- & Hc). apply allowed_lower, Hall, Hc. }
  unfold clean_folder_path. rewrite (plain_name_cleaned U HU w Hall Hsp).
  assert (Hpre : prepend_root U w = ROOT_PREFIX ++ w).
  { unfold prepend_root. rewrite (lower_ascii U HU w Hascii).
    destruct (startswith (map ascii_lower w) (py "postvak in/")) eqn:E; [|reflexivity].
    exfalso. apply startswith_app in E as [t Ht].
    assert (contains (map ascii_lower w) (py "postvak in") = true); [|congruence].
    apply contains_spec. exists [], (SLASH :: t). rewrite Ht. reflexivity. }
  rewrite Hpre.
  assert (Hl : lower U (ROOT_PREFIX ++ w) = py "postvak in/" ++ map ascii_lower w).
  { rewrite (lower_ascii U HU).
    - rewrite map_app. reflexivity.
    - apply Forall_app. split; [repeat constructor | exact Hascii]. }
  rewrite Hl.
  assert (Hnone : existsb
                    (fun p => search p (py "postvak in/" ++ map ascii_lower w))
                    FORBIDDEN_PATTERNS = false); [|rewrite Hnone; reflexivity].
  unfold FORBIDDEN_PATTERNS. cbn [existsb].
  rewrite !dead_on_search by (vm_compute; reflexivity).
  assert (H1 : search root_like (map ascii_lower w) = false).
  { destruct (search root_like (map ascii_lower w)) eqn:E; [|reflexivity].
    apply (search_lit_contains _ [] _ _ root_like_literal) in E. congruence. }
  assert (H2 : search ellipsis (map ascii_lower w) = false).
  { destruct (search ellipsis (map ascii_lower w)) eqn:E; [|reflexivity].
    apply (search_lit_contains _ [] _ _ ellipsis_literal) in E.
    apply contains_spec in E as (pre & post & E).
    rewrite E, !forallb_app in Hlow. simpl in Hlow.
    rewrite andb_false_r in Hlow. discriminate. }
  assert (H3 : search strange_symbol (map ascii_lower w) = false).
  { unfold strange_symbol. rewrite search_Class.
    clear -Hlow. induction (map ascii_lower w) as [|c l IH]; [reflexivity|].
    simpl in *. apply andb_prop in Hlow as [Hc Hl]. rewrite Hc, (IH Hl). reflexivity. }
  assert (H4 : search bad_root_variant (map ascii_lower w) = false).
  { destruct (search bad_root_variant (map ascii_lower w)) eqn:E; [|reflexivity].
    apply (search_lit_contains _ [] _ _ bad_root_variant_literal) in E. congruence. }
  rewrite H1, H2, H3, H4. reflexivity.
Qed.

Lemma plain_name_accepted_witness :
  clean_folder_path Examples.ucd (py "Orders/Old Invoices-2024")
  = ROOT_PREFIX ++ py "Orders/Old Invoices-2024".
Proof.
  apply (plain_name_accepted Examples.ucd (py "Orders/Old Invoices-2024")).
  - exact ucd_ascii.
  - vm_compute. reflexivity.
  - vm_compute. reflexivity.
  - vm_compute. reflexivity.
Defined.

(** ** Keys of Basic Latin names *)

Lemma ascii_lower_ascii (c : N) : c < 128 -> ascii_lower c < 128.
Proof.
  unfold ascii_lower. destruct ((65 <=? c) && (c <=? 90)) eqn:E; [|trivial].
  apply andb_prop in E as [_ E]. apply N.leb_le in E. lia.
Qed.

Lemma ascii_lower_twice (c : N) : ascii_lower (ascii_lower c) = ascii_lower c.
Proof.
  unfold ascii_lower. destruct ((65 <=? c) && (c <=? 90)) eqn:E; [|rewrite E; reflexivity].
  apply andb_prop in E as [E _]. apply N.leb_le in E.
  destruct (N.leb_spec (c + 32) 90) as [H|H]; [lia|].
  rewrite andb_false_r. reflexivity.
Qed.

Lemma ascii_isspace_lower (c : N) : ascii_isspace (ascii_lower c) = ascii_isspace c.
Proof.
  unfold ascii_lower. destruct ((65 <=? c) && (c <=? 90)) eqn:E; [|reflexivity].
  apply andb_prop in E as [E1 E2]. apply N.leb_le in E1, E2.
  unfold ascii_isspace.
  destruct (N.leb_spec (c + 32) 13), (N.leb_spec (c + 32) 32),
    (N.leb_spec c 13), (N.leb_spec c 32);
    first [lia | rewrite !andb_false_r; reflexivity].
Qed.

Lemma filter_all {A : Type} (f : A -> bool) (l : list A) :
  Forall (fun x => f x = true) l -> List.filter f l = l.
Proof.
  induction 1 as [|x l Hx _ IH]; simpl; [reflexivity|]. rewrite Hx, IH. reflexivity.
Qed.

Lemma head_map {A B : Type} (f : A -> B) (l : list A) :
  head (map f l) = option_map f (head l).
Proof. destruct l; reflexivity. Qed.

Lemma last_map {A B : Type} (f : A -> B) (l : list A) :
  last (map f l) = option_map f (last l).
Proof.
  induction l as [|x l IH] using rev_ind; [reflexivity|].
  rewrite map_app. simpl. rewrite !last_snoc. reflexivity.
Qed.

Lemma normalize_name_ascii (U : UnicodeData) (s : str) :
  AsciiCompatible U -> Forall (fun c => c < 128) s ->
  normalize_name U s = map ascii_lower (strip U s)
  /\ Forall (fun c => c < 128) (strip U s).
Proof.
  intros HU Hs. unfold normalize_name.
  rewrite (nfkd_ascii U HU s Hs), filter_all.
  - destruct (strip_agree U U HU HU s Hs) as [_ Ht].
    split; [apply (lower_ascii U HU), Ht | exact Ht].
  - eapply Forall_impl; [exact Hs|]. intros c Hc. cbv beta.
    rewrite (combining_ascii U HU c Hc). reflexivity.
Qed.

(** X28. On a name of Basic Latin characters the canonical key is the
    trimmed name in small letters, and it is its own key: normalising a
    key again changes nothing. *)
Theorem normalize_name_basic_latin (U : UnicodeData) (s : str) :
  AsciiCompatible U ->
  Forall (fun c => c < 128) s ->
  normalize_name U s = map ascii_lower (strip U s)
  /\ normalize_name U (normalize_name U s) = normalize_name U s.
Proof.
  intros HU Hs. destruct (normalize_name_ascii U s HU Hs) as [Hk Ht].
  split; [exact Hk|]. rewrite Hk.
  assert (Hl : Forall (fun c => c < 128) (map ascii_lower (strip U s))).
  { apply List.Forall_forall. intros d Hd.
    apply in_map_iff in Hd as (c & <- & Hc). apply ascii_lower_ascii.
    rewrite List.Forall_forall in Ht. exact (Ht c Hc). }
  destruct (normalize_name_ascii U _ HU Hl) as [-> _].
  destruct (strip_split U s) as (_ & _ & _ & _ & _ & Hhead & Hlast).
  assert (Hmem : forall c, In c (strip U s) -> c < 128).
  { intros c Hc. rewrite List.Forall_forall in Ht. exact (Ht c Hc). }
  rewrite (strip_fixed U (map ascii_lower (strip U s))).
  - rewrite map_map. apply map_ext. intros c. apply ascii_lower_twice.
  - intros c Hc. rewrite head_map in Hc.
    destruct (head (strip U s)) as [d|] eqn:Ed; [|discriminate].
    injection Hc as <-.
    assert (Hd : d < 128).
    { apply Hmem. destruct (strip U s); [discriminate|].
      injection Ed as ->. left. reflexivity. }
    rewrite (isspace_ascii U HU _ (ascii_lower_ascii d Hd)), ascii_isspace_lower,
      <- (isspace_ascii U HU d Hd).
    apply Hhead. reflexivity.
  - intros c Hc. rewrite last_map in Hc.
    destruct (last (strip U s)) as [d|] eqn:Ed; [|discriminate].
    injection Hc as <-.
    assert (Hd : d < 128).
    { apply Hmem. apply last_Some in Ed as [l' ->]. apply in_or_app. right. left. reflexivity. }
    rewrite (isspace_ascii U HU _ (ascii_lower_ascii d Hd)), ascii_isspace_lower,
      <- (isspace_ascii U HU d Hd).
    apply Hlast. reflexivity.
Qed.

Lemma normalize_name_basic_latin_witness :
  normalize_name Examples.ucd (py "  Postvak IN/Orders ")
  = map ascii_lower (strip Examples.ucd (py "  Postvak IN/Orders "))
  /\ normalize_name Examples.ucd (normalize_name Examples.ucd (py "  Postvak IN/Orders "))
     = normalize_name Examples.ucd (py "  Postvak IN/Orders ").
Proof.
  apply (normalize_name_basic_latin Examples.ucd (py "  Postvak IN/Orders ")).
  - exact ucd_ascii.
  - vm_compute. repeat constructor.
Defined.
